(** * TumbleBit server core: a shallow embedding of the Go sources

    The Go packages [puzzle], [shuffle] and [tumbler] are embedded as
    modules of the same names.  Go [int], [int32] and [uint32] values are
    integers of [Z] with the wrap-around written where the source can
    reach it, [[]byte] is [list byte], [*big.Int] is [Z], and a Go call
    that can return an error or abort in a run-time panic returns
    a [result]. *)

From Stdlib Require Import ZArith List String Ascii Bool Lia Znumtheory.
From Stdlib Require Import Strings.Byte Sorting.Sorted.
From Stdlib Require Import DecimalString.
From Stdlib Require Import Zmod.ZmodInv.
Import ListNotations.

#[local] Open Scope string_scope.
#[local] Open Scope list_scope.
#[local] Open Scope Z_scope.

(** ** Go run-time conventions *)

Module Go.

(** Outcome of a call: a value, a returned [error] (its message), or a
    run-time panic (its message). *)
Inductive result (A : Type) : Type :=
| Ok (a : A)
| Err (msg : string)
| Panic (msg : string).
Arguments Ok {A} a.
Arguments Err {A} msg.
Arguments Panic {A} msg.

Definition bind {A B} (r : result A) (k : A -> result B) : result B :=
  match r with
  | Ok a => k a
  | Err e => Err e
  | Panic p => Panic p
  end.

Definition is_err {A} (r : result A) : Prop := exists msg, r = Err msg.
Definition is_panic {A} (r : result A) : Prop := exists msg, r = Panic msg.

(** [%d] of the [fmt] verbs. *)
Definition itoa (z : Z) : string := NilZero.string_of_int (Z.to_int z).

Definition len {A} (l : list A) : Z := Z.of_nat (List.length l).

(** [a[i]] on a slice: an index outside [0, len) is a run-time panic. *)
Definition index {A} (l : list A) (i : Z) : result A :=
  if (i <? 0) || (len l <=? i) then Panic "index out of range"
  else match nth_error l (Z.to_nat i) with
       | Some x => Ok x
       | None => Panic "index out of range"
       end.

(** [a[i] = x] on a slice of sufficient length. *)
Fixpoint set_nth {A} (l : list A) (n : nat) (x : A) : list A :=
  match l, n with
  | [], _ => []
  | _ :: t, O => x :: t
  | h :: t, S n' => h :: set_nth t n' x
  end.

Definition byte_of_Z (z : Z) : byte :=
  match Byte.of_N (Z.to_N (z mod 256)) with
  | Some b => b
  | None => x00
  end.

Definition Z_of_byte (b : byte) : Z := Z.of_N (Byte.to_N b).

Definition int32_min : Z := - 2 ^ 31.
Definition int32_max : Z := 2 ^ 31 - 1.

(** Conversion to [int32] and [int32] arithmetic wrap around. *)
Definition wrap32 (z : Z) : Z := (z + 2 ^ 31) mod 2 ^ 32 - 2 ^ 31.

(** Conversion to [uint32]. *)
Definition u32 (z : Z) : Z := z mod 2 ^ 32.

End Go.

Import Go.

Notation "x <- r ;; k" := (Go.bind r (fun x => k))
  (at level 61, r at next level, right associativity).
Notation "' pat <- r ;; k" :=
  (Go.bind r (fun x => match x with pat => k end))
  (at level 61, pat pattern, r at next level, right associativity).

(** ** Package puzzle: the index list codec (puzzlelist.go) *)

Module puzzle_list.

(** [math.MaxUint16] *)
Definition MaxUint16 : Z := 65535.

(** [binary.Write(buf, binary.LittleEndian, uint16(i))]: the two bytes
    appended to the buffer.  Writing to a [bytes.Buffer] does not fail,
    so the source's error branch after the write is not reachable. *)
Definition PutUint16 (i : Z) : list byte :=
  let v := i mod 2 ^ 16 in
  [byte_of_Z v; byte_of_Z (Z.shiftr v 8)].

(** The loop of [EncodeIndexList], with the buffer written so far. *)
Fixpoint EncodeIndexList_from (buf : list byte) (indexList : list Z)
  : result (list byte) :=
  match indexList with
  | [] => Ok buf
  | i :: rest =>
      if (i <? 0) || (i >? MaxUint16)
      then Err ("index out of bounds: " ++ itoa i)%string
      else EncodeIndexList_from (buf ++ PutUint16 i) rest
  end.

Definition EncodeIndexList (indexList : list Z) : result (list byte) :=
  EncodeIndexList_from [] indexList.

(** The loop of [DecodeIndexList]: [binary.Read] of a [uint16] takes two
    bytes of the buffer; on an empty buffer it returns [io.EOF], which
    ends the loop, and on a single byte [io.ErrUnexpectedEOF], which is
    returned as it is. *)
Fixpoint DecodeIndexList_from (res : list Z) (buf : list byte)
  : result (list Z) :=
  match buf with
  | [] => Ok res
  | [_] => Err "unexpected EOF"
  | lo :: hi :: rest =>
      let v := Z.lor (Z_of_byte lo) (Z.shiftl (Z_of_byte hi) 8) in
      DecodeIndexList_from (res ++ [v]) rest
  end.

Definition DecodeIndexList (indexList : list byte) : result (list Z) :=
  if negb (len indexList mod 2 =? 0)
  then Err ("bad list length: " ++ itoa (len indexList))%string
  else DecodeIndexList_from [] indexList.

End puzzle_list.

(** ** Package puzzle: RSA puzzles (puzzle.go and the key file) *)

Module puzzle.

(** *** math/big and crypto/subtle as the package uses them *)

(** [new(big.Int).SetBytes(b)]: the big-endian unsigned value of [b]. *)
Definition SetBytes (b : list byte) : Z :=
  fold_left (fun acc x => acc * 256 + Z_of_byte x) b 0.

Fixpoint be_bytes (fuel : nat) (z : Z) (acc : list byte) : list byte :=
  match fuel with
  | O => acc
  | S fuel' =>
      if z =? 0 then acc
      else be_bytes fuel' (z / 256) (byte_of_Z z :: acc)
  end.

(** [z.Bytes()]: the big-endian bytes of the absolute value of [z],
    without leading zero bytes; zero gives the empty slice. *)
Definition Bytes (z : Z) : list byte :=
  be_bytes (S (Z.to_nat (Z.log2 (Z.abs z)))) (Z.abs z) [].

(** [z.Exp(x, y, m)] for an exponent [0 <= y]: [x**y mod |m|], and
    [x**y] when [m] is zero.  (A negative exponent makes math/big invert
    [x] modulo [m]; the exponents of this package are the public and
    private exponents of an RSA key and the statements take them
    nonnegative.) *)
Definition Exp (x y m : Z) : Z :=
  if m =? 0 then x ^ y else (x ^ y) mod Z.abs m.

(** [z.Mod(x, m)]: the Euclidean modulus, for [m <> 0] (a zero modulus
    is a division by zero in math/big). *)
Definition Mod (x m : Z) : Z := x mod Z.abs m.

Fixpoint bytes_eqb (x y : list byte) : bool :=
  match x, y with
  | [], [] => true
  | a :: x', b :: y' => Byte.eqb a b && bytes_eqb x' y'
  | _, _ => false
  end.

(** [subtle.ConstantTimeCompare]: 1 when the slices have equal length
    and contents, 0 otherwise.  [bytes.Equal] is the same test. *)
Definition ConstantTimeCompare (x y : list byte) : Z :=
  if bytes_eqb x y then 1 else 0.

(** *** Keys *)

(** [rsa.PublicKey], which is also [PuzzlePubKey]. *)
Record PuzzlePubKey : Type := { N : Z; E : Z }.

Record CRTValue : Type := { crtExp : Z; Coeff : Z; R : Z }.

(** [rsa.PrecomputedValues]; [Dp] is [None] for a nil pointer. *)
Record PrecomputedValues : Type := {
  Dp : option Z;
  Dq : Z;
  Qinv : Z;
  CRTValues : list CRTValue
}.

Record PrivateKey : Type := {
  PublicKey_ : PuzzlePubKey;
  D : Z;
  Primes : list Z;
  Precomputed : PrecomputedValues
}.

Record PuzzleKey : Type := {
  rsakey : PrivateKey;
  factor : Z;
  inverse : Z
}.

Definition PublicKey (pk : PuzzleKey) : PuzzlePubKey :=
  {| N := N (PublicKey_ (rsakey pk)); E := E (PublicKey_ (rsakey pk)) |}.

(** *** Puzzles *)

(** Puzzle z is computed as secret^e mod N. *)
Definition createPuzzle (pk : PuzzlePubKey) (secret : Z) : list byte :=
  let bigE := E pk in
  let z := Exp secret bigE (N pk) in
  Bytes z.

Definition ValidatePuzzle (pk : PuzzlePubKey) (puzzle secret : list byte)
  : bool :=
  let bigSecret := SetBytes secret in
  if bigSecret >=? N pk then false
  else
    let check := createPuzzle pk bigSecret in
    ConstantTimeCompare check puzzle =? 1.

(** The loop of [decryptPuzzle] over [priv.Precomputed.CRTValues], from
    index [i], with the running [m]. *)
Fixpoint crt_loop (c : Z) (primes : list Z) (i : Z) (values : list CRTValue)
  (m : Z) : result Z :=
  match values with
  | [] => Ok m
  | v :: rest =>
      prime <- index primes (2 + i) ;;
      let m2 := Exp c (crtExp v) prime in
      let m2 := m2 - m in
      let m2 := m2 * Coeff v in
      let m2 := Mod m2 prime in
      let m2 := if m2 <? 0 then m2 + prime else m2 in
      let m2 := m2 * R v in
      let m := m + m2 in
      crt_loop c primes (i + 1) rest m
  end.

(** [decryptPuzzle] performs an RSA decryption, resulting in a plaintext
    integer. *)
Definition decryptPuzzle (pk : PuzzleKey) (c : Z) : result Z :=
  let priv := rsakey pk in
  let pub := PublicKey_ priv in
  if c >? N pub then Err "value too large"
  else
    let bigE := E pub in
    let rpowe := Exp (factor pk) bigE (N pub) in
    let cCopy := c in
    let cCopy := cCopy * rpowe in
    let cCopy := Mod cCopy (N pub) in
    let c := cCopy in
    m <- match Dp (Precomputed priv) with
         | None => Ok (Exp c (D priv) (N pub))
         | Some dp =>
             p0 <- index (Primes priv) 0 ;;
             let m := Exp c dp p0 in
             p1 <- index (Primes priv) 1 ;;
             let m2 := Exp c (Dq (Precomputed priv)) p1 in
             let m := m - m2 in
             let m := if m <? 0 then m + p0 else m in
             let m := m * Qinv (Precomputed priv) in
             let m := Mod m p0 in
             let m := m * p1 in
             let m := m + m2 in
             crt_loop c (Primes priv) 0 (CRTValues (Precomputed priv)) m
         end ;;
    (* Unblind. *)
    let m := m * inverse pk in
    let m := Mod m (N pub) in
    Ok m.

(** [SolvePuzzle] decrypts the puzzle [p] using the private key [pk]. *)
Definition SolvePuzzle (pk : PuzzleKey) (p : list byte) : result (list byte) :=
  m <- decryptPuzzle pk (SetBytes p) ;;
  let check := createPuzzle (PublicKey pk) m in
  if negb (ConstantTimeCompare check p =? 1)
  then Err "error in the CRT computation"
  else Ok (Bytes m).

(** [UnblindPuzzle] *)
Definition UnblindPuzzle (pk : PuzzlePubKey) (p r : list byte) : list byte :=
  let bigP := SetBytes p in
  let bigR := SetBytes r in
  let bigP := bigP * bigR in
  let bigP := Mod bigP (N pk) in
  Bytes bigP.

Definition ValidateBlindedPuzzle (pk : PuzzlePubKey)
  (blinding puzzle secret : list byte) : bool :=
  let bigSecret := SetBytes secret in
  if bigSecret >=? N pk then false
  else
    let check := UnblindPuzzle pk puzzle (createPuzzle pk bigSecret) in
    ConstantTimeCompare check blinding =? 1.

(** *** Quotient chains *)

Section WithGCD.

(** [g.GCD(x, y, a, b)] of math/big, returning [(g, x, y)].  Its
    documentation fixes [g] and the identity [g = a*x + b*y], not which
    pair of coefficients is returned. *)
Variable GCD : Z -> Z -> Z * Z * Z.

(** [modInverse] returns the inverse of [a] in the multiplicative group
    modulo [n]; [None] stands for the [(nil, false)] return. *)
Definition modInverse (a n : Z) : option Z :=
  let '(g, x, _) := GCD a n in
  if negb (g =? 1) then None
  else
    let x := if x <? 1 then x + n else x in
    Some x.

(** The loop of [Quotients] from index [i], where [prev] is
    [secrets[i-1]], [rest] is [secrets[i:]] and [quotients] holds the
    entries before [i]. *)
Fixpoint Quotients_from (pk : PuzzlePubKey) (prev : list byte)
  (rest : list (list byte)) (quotients : list (list byte))
  : result (list (list byte)) :=
  match rest with
  | [] => Ok quotients
  | cur :: rest' =>
      let a := SetBytes prev in
      let b := SetBytes cur in
      match modInverse a (N pk) with
      | None => Err "malformed secret"
      | Some ai =>
          (* q = b/a mod N = b*a^-1 mod N *)
          let q := b * ai in
          let q := Mod q (N pk) in
          Quotients_from pk cur rest' (quotients ++ [Bytes q])
      end
  end.

(** [Quotients]: [quotients[0] = bigOne.Bytes()] is a store at index 0
    of a slice of length [len(secrets)], a panic for no secrets. *)
Definition Quotients (pk : PuzzlePubKey) (secrets : list (list byte))
  : result (list (list byte)) :=
  match secrets with
  | [] => Panic "index out of range"
  | s0 :: rest => Quotients_from pk s0 rest [Bytes 1]
  end.

End WithGCD.

(** The loop of [VerifyQuotientsWithSecrets] from index [i]: [qs] is
    [qs[i:]] and [prod] the running product. *)
Fixpoint VerifyQuotientsWithSecrets_from (pk : PuzzlePubKey)
  (secrets : list (list byte)) (i : Z) (qs : list (list byte)) (prod : Z)
  : result bool :=
  match qs with
  | [] => Ok true
  | qi :: qs' =>
      let q := SetBytes qi in
      let prod := prod * q in
      let prod := Mod prod (N pk) in
      si <- index secrets i ;;
      if negb (ConstantTimeCompare si (Bytes prod) =? 1) then Ok false
      else VerifyQuotientsWithSecrets_from pk secrets (i + 1) qs' prod
  end.

Definition VerifyQuotientsWithSecrets (pk : PuzzlePubKey)
  (qs secrets : list (list byte)) : result bool :=
  s0 <- index secrets 0 ;;
  let prod := SetBytes s0 in
  VerifyQuotientsWithSecrets_from pk secrets 0 qs prod.

(** The loop of [VerifyQuotients] from index [i >= 1]: [qs] is
    [qs[i:]]. *)
Fixpoint VerifyQuotients_from (pk : PuzzlePubKey)
  (puzzles : list (list byte)) (i : Z) (qs : list (list byte))
  : result bool :=
  match qs with
  | [] => Ok true
  | qi :: qs' =>
      let bigE := E pk in
      zprev <- index puzzles (i - 1) ;;
      let z := SetBytes zprev in
      let q := SetBytes qi in
      let q := Exp q bigE (N pk) in
      let z := z * q in
      let z := Mod z (N pk) in
      zi <- index puzzles i ;;
      if negb (ConstantTimeCompare zi (Bytes z) =? 1) then Ok false
      else VerifyQuotients_from pk puzzles (i + 1) qs'
  end.

Definition VerifyQuotients (pk : PuzzlePubKey)
  (qs puzzles : list (list byte)) : result bool :=
  VerifyQuotients_from pk puzzles 1 (tl qs).

(** *** Promises: a one-time pad keyed with BLAKE2Xs *)

(** [a ^ b] on bytes. *)
Definition xor_byte (a b : byte) : byte :=
  byte_of_Z (Z.lxor (Z_of_byte a) (Z_of_byte b)).

(** [blake2s.Size] *)
Definition blake2s_Size : Z := 32.

Section WithXOF.

(** The extendable output function of golang.org/x/crypto/blake2s:
    [NewXOF(size, key)], which may refuse its arguments, [Write], and
    [Read], given here as the bytes that a read into a buffer of [n]
    bytes delivers. *)
Variable XOF : Type.
Variable NewXOF : Z -> list byte -> result XOF.
Variable xof_Write : XOF -> list byte -> XOF.
Variable xof_Read : XOF -> nat -> list byte.

(** [keystream := make([]byte, n); xof.Read(keystream)]: what the read
    delivered, in a buffer of [n] zero bytes. *)
Definition read_keystream (xof : XOF) (n : nat) : list byte :=
  let got := firstn n (xof_Read xof n) in
  got ++ repeat "000"%byte (n - List.length got).

(** [cryptWithXOF] performs OTP encryption of input data using secret
    as a key. *)
Definition cryptWithXOF (input secret : list byte) : result (list byte) :=
  if len input >? 65535 then Err "input too long"
  else
    let klen :=
      if len secret <? blake2s_Size then len secret else blake2s_Size in
    xof <- NewXOF (len input mod 2 ^ 16) (firstn (Z.to_nat klen) secret) ;;
    (* Feed the rest of the secret into the hash *)
    let xof := xof_Write xof (skipn (Z.to_nat klen) secret) in
    (* Read keystream *)
    let keystream := read_keystream xof (List.length input) in
    (* XOR input with keystream *)
    Ok (map (fun kx => xor_byte (fst kx) (snd kx)) (combine keystream input)).

Definition createPromise (data secret : list byte) : result (list byte) :=
  cryptWithXOF data secret.

Definition RevealSolution (promise secret : list byte)
  : result (list byte) :=
  cryptWithXOF promise secret.

(** [NewPuzzlePromise], given the outcome [rand_Int] of its call of
    [rand.Int(rand.Reader, pk.rsakey.N)]. *)
Definition NewPuzzlePromise (pk : PuzzleKey) (sig : list byte)
  (rand_Int : result Z) : result (list byte * list byte * list byte) :=
  match rand_Int with
  | Err e => Err ("failed to generate a puzzle secret: " ++ e)%string
  | Panic m => Panic m
  | Ok secret =>
      (* Create puzzle & promise *)
      let puzzle := createPuzzle (PublicKey pk) secret in
      match createPromise sig (Bytes secret) with
      | Err e => Err ("failed to create puzzle promise: " ++ e)%string
      | Panic m => Panic m
      | Ok promise => Ok (puzzle, promise, Bytes secret)
      end
  end.

(** [NewSolutionPromise], given the outcome [rand_Read] of its call of
    [rand.Read] on a buffer of [ripemd160.Size] bytes. *)
Definition NewSolutionPromise (pk : PuzzleKey) (p : list byte)
  (rand_Read : result (list byte))
  : result (list byte * list byte * list byte) :=
  secret <- rand_Read ;;
  match SolvePuzzle pk p with
  | Err e => Err ("failed to solve the puzzle: " ++ e)%string
  | Panic m => Panic m
  | Ok solution =>
      match createPromise solution secret with
      | Err e => Err ("failed to create solution promise: " ++ e)%string
      | Panic m => Panic m
      | Ok promise => Ok (solution, promise, secret)
      end
  end.

End WithXOF.

(** *** Blinding *)

Section Blinding.

Variable GCD : Z -> Z -> Z * Z * Z.

(** [newBlindingFactor]: the loop that draws until a nonzero number
    with an inverse comes up.  [rand_Int k] is the outcome of the
    [k]-th call of [rand.Int(rand.Reader, priv.N)] and [pos] counts the
    calls made; [None] when [fuel] draws do not end the loop. *)
Fixpoint newBlindingFactor (fuel : nat) (rand_Int : nat -> result Z)
  (pos : nat) (n : Z) : option (result (Z * Z * nat)) :=
  match fuel with
  | O => None
  | S fuel' =>
      match rand_Int pos with
      | Err e => Some (Err e)
      | Panic m => Some (Panic m)
      | Ok r =>
          if r =? 0 then newBlindingFactor fuel' rand_Int (S pos) n
          else
            match modInverse GCD r n with
            | Some ir => Some (Ok (r, ir, S pos))
            | None => newBlindingFactor fuel' rand_Int (S pos) n
            end
      end
  end.

(** [BlindPuzzle] generates a random factor and returns a product of
    the puzzle [p] and the factor as well as the multiplicative inverse
    of the factor suitable for [UnblindPuzzle]. *)
Definition BlindPuzzle (fuel : nat) (rand_Int : nat -> result Z) (pos : nat)
  (pk : PuzzlePubKey) (p : list byte)
  : option (result (list byte * list byte * list byte * nat)) :=
  match newBlindingFactor fuel rand_Int pos (N pk) with
  | None => None
  | Some (Err e) => Some (Err e)
  | Some (Panic m) => Some (Panic m)
  | Some (Ok (r, ir, pos)) =>
      let bigE := E pk in
      let rpowe := Exp r bigE (N pk) in
      let z := SetBytes p in
      let z := z * rpowe in
      let z := Mod z (N pk) in
      Some (Ok (Bytes z, Bytes r, Bytes ir, pos))
  end.

(** [GeneratePuzzleKey], given [rsa.GenerateMultiPrimeKey] as a
    function of the number of primes and the size in bits. *)
Definition GeneratePuzzleKey (fuel : nat)
  (GenerateMultiPrimeKey : Z -> Z -> result PrivateKey)
  (rand_Int : nat -> result Z) (difficulty : Z)
  : option (result PuzzleKey) :=
  let nprimes :=
    if difficulty >=? 8192 then 5
    else if difficulty >=? 4096 then 4
    else if difficulty >=? 1024 then 3
    else 2 in
  match GenerateMultiPrimeKey nprimes difficulty with
  | Err e => Some (Err e)
  | Panic m => Some (Panic m)
  | Ok key =>
      match newBlindingFactor fuel rand_Int 0 (N (PublicKey_ key)) with
      | None => None
      | Some (Err e) => Some (Err e)
      | Some (Panic m) => Some (Panic m)
      | Some (Ok (r, ir, _)) =>
          Some (Ok {| rsakey := key; factor := r; inverse := ir |})
      end
  end.

End Blinding.

End puzzle.

(** ** Package shuffle (shuffle.go) *)

Module shuffle.

(** An [io.Reader] as [Shuffle] sees it: the outcome of the k-th
    [binary.Read] of a [uint32] from it, [Some] of the value read or
    [None] when the read fails (the source drops the error, and the
    variable read into keeps its value). *)
Definition Reader : Type := nat -> option Z.

Definition read_u32 (random : Reader) (pos : nat) (v : Z) : Z * nat :=
  match random pos with
  | Some x => (u32 x, S pos)
  | None => (v, S pos)
  end.

Definition u64 (z : Z) : Z := z mod 2 ^ 64.

(** The inner [for low < thresh] loop of [uniformRandom31]; [None]
    when [fuel] reads do not end it.  Returns [prod] and the position
    of the reader. *)
Fixpoint reject_loop (fuel : nat) (random : Reader) (pos : nat)
  (v n thresh prod low : Z) : option (Z * nat) :=
  if low <? thresh then
    match fuel with
    | O => None
    | S fuel' =>
        let '(v, pos) := read_u32 random pos v in
        let prod := u64 (u64 v * u64 n) in
        let low := u32 prod in
        reject_loop fuel' random pos v n thresh prod low
    end
  else Some (prod, pos).

(** [uniformRandom31(random, n)] for an [int32] [n]; returns the value
    and the position of the reader. *)
Definition uniformRandom31 (fuel : nat) (random : Reader) (pos : nat) (n : Z)
  : option (Z * nat) :=
  let v := 0 in
  let '(v, pos) := read_u32 random pos v in
  let prod := u64 (u64 v * u64 n) in
  let low := u32 prod in
  match
    (if low <? u32 n then
       let thresh := u32 (wrap32 (- n)) mod u32 n in
       reject_loop fuel random pos v n thresh prod low
     else Some (prod, pos))
  with
  | Some (prod, pos) => Some (wrap32 (Z.shiftr prod 32), pos)
  | None => None
  end.

(** [a[i] = x] with the bounds check of the run time. *)
Definition store (a : list Z) (i x : Z) : result (list Z) :=
  if (i <? 0) || (len a <=? i) then Panic "index out of range"
  else Ok (set_nth a (Z.to_nat i) x).

Record ShuffleMap : Type := { perm : list Z }.

Section WithSwap.

(** What the [swap] callback acts on, and the callback. *)
Variable St : Type.
Variable swap : Z -> Z -> St -> St.

(** One run of the body of the Fisher-Yates loop for [i], given [j]. *)
Definition Shuffle_step (i j : Z) (st : St) (idx perm : list Z)
  : result (St * list Z * list Z) :=
  let st := swap i j st in
  (* idx[i], idx[j] = idx[j], idx[i] *)
  old_j <- index idx j ;;
  old_i <- index idx i ;;
  idx <- store idx i old_j ;;
  idx <- store idx j old_i ;;
  (* perm[idx[i]] = i *)
  idx_i <- index idx i ;;
  perm <- store perm idx_i i ;;
  Ok (st, idx, perm).

(** The loop [for i := n - 1; i > 0; i--], with [k] the current [i].
    [None] when some call of [uniformRandom31] does not return within
    [fuel] reads. *)
Fixpoint Shuffle_loop (fuel : nat) (random : Reader) (k : nat) (pos : nat)
  (st : St) (idx perm : list Z) : option (result (St * list Z * nat)) :=
  match k with
  | O => Some (Ok (st, perm, pos))
  | S k' =>
      let i := Z.of_nat k in
      match uniformRandom31 fuel random pos (wrap32 (i + 1)) with
      | None => None
      | Some (j, pos) =>
          match Shuffle_step i j st idx perm with
          | Ok (st, idx, perm) => Shuffle_loop fuel random k' pos st idx perm
          | Err e => Some (Err e)
          | Panic p => Some (Panic p)
          end
      end
  end.

(** [Shuffle(random, n, swap)]: the permutation map, what [swap] acted
    on, and the number of reads made. *)
Definition Shuffle (fuel : nat) (random : Reader) (n : Z) (st : St)
  : option (result (ShuffleMap * St * nat)) :=
  if (n <? 0) || (n >? 2 ^ 31 - 1 - 1)
  then Some (Panic "invalid argument to Shuffle")
  else
    let idx := map Z.of_nat (seq 0 (Z.to_nat n)) in
    let perm := repeat 0 (Z.to_nat n) in
    match Shuffle_loop fuel random (Z.to_nat (n - 1)) 0 st idx perm with
    | None => None
    | Some r =>
        Some (match r with
              | Ok (st, perm, pos) => Ok ({| perm := perm |}, st, pos)
              | Err e => Err e
              | Panic p => Panic p
              end)
    end.

End WithSwap.

Definition Get (s : ShuffleMap) (i : Z) : result Z := index (perm s) i.

(** The callback of the package's tests, [a[i], a[j] = a[j], a[i]], on
    an array on which both indexes are in range. *)
Definition swap_elems (i j : Z) (a : list Z) : list Z :=
  let ai := nth (Z.to_nat i) a 0 in
  let aj := nth (Z.to_nat j) a 0 in
  set_nth (set_nth a (Z.to_nat i) aj) (Z.to_nat j) ai.

(** The callback of the client, [a[i], a[j] = a[j], a[i]] on a slice
    of any element type (the puzzles, the transaction hashes), on
    which both indexes are in range. *)
Definition swap_at {A} (i j : Z) (a : list A) : list A :=
  match nth_error a (Z.to_nat i), nth_error a (Z.to_nat j) with
  | Some ai, Some aj => set_nth (set_nth a (Z.to_nat i) aj) (Z.to_nat j) ai
  | _, _ => a
  end.

End shuffle.

(** ** Package contract, as far as the session handlers use it *)

Module contract.

(** [contractValue = dcrutil.AtomsPerCoin] *)
Definition contractValue : Z := 100000000.

Inductive addressRole : Type :=
| ReceiverAddress | RedeemAddress | RefundAddress | SenderAddress.

(** The fields of [Contract] that the handlers read or write. *)
Record Contract : Type := {
  SenderAddr : string;
  SenderAddrStr : string;
  ReceiverAddrStr : string;
  EscrowBytes : list byte;
  EscrowScript : list byte;
  EscrowHash : list byte;
  Amount : Z;
  LockTime : Z
}.

Definition New (amount lockTime : Z) : result Contract :=
  if negb (amount =? contractValue)
  then Err ("attempted contract amount: " ++ itoa amount)%string
  else Ok {| SenderAddr := ""; SenderAddrStr := ""; ReceiverAddrStr := "";
             EscrowBytes := []; EscrowScript := []; EscrowHash := [];
             Amount := contractValue; LockTime := lockTime |}.

Definition set_EscrowScript (c : Contract) (script : list byte) : Contract :=
  {| SenderAddr := SenderAddr c; SenderAddrStr := SenderAddrStr c;
     ReceiverAddrStr := ReceiverAddrStr c; EscrowBytes := EscrowBytes c;
     EscrowScript := script; EscrowHash := EscrowHash c;
     Amount := Amount c; LockTime := LockTime c |}.

End contract.

(** ** Package tumbler *)

Module tumbler.

Import puzzle.

(** *** constants.go *)

Definition EpochDuration : Z := 10.

(** [ConfirmationInterval = 5 * time.Minute], in nanoseconds. *)
Definition ConfirmationInterval : Z := 5 * 60 * 1000000000.

(** *** States and reasons (the session file) *)

Definition StateInitial : Z := 0.
Definition StateEscrowComplete : Z := 1.
Definition StatePuzzlesPromised : Z := 2.
Definition StatePuzzlesValidated : Z := 3.
Definition StateEscrowPublished : Z := 4.
Definition MaxPayeeState : Z := 5.
Definition StateSolutionsPromised : Z := 6.
Definition StateSolutionsValidated : Z := 7.
Definition StateOfferReceived : Z := 8.
Definition StateSolutionPublished : Z := 9.
Definition MaxPayerState : Z := 10.

Definition stateNames : list string :=
  [ "InitialState"; "EscrowComplete"; "PuzzlesPromised"; "PuzzlesValidated";
    "EscrowPublished"; "MaxPayeeState"; "SolutionsPromised";
    "SolutionsValidated"; "OfferReceived"; "SolutionPublished";
    "MaxPayerState" ]%string.

Definition ReasonSuccess : Z := 0.
Definition ReasonSessionExpired : Z := 1.
Definition ReasonFailedExchange : Z := 2.
Definition ReasonInternalError : Z := 3.

Definition reasonNames : list string :=
  [ "exchange was completed"; "expiration timeout"; "exchange error";
    "internal error" ]%string.

(** [Session.ready], on the [state] field: [Ok tt] for [(true, nil)] and
    [Err] for [(false, err)].  The messages index [stateNames], a panic
    for a value that is not a named state. *)
Definition ready (state next : Z) : result unit :=
  let not_ready :=
    n <- index stateNames next ;;
    c <- index stateNames state ;;
    Err ("not ready to advance to " ++ n ++ " from " ++ c)%string in
  if state =? StateInitial then
    if (next =? StateEscrowComplete) || (next =? StateSolutionsPromised)
    then Ok tt
    else not_ready
  else if (state =? StateEscrowPublished) || (state =? StateSolutionPublished)
  then
    n <- index stateNames next ;;
    Err ("cannot advance past the final stage: requested " ++ n)%string
  else
    if next =? state + 1 then Ok tt else not_ready.

(** *** Data *)

Definition Cookie : Type := list byte.

Record Epoch : Type := {
  Address : string;
  Pubkey : string;
  BlockHeight : Z;
  puzzleKey : PuzzleKey
}.

Record PaymentOfferT : Type := {
  po_Amount : Z;
  po_PublicKey : string;
  po_EscrowHash : list byte;
  po_EscrowScript : list byte;
  po_EscrowTx : list byte;
  po_Puzzle : list byte;
  po_RealPuzzleList : list byte;
  po_RealFactors : list (list byte)
}.

(** An entry of the list of deferred actions.  The one callback the
    package registers is the continuation [validateOffer] with the
    offer as its argument. *)
Record deferredAction : Type := {
  da_session : Cookie;
  da_argument : PaymentOfferT;
  da_until : Z
}.

(** [Tumbler].  [epochs] is a slice of pointers: [None] is a nil entry.
    [sessions] lists the keys of the cookie map, [pending] the sessions
    of the expire list.  [disconnects] is not a field of the source: it
    records on which sessions [Disconnect] ran, in order. *)
Record Tumbler : Type := {
  lastEpoch : Z;
  epochs : list (option Epoch);
  sessions : list Cookie;
  actions : list deferredAction;
  pending : list Cookie;
  epochDuration : Z;
  puzzleDifficulty : Z;
  disconnects : list Cookie
}.

Record Session : Type := {
  finsema : Z;
  cookie : Cookie;
  explist : bool;
  deadline : Z;
  address : string;
  epoch : Z;
  contract : option contract.Contract;
  state : Z;
  err : option string;
  puzzles : list (list byte);
  secrets : list (list byte);
  solutions : list (list byte);
  txHashes : list (list byte);
  realSetHash : list byte;
  fakeSetHash : list byte;
  realPuzzleList : list Z
}.

Definition set_finsema (v : Z) (s : Session) : Session :=
  {| finsema := v; cookie := cookie s; explist := explist s;
     deadline := deadline s; address := address s; epoch := epoch s;
     contract := contract s; state := state s; err := err s;
     puzzles := puzzles s; secrets := secrets s; solutions := solutions s;
     txHashes := txHashes s; realSetHash := realSetHash s;
     fakeSetHash := fakeSetHash s; realPuzzleList := realPuzzleList s |}.

Definition set_explist (v : bool) (s : Session) : Session :=
  {| finsema := finsema s; cookie := cookie s; explist := v;
     deadline := deadline s; address := address s; epoch := epoch s;
     contract := contract s; state := state s; err := err s;
     puzzles := puzzles s; secrets := secrets s; solutions := solutions s;
     txHashes := txHashes s; realSetHash := realSetHash s;
     fakeSetHash := fakeSetHash s; realPuzzleList := realPuzzleList s |}.

Definition set_deadline (v : Z) (s : Session) : Session :=
  {| finsema := finsema s; cookie := cookie s; explist := explist s;
     deadline := v; address := address s; epoch := epoch s;
     contract := contract s; state := state s; err := err s;
     puzzles := puzzles s; secrets := secrets s; solutions := solutions s;
     txHashes := txHashes s; realSetHash := realSetHash s;
     fakeSetHash := fakeSetHash s; realPuzzleList := realPuzzleList s |}.

Definition set_epoch (v : Z) (s : Session) : Session :=
  {| finsema := finsema s; cookie := cookie s; explist := explist s;
     deadline := deadline s; address := address s; epoch := v;
     contract := contract s; state := state s; err := err s;
     puzzles := puzzles s; secrets := secrets s; solutions := solutions s;
     txHashes := txHashes s; realSetHash := realSetHash s;
     fakeSetHash := fakeSetHash s; realPuzzleList := realPuzzleList s |}.

Definition set_contract (v : option contract.Contract) (s : Session)
  : Session :=
  {| finsema := finsema s; cookie := cookie s; explist := explist s;
     deadline := deadline s; address := address s; epoch := epoch s;
     contract := v; state := state s; err := err s;
     puzzles := puzzles s; secrets := secrets s; solutions := solutions s;
     txHashes := txHashes s; realSetHash := realSetHash s;
     fakeSetHash := fakeSetHash s; realPuzzleList := realPuzzleList s |}.

Definition set_state (v : Z) (s : Session) : Session :=
  {| finsema := finsema s; cookie := cookie s; explist := explist s;
     deadline := deadline s; address := address s; epoch := epoch s;
     contract := contract s; state := v; err := err s;
     puzzles := puzzles s; secrets := secrets s; solutions := solutions s;
     txHashes := txHashes s; realSetHash := realSetHash s;
     fakeSetHash := fakeSetHash s; realPuzzleList := realPuzzleList s |}.

Definition set_err (v : option string) (s : Session) : Session :=
  {| finsema := finsema s; cookie := cookie s; explist := explist s;
     deadline := deadline s; address := address s; epoch := epoch s;
     contract := contract s; state := state s; err := v;
     puzzles := puzzles s; secrets := secrets s; solutions := solutions s;
     txHashes := txHashes s; realSetHash := realSetHash s;
     fakeSetHash := fakeSetHash s; realPuzzleList := realPuzzleList s |}.

Definition set_puzzles (v : list (list byte)) (s : Session) : Session :=
  {| finsema := finsema s; cookie := cookie s; explist := explist s;
     deadline := deadline s; address := address s; epoch := epoch s;
     contract := contract s; state := state s; err := err s;
     puzzles := v; secrets := secrets s; solutions := solutions s;
     txHashes := txHashes s; realSetHash := realSetHash s;
     fakeSetHash := fakeSetHash s; realPuzzleList := realPuzzleList s |}.

Definition set_secrets (v : list (list byte)) (s : Session) : Session :=
  {| finsema := finsema s; cookie := cookie s; explist := explist s;
     deadline := deadline s; address := address s; epoch := epoch s;
     contract := contract s; state := state s; err := err s;
     puzzles := puzzles s; secrets := v; solutions := solutions s;
     txHashes := txHashes s; realSetHash := realSetHash s;
     fakeSetHash := fakeSetHash s; realPuzzleList := realPuzzleList s |}.

Definition set_solutions (v : list (list byte)) (s : Session) : Session :=
  {| finsema := finsema s; cookie := cookie s; explist := explist s;
     deadline := deadline s; address := address s; epoch := epoch s;
     contract := contract s; state := state s; err := err s;
     puzzles := puzzles s; secrets := secrets s; solutions := v;
     txHashes := txHashes s; realSetHash := realSetHash s;
     fakeSetHash := fakeSetHash s; realPuzzleList := realPuzzleList s |}.

Definition set_txHashes (v : list (list byte)) (s : Session) : Session :=
  {| finsema := finsema s; cookie := cookie s; explist := explist s;
     deadline := deadline s; address := address s; epoch := epoch s;
     contract := contract s; state := state s; err := err s;
     puzzles := puzzles s; secrets := secrets s; solutions := solutions s;
     txHashes := v; realSetHash := realSetHash s;
     fakeSetHash := fakeSetHash s; realPuzzleList := realPuzzleList s |}.

Definition set_realSetHash (v : list byte) (s : Session) : Session :=
  {| finsema := finsema s; cookie := cookie s; explist := explist s;
     deadline := deadline s; address := address s; epoch := epoch s;
     contract := contract s; state := state s; err := err s;
     puzzles := puzzles s; secrets := secrets s; solutions := solutions s;
     txHashes := txHashes s; realSetHash := v;
     fakeSetHash := fakeSetHash s; realPuzzleList := realPuzzleList s |}.

Definition set_fakeSetHash (v : list byte) (s : Session) : Session :=
  {| finsema := finsema s; cookie := cookie s; explist := explist s;
     deadline := deadline s; address := address s; epoch := epoch s;
     contract := contract s; state := state s; err := err s;
     puzzles := puzzles s; secrets := secrets s; solutions := solutions s;
     txHashes := txHashes s; realSetHash := realSetHash s;
     fakeSetHash := v; realPuzzleList := realPuzzleList s |}.

Definition set_realPuzzleList (v : list Z) (s : Session) : Session :=
  {| finsema := finsema s; cookie := cookie s; explist := explist s;
     deadline := deadline s; address := address s; epoch := epoch s;
     contract := contract s; state := state s; err := err s;
     puzzles := puzzles s; secrets := secrets s; solutions := solutions s;
     txHashes := txHashes s; realSetHash := realSetHash s;
     fakeSetHash := fakeSetHash s; realPuzzleList := v |}.

Definition set_epochs_lastEpoch (es : list (option Epoch)) (h : Z)
  (tb : Tumbler) : Tumbler :=
  {| lastEpoch := h; epochs := es; sessions := sessions tb;
     actions := actions tb; pending := pending tb;
     epochDuration := epochDuration tb;
     puzzleDifficulty := puzzleDifficulty tb;
     disconnects := disconnects tb |}.

Definition set_epochs (es : list (option Epoch)) (tb : Tumbler) : Tumbler :=
  set_epochs_lastEpoch es (lastEpoch tb) tb.

Definition set_actions (a : list deferredAction) (tb : Tumbler) : Tumbler :=
  {| lastEpoch := lastEpoch tb; epochs := epochs tb; sessions := sessions tb;
     actions := a; pending := pending tb;
     epochDuration := epochDuration tb;
     puzzleDifficulty := puzzleDifficulty tb;
     disconnects := disconnects tb |}.

(** *** The epoch manager (tumbler.go) *)

Definition nil_deref : string :=
  "invalid memory address or nil pointer dereference".

(** [tb.epochs[len(tb.epochs)-1].BlockHeight >= blockHeight], guarded by
    [len(tb.epochs) > 0]. *)
Definition latest_not_older (tb : Tumbler) (blockHeight : Z) : result bool :=
  if len (epochs tb) >? 0 then
    last <- index (epochs tb) (len (epochs tb) - 1) ;;
    match last with
    | None => Panic nil_deref
    | Some e => Ok (BlockHeight e >=? blockHeight)
    end
  else Ok false.

(** The loop that expires old epochs: the entries of the expired ones
    are set to nil and counted in [n]. *)
Fixpoint expire_loop (duration blockHeight : Z) (es : list (option Epoch))
  (n : Z) : result (list (option Epoch) * Z) :=
  match es with
  | [] => Ok ([], n)
  | None :: _ => Panic nil_deref
  | Some e :: rest =>
      if wrap32 (BlockHeight e + duration) <? blockHeight then
        '(rest', n') <- expire_loop duration blockHeight rest (n + 1) ;;
        Ok (None :: rest', n')
      else
        '(rest', n') <- expire_loop duration blockHeight rest n ;;
        Ok (Some e :: rest', n')
  end.

(** [Tumbler.NewEpoch], given the outcome [keygen] of its call of
    [puzzle.GeneratePuzzleKey(tb.puzzleDifficulty)]. *)
Definition NewEpoch (tb : Tumbler) (blockHeight : Z)
  (keygen : result PuzzleKey) : result unit * Tumbler :=
  match latest_not_older tb blockHeight with
  | Panic p => (Panic p, tb)
  | Err e => (Err e, tb)
  | Ok true => (Err ("bad block height: " ++ itoa blockHeight)%string, tb)
  | Ok false =>
      match keygen with
      | Panic p => (Panic p, tb)
      | Err e => (Err e, tb)
      | Ok pk =>
          let e := {| Address := ""; Pubkey := ""; BlockHeight := blockHeight;
                      puzzleKey := pk |} in
          match expire_loop (epochDuration tb) blockHeight (epochs tb) 0 with
          | Panic p => (Panic p, tb)
          | Err msg => (Err msg, tb)
          | Ok (es, n) =>
              let es := skipn (Z.to_nat n) es in
              let es := es ++ [Some e] in
              (Ok tt, set_epochs_lastEpoch es blockHeight tb)
          end
      end
  end.

Definition getCurrentEpoch (tb : Tumbler) : result Z :=
  let epoch := lastEpoch tb in
  if negb (epoch =? 0) then Ok epoch else Err "no current epoch".

Definition ErrEpochNotFound : string := "no such epoch".

Fixpoint getPuzzleKey_loop (es : list (option Epoch)) (blockHeight : Z)
  : result PuzzleKey :=
  match es with
  | [] => Err ErrEpochNotFound
  | None :: _ => Panic nil_deref
  | Some e :: rest =>
      if BlockHeight e =? blockHeight then Ok (puzzleKey e)
      else getPuzzleKey_loop rest blockHeight
  end.

Definition getPuzzleKey (tb : Tumbler) (blockHeight : Z) : result PuzzleKey :=
  getPuzzleKey_loop (epochs tb) blockHeight.

(** [Tumbler.Disconnect], on the session with this cookie.  The second
    component tells whether the session's [explist] link was set. *)
Definition cookie_eqb (a b : Cookie) : bool := bytes_eqb a b.

Definition removeDeferredActions (tb : Tumbler) (c : Cookie) : Tumbler :=
  set_actions
    (filter (fun a => negb (cookie_eqb (da_session a) c)) (actions tb)) tb.

Fixpoint remove_first (c : Cookie) (l : list Cookie) : list Cookie :=
  match l with
  | [] => []
  | x :: rest => if cookie_eqb x c then rest else x :: remove_first c rest
  end.

Definition Disconnect (tb : Tumbler) (s : Session) : Tumbler * Session :=
  let tb1 := removeDeferredActions tb (cookie s) in
  let tb2 :=
    {| lastEpoch := lastEpoch tb1; epochs := epochs tb1;
       sessions :=
         filter (fun k => negb (cookie_eqb k (cookie s))) (sessions tb1);
       actions := actions tb1;
       pending := if explist s then remove_first (cookie s) (pending tb1)
                  else pending tb1;
       epochDuration := epochDuration tb1;
       puzzleDifficulty := puzzleDifficulty tb1;
       disconnects := disconnects tb1 ++ [cookie s] |} in
  (tb2, if explist s then set_explist false s else s).

Definition DeferAction (tb : Tumbler) (s : Session) (arg : PaymentOfferT)
  (u : Z) : Tumbler :=
  set_actions
    (actions tb ++ [{| da_session := cookie s; da_argument := arg;
                       da_until := u |}]) tb.

(** *** Finalization (the session file) *)

(** [Session.String], without the cookie and the expiry time it
    prints. *)
Definition String (s : Session) : result string :=
  if Z.of_nat (String.length (address s)) =? 0 then Ok "not initialized"%string
  else
    n <- index stateNames (state s) ;;
    Ok (address s ++ " state " ++ n)%string.

(** [Session.FinalizeExchange]: the outcome, the session and the
    tumbler afterwards, and the line logged, if any. *)
Definition FinalizeExchange (s : Session) (tb : Tumbler) (reason : Z)
  (details : option string)
  : result unit * Session * Tumbler * option string :=
  if (reason =? ReasonSuccess) &&
     (negb (state s =? StateEscrowPublished) &&
      negb (state s =? StateSolutionPublished))
  then (Panic "no reason for success", s, tb, None)
  else
    (* atomic.CompareAndSwapInt32(&s.finsema, 0, 1) *)
    if negb (finsema s =? 0) then (Ok tt, s, tb, None)
    else
      let s := set_finsema 1 s in
      let '(tb, s) := Disconnect tb s in
      let message :=
        str <- String s ;;
        let message := ("Finalizing exchange for " ++ str)%string in
        message <-
          (if negb (reason =? ReasonSuccess) then
             r <- index reasonNames reason ;;
             Ok (message ++ " due to " ++ r)%string
           else Ok message) ;;
        let message :=
          match details with
          | Some d => (message ++ ": " ++ d)%string
          | None => message
          end in
        let message :=
          match err s with
          | Some e => (message ++ ": " ++ e)%string
          | None => message
          end in
        Ok message in
      match message with
      | Ok m => (Ok tt, s, tb, Some m)
      | Err e => (Err e, s, tb, None)
      | Panic p => (Panic p, s, tb, None)
      end.

(** *** The protocol handlers *)

Record EscrowRequest : Type := {
  er_Address : string;
  er_PublicKey : string;
  er_Amount : Z
}.

Record EscrowOffer : Type := {
  eo_Epoch : Z;
  eo_LockTime : Z;
  eo_Address : string;
  eo_PublicKey : string;
  eo_EscrowScript : list byte;
  eo_EscrowTx : list byte
}.

Record SignatureChallenges : Type := {
  FakeSetHash : list byte;
  RealSetHash : list byte;
  TransactionHashes : list (list byte);
  Signatures : list (list byte);
  sc_PublicKey : list byte
}.

Record SignaturePromises : Type := {
  sp_PublicKey : list byte;
  sp_PuzzleKey : list byte;
  sp_Puzzles : list (list byte);
  sp_Promises : list (list byte)
}.

Record TransactionDisclosure : Type := {
  FakeTxList : list byte;
  RealTxList : list byte;
  RandomPads : list (list byte);
  Salt : list byte
}.

Record TransactionSecrets : Type := {
  ts_Secrets : list (list byte);
  ts_Quotients : list (list byte)
}.

Record SolutionChallenges : Type := {
  sc_Epoch : Z;
  sc_Puzzles : list (list byte)
}.

Record SolutionPromises : Type := {
  Promises : list (list byte);
  KeyHashes : list (list byte)
}.

Record PuzzleDisclosure : Type := {
  FakePuzzleList : list byte;
  FakeFactors : list (list byte)
}.

Record SolutionSecrets : Type := { ss_Secrets : list (list byte) }.

Section WithCollaborators.

Import contract.

(** The state of what the handlers call and this package does not
    define: the wallet and the chain behind it, the random source and
    the clock. *)
Variable World : Type.

(** A wallet call on the session's contract pointer ([None] when nil):
    its outcome, the contract afterwards, and the world afterwards. *)
Definition WalletOp (A : Type) : Type :=
  World -> option Contract -> result A * option Contract * World.

Variable wallet_CreateEscrow : WalletOp unit.
Variable wallet_PublishEscrow : WalletOp unit.
Variable wallet_ImportEscrowScript : WalletOp unit.
Variable wallet_ValidateOffer : list byte -> WalletOp bool.
Variable wallet_PublishSolution : list (list byte) -> WalletOp unit.
Variable wallet_GetExtAddress : World -> result (string * string) * World.

(** [Contract.SetAddress], which decodes through dcrutil. *)
Variable SetAddress :
  addressRole -> string -> string -> Contract -> result Contract.

(** Of package puzzle: the calls that draw random numbers, the x509
    encoding of the key, and the two hash functions. *)
Variable NewPuzzlePromise :
  World -> PuzzleKey -> list byte ->
  result (list byte * list byte * list byte) * World.
Variable NewSolutionPromise :
  World -> PuzzleKey -> list byte ->
  result (list byte * list byte * list byte) * World.
Variable MarshalPubKey : PuzzleKey -> result (list byte).
Variable blake2s_256 : list byte -> list byte -> result (list byte).
Variable HashB : list byte -> list byte.
Variable GCD : Z -> Z -> Z * Z * Z.

(** [time.Now()], in nanoseconds. *)
Variable Now : World -> Z.

Definition HashIndexList (salt : list byte) (indexList : list Z)
  : result (list byte) :=
  buf <- puzzle_list.EncodeIndexList indexList ;;
  blake2s_256 salt buf.

Definition FakeTxFormat (randomPad : list byte) : list byte :=
  let fakeTx :=
    ["f"; "a"; "k"; "e"; "f"; "a"; "k"; "e"; "f"; "a"; "k"; "e"]%byte in
  HashB (fakeTx ++ randomPad).

(** What a handler runs on: its session, the tumbler, the world. *)
Record Sys : Type := { sess : Session; tum : Tumbler; wld : World }.

Definition M (A : Type) : Type := Sys -> result A * Sys.

Definition ret {A} (a : A) : M A := fun st => (Ok a, st).

Definition mbind {A B} (m : M A) (k : A -> M B) : M B :=
  fun st =>
    match m st with
    | (Ok a, st') => k a st'
    | (Err e, st') => (Err e, st')
    | (Panic p, st') => (Panic p, st')
    end.

Notation "x <~ m ;; k" := (mbind m (fun x => k))
  (at level 61, m at next level, right associativity).
Notation "' pat <~ m ;; k" :=
  (mbind m (fun x => match x with pat => k end))
  (at level 61, pat pattern, m at next level, right associativity).

Definition lift {A} (r : result A) : M A := fun st => (r, st).

Definition fail {A} (e : string) : M A := lift (Err e).

(** [fmt.Errorf(prefix + "%v", err)] on the error of [r]. *)
Definition wrap {A} (prefix : string) (r : result A) : result A :=
  match r with
  | Err e => Err (prefix ++ e)%string
  | _ => r
  end.

(** [fmt.Errorf(prefix + "%v", err)] on the error of a call. *)
Definition mwrap {A} (prefix : string) (m : M A) : M A :=
  fun st => let '(r, st') := m st in (wrap prefix r, st').

(** [time.Now()] *)
Definition clock : M Z := fun st => (Ok (Now (wld st)), st).

Definition getS : M Session := fun st => (Ok (sess st), st).
Definition getT : M Tumbler := fun st => (Ok (tum st), st).

Definition modS (f : Session -> Session) : M unit :=
  fun st => (Ok tt, {| sess := f (sess st); tum := tum st; wld := wld st |}).

Definition putT (tb : Tumbler) : M unit :=
  fun st => (Ok tt, {| sess := sess st; tum := tb; wld := wld st |}).

(** A wallet call on [s.contract]. *)
Definition wallet {A} (op : WalletOp A) : M A :=
  fun st =>
    let '(r, c, w) := op (wld st) (contract (sess st)) in
    (r, {| sess := set_contract c (sess st); tum := tum st; wld := w |}).

Definition world {A} (f : World -> result A * World) : M A :=
  fun st =>
    let '(r, w) := f (wld st) in
    (r, {| sess := sess st; tum := tum st; wld := w |}).

(** [s.contract.SetAddress(t, a, pk)] *)
Definition contract_SetAddress (t : addressRole) (a pk : string) : M unit :=
  s <~ getS ;;
  match contract s with
  | None => lift (Panic nil_deref)
  | Some c =>
      c' <~ lift (SetAddress t a pk c) ;;
      modS (set_contract (Some c'))
  end.

(** [s.FinalizeExchange(ctx, reason, details)] from a handler. *)
Definition finalize (reason : Z) (details : option string) : M unit :=
  fun st =>
    let '(r, s, tb, _) := FinalizeExchange (sess st) (tum st) reason details in
    (r, {| sess := s; tum := tb; wld := wld st |}).

(** **** SetupEscrow *)

Definition SetupEscrow (er : EscrowRequest) : M EscrowOffer :=
  s <~ getS ;;
  _ <~ lift (ready (state s) StateEscrowComplete) ;;
  tb <~ getT ;;
  epoch <~ lift (getCurrentEpoch tb) ;;
  match contract.New (er_Amount er) (wrap32 (epoch + epochDuration tb)) with
  | Err e => _ <~ modS (set_contract None) ;; fail e
  | Panic p => lift (Panic p)
  | Ok c =>
      _ <~ modS (set_contract (Some c)) ;;
      _ <~ contract_SetAddress ReceiverAddress (er_Address er)
             (er_PublicKey er) ;;
      _ <~ wallet wallet_CreateEscrow ;;
      _ <~ modS (set_epoch epoch) ;;
      _ <~ modS (set_state StateEscrowComplete) ;;
      s <~ getS ;;
      match contract s with
      | None => lift (Panic nil_deref)
      | Some c =>
          ret {| eo_Epoch := epoch;
                 eo_LockTime := wrap32 (epoch + epochDuration tb);
                 eo_Address := SenderAddrStr c;
                 eo_PublicKey := SenderAddr c;
                 eo_EscrowScript := EscrowScript c;
                 eo_EscrowTx := EscrowBytes c |}
      end
  end.

(** **** GetPuzzlePromises *)

Fixpoint puzzle_promises (pk : PuzzleKey) (sigs : list (list byte))
  : M (list (list byte) * list (list byte) * list (list byte)) :=
  match sigs with
  | [] => ret ([], [], [])
  | sig :: rest =>
      '(puzzle, promise, secret) <~
        world (fun w => NewPuzzlePromise w pk sig) ;;
      '(puzzles, promises, secrets) <~ puzzle_promises pk rest ;;
      ret (puzzle :: puzzles, promise :: promises, secret :: secrets)
  end.

Definition GetPuzzlePromises (cp : SignatureChallenges)
  : M SignaturePromises :=
  s <~ getS ;;
  _ <~ lift (ready (state s) StatePuzzlesPromised) ;;
  tb <~ getT ;;
  pk <~ lift (getPuzzleKey tb (epoch s)) ;;
  key <~ lift (MarshalPubKey pk) ;;
  '(puzzles, promises, secrets) <~ puzzle_promises pk (Signatures cp) ;;
  _ <~ modS (set_secrets secrets) ;;
  _ <~ modS (set_realSetHash (RealSetHash cp)) ;;
  _ <~ modS (set_fakeSetHash (FakeSetHash cp)) ;;
  _ <~ modS (set_txHashes (TransactionHashes cp)) ;;
  _ <~ modS (set_state StatePuzzlesPromised) ;;
  ret {| sp_PublicKey := sc_PublicKey cp; sp_PuzzleKey := key;
         sp_Puzzles := puzzles; sp_Promises := promises |}.

(** **** ValidatePuzzles *)

(** Verify structure of fake transactions: the loop over [fakeTxList]
    from position [i]. *)
Fixpoint verify_fake_txs (s : Session) (cd : TransactionDisclosure) (i : Z)
  (fakeTxList : list Z) : result unit :=
  match fakeTxList with
  | [] => Ok tt
  | idx :: rest =>
      if idx >? len (txHashes s) then Err "bad tx reference"
      else
        pad <- index (RandomPads cd) i ;;
        if negb (len pad =? 32) then Err "bad input values"
        else
          let fkh := FakeTxFormat pad in
          h <- index (txHashes s) idx ;;
          if negb (bytes_eqb fkh h) then Err "fake tx didn't verify"
          else verify_fake_txs s cd (i + 1) rest
  end.

(** Reveal secrets for the fake set. *)
Fixpoint reveal_fake_secrets (s : Session) (fakeTxList : list Z)
  : result (list (list byte)) :=
  match fakeTxList with
  | [] => Ok []
  | idx :: rest =>
      x <- index (secrets s) idx ;;
      xs <- reveal_fake_secrets s rest ;;
      Ok (x :: xs)
  end.

(** The loop that collects [s.secrets[idx]] behind the check
    [idx > len(s.secrets)], with the message of its error. *)
Fixpoint collect_secrets (msg : string) (s : Session) (l : list Z)
  : result (list (list byte)) :=
  match l with
  | [] => Ok []
  | idx :: rest =>
      if idx >? len (secrets s) then Err msg
      else
        x <- index (secrets s) idx ;;
        xs <- collect_secrets msg s rest ;;
        Ok (x :: xs)
  end.

Definition ValidatePuzzles (cd : TransactionDisclosure)
  : M TransactionSecrets :=
  s <~ getS ;;
  _ <~ lift (ready (state s) StatePuzzlesValidated) ;;
  fakeTxList <~ lift (wrap "failed to decode fake tx index list: "
                        (puzzle_list.DecodeIndexList (FakeTxList cd))) ;;
  realTxList <~ lift (wrap "failed to decode real tx index list: "
                        (puzzle_list.DecodeIndexList (RealTxList cd))) ;;
  if (len fakeTxList >? len (txHashes s)) ||
     (len realTxList >? len (txHashes s)) ||
     (len (RandomPads cd) >? len (txHashes s)) ||
     (len fakeTxList >? len (RandomPads cd)) ||
     negb (len (Salt cd) =? 32)
  then fail "bad input values"
  else
    tb <~ getT ;;
    pk <~ lift (wrap ("failed to obtain a puzzle key for epoch " ++
                      itoa (epoch s) ++ ": ")
                  (getPuzzleKey tb (epoch s))) ;;
    (* Verify hash of the fake set *)
    fakeSetHash <~ lift (wrap "failed to hash the fake tx list: "
                           (HashIndexList (Salt cd) fakeTxList)) ;;
    if negb (bytes_eqb fakeSetHash (tumbler.fakeSetHash s))
    then fail "fake set didn't verify"
    else
      _ <~ lift (verify_fake_txs s cd 0 fakeTxList) ;;
      (* Verify hash of the real set *)
      realSetHash <~ lift (wrap "failed to hash the real tx list: "
                             (HashIndexList (Salt cd) realTxList)) ;;
      if negb (bytes_eqb realSetHash (tumbler.realSetHash s))
      then fail "real set didn't verify"
      else
        fakeSecrets <~ lift (reveal_fake_secrets s fakeTxList) ;;
        (* Prepare quotients to verify puzzles for the real set *)
        realSecrets <~ lift (collect_secrets "bad tx reference" s
                               realTxList) ;;
        quotients <~ lift (wrap "failed to generate quotients: "
                             (Quotients GCD (PublicKey pk) realSecrets)) ;;
        (* Garbage-collect cached puzzles, tx hashes, ets. *)
        _ <~ modS (set_puzzles []) ;;
        _ <~ modS (set_txHashes []) ;;
        _ <~ modS (set_realSetHash []) ;;
        _ <~ modS (set_fakeSetHash []) ;;
        _ <~ modS (set_state StatePuzzlesValidated) ;;
        ret {| ts_Secrets := fakeSecrets; ts_Quotients := quotients |}.

(** **** FinalizeEscrow *)

Definition FinalizeEscrow : M (list byte) :=
  s <~ getS ;;
  _ <~ lift (ready (state s) StateEscrowPublished) ;;
  _ <~ mwrap "failed to publish escrow tx :" (wallet wallet_PublishEscrow) ;;
  _ <~ modS (set_state StateEscrowPublished) ;;
  s <~ getS ;;
  match contract s with
  | None => lift (Panic nil_deref)
  | Some c =>
      (* the deferred s.FinalizeExchange(ctx, ReasonSuccess, nil) *)
      _ <~ finalize ReasonSuccess None ;;
      ret (EscrowHash c)
  end.

(** **** GetSolutionPromises *)

Fixpoint solution_promises (pk : PuzzleKey) (ps : list (list byte))
  : M (list (list byte) * list (list byte) * list (list byte)) :=
  match ps with
  | [] => ret ([], [], [])
  | p :: rest =>
      '(solution, promise, secret) <~
        world (fun w => NewSolutionPromise w pk p) ;;
      '(solutions, promises, secrets) <~ solution_promises pk rest ;;
      ret (solution :: solutions, promise :: promises, secret :: secrets)
  end.

Definition GetSolutionPromises (sc : SolutionChallenges)
  : M SolutionPromises :=
  s <~ getS ;;
  _ <~ lift (ready (state s) StateSolutionsPromised) ;;
  tb <~ getT ;;
  pk <~ lift (getPuzzleKey tb (sc_Epoch sc)) ;;
  '(solutions, promises, secrets) <~ solution_promises pk (sc_Puzzles sc) ;;
  (* Make a record of submitted puzzles and the locktime. *)
  _ <~ modS (set_puzzles (sc_Puzzles sc)) ;;
  _ <~ modS (set_solutions solutions) ;;
  _ <~ modS (set_secrets secrets) ;;
  _ <~ modS (set_epoch (sc_Epoch sc)) ;;
  (* Commit to generated secrets by providing their hash values *)
  let hashes := map HashB secrets in
  _ <~ modS (set_state StateSolutionsPromised) ;;
  ret {| Promises := promises; KeyHashes := hashes |}.

(** **** ValidateSolutions *)

(** The loop over [fakePuzzleList] from position [i] that validates
    the disclosed puzzles. *)
Fixpoint verify_fake_puzzles (s : Session) (pk : PuzzlePubKey)
  (pd : PuzzleDisclosure) (i : Z) (fakePuzzleList : list Z) : result unit :=
  match fakePuzzleList with
  | [] => Ok tt
  | idx :: rest =>
      if idx >? len (puzzles s) then Err "bad puzzle reference"
      else
        p <- index (puzzles s) idx ;;
        f <- index (FakeFactors pd) i ;;
        if negb (ValidatePuzzle pk p f) then Err "puzzles didn't verify"
        else verify_fake_puzzles s pk pd (i + 1) rest
  end.

Definition ValidateSolutions (pd : PuzzleDisclosure) : M SolutionSecrets :=
  s <~ getS ;;
  _ <~ lift (ready (state s) StateSolutionsValidated) ;;
  fakePuzzleList <~ lift (wrap "failed to decode puzzle index list: "
                            (puzzle_list.DecodeIndexList
                               (FakePuzzleList pd))) ;;
  if len fakePuzzleList >? len (puzzles s)
  then fail "failed to decode puzzle index list: bad input values"
  else
    tb <~ getT ;;
    pk <~ lift (wrap ("failed to obtain a puzzle key for epoch " ++
                      itoa (epoch s) ++ ": ")
                  (getPuzzleKey tb (epoch s))) ;;
    _ <~ lift (verify_fake_puzzles s (PublicKey pk) pd 0 fakePuzzleList) ;;
    (* Reveal secrets for fake puzzles *)
    secrets <~ lift (collect_secrets "bad puzzle reference" s
                       fakePuzzleList) ;;
    _ <~ modS (set_state StateSolutionsValidated) ;;
    ret {| ss_Secrets := secrets |}.

(** **** getEpochAddress (tumbler.go) *)

Inductive epoch_lookup : Type :=
| Allocated (address pubkey : string)
| Unallocated (i : nat)
| NotFound.

(** The search loop of [getEpochAddress] from entry [i]. *)
Fixpoint find_epoch (tb : Tumbler) (blockHeight : Z)
  (es : list (option Epoch)) (i : nat) : result epoch_lookup :=
  match es with
  | [] => Ok NotFound
  | None :: _ => Panic nil_deref
  | Some e :: rest =>
      if BlockHeight e =? blockHeight then
        if Z.of_nat (String.length (Address e)) >? 0
        then Ok (Allocated (Address e) (Pubkey e))
        else
          (* Don't bother with epochs that are about to expire. *)
          if wrap32 (BlockHeight e + epochDuration tb)
             <? wrap32 (lastEpoch tb - 1)
          then Err ("epoch too old: " ++ itoa blockHeight)%string
          else Ok (Unallocated i)
      else find_epoch tb blockHeight rest (S i)
  end.

Definition set_epoch_address (addr pkey : string) (e : option Epoch)
  : option Epoch :=
  match e with
  | Some e => Some {| Address := addr; Pubkey := pkey;
                      BlockHeight := BlockHeight e;
                      puzzleKey := puzzleKey e |}
  | None => None
  end.

Definition getEpochAddress (blockHeight : Z) : M (string * string) :=
  tb <~ getT ;;
  found <~ lift (find_epoch tb blockHeight (epochs tb) 0) ;;
  match found with
  | Allocated address pubkey => ret (address, pubkey)
  | NotFound => fail ErrEpochNotFound
  | Unallocated i =>
      (* Allocate new external address *)
      '(addr, pkey) <~ world wallet_GetExtAddress ;;
      tb <~ getT ;;
      let e := set_epoch_address addr pkey (nth i (epochs tb) None) in
      _ <~ putT (set_epochs (set_nth (epochs tb) i e) tb) ;;
      ret (addr, pkey)
  end.

(** **** RevealSolution and PublishSolution *)

Fixpoint verify_real_puzzles (s : Session) (pk : PuzzlePubKey)
  (po : PaymentOfferT) (i : Z) (l : list Z) : result unit :=
  match l with
  | [] => Ok tt
  | idx :: rest =>
      if idx >? len (puzzles s) then Err "bad puzzle reference"
      else
        p <- index (puzzles s) idx ;;
        f <- index (po_RealFactors po) i ;;
        if negb (ValidateBlindedPuzzle pk p (po_Puzzle po) f)
        then Err "puzzles didn't verify"
        else verify_real_puzzles s pk po (i + 1) rest
  end.

Definition RevealSolution (po : PaymentOfferT) : M (list (list byte)) :=
  s <~ getS ;;
  tb <~ getT ;;
  pk <~ lift (getPuzzleKey tb (epoch s)) ;;
  _ <~ lift (verify_real_puzzles s (PublicKey pk) po 0 (realPuzzleList s)) ;;
  (* Reveal secrets for real puzzles *)
  lift (collect_secrets "bad puzzle reference" s (realPuzzleList s)).

Definition PublishSolution (secrets : list (list byte)) : M unit :=
  _ <~ mwrap "failed to publish fulfilling tx :"
         (wallet (wallet_PublishSolution secrets)) ;;
  _ <~ modS (set_state StateSolutionPublished) ;;
  finalize ReasonSuccess None.

(** **** validateOffer *)

(** [s.err = err; s.FinalizeExchange(ctx, ReasonFailedExchange, nil)] *)
Definition abort_exchange (e : string) : M unit :=
  _ <~ modS (set_err (Some e)) ;;
  finalize ReasonFailedExchange None.

(** An error of [m] goes to [s.err] and ends the exchange, as each
    [if err != nil] of [validateOffer] does. *)
Definition or_abort {A} (m : M A) (k : A -> M unit) : M unit :=
  fun st =>
    match m st with
    | (Ok a, st') => k a st'
    | (Err e, st') => abort_exchange e st'
    | (Panic p, st') => (Panic p, st')
    end.

Definition defer_validateOffer (po : PaymentOfferT) (u : Z) : M unit :=
  s <~ getS ;;
  tb <~ getT ;;
  putT (DeferAction tb s po u).

(** The loop of [validateOffer] that appends [s.puzzles[idx]]. *)
Fixpoint collect_hashes (s : Session) (l : list Z)
  : result (list (list byte)) :=
  match l with
  | [] => Ok []
  | idx :: rest =>
      x <- index (puzzles s) idx ;;
      xs <- collect_hashes s rest ;;
      Ok (x :: xs)
  end.

Definition validateOffer (po : PaymentOfferT) : M unit :=
  s <~ getS ;;
  or_abort (lift (ready (state s) StateSolutionPublished)) (fun _ =>
  or_abort (mwrap "failed to validate offer tx: "
              (wallet (wallet_ValidateOffer (po_EscrowHash po))))
    (fun valid =>
  now <~ clock ;;
  s <~ getS ;;
  if negb valid && (now >? deadline s) then
    abort_exchange
      ("offer tx wasn't confirmed after " ++
       itoa (3 * ConfirmationInterval / 1000000000) ++ " seconds")
  else if negb valid then
    defer_validateOffer po (now + ConfirmationInterval)
  else
    _ <~ lift (collect_hashes s (realPuzzleList s)) ;;
    or_abort (RevealSolution po) (fun secrets =>
    or_abort (PublishSolution secrets) (fun _ => ret tt)))).

(** **** PaymentOffer *)

Fixpoint check_puzzle_refs (s : Session) (l : list Z) : result unit :=
  match l with
  | [] => Ok tt
  | idx :: rest =>
      if idx >? len (puzzles s) then Err "bad puzzle reference"
      else check_puzzle_refs s rest
  end.

Definition PaymentOffer (po : PaymentOfferT) : M unit :=
  s <~ getS ;;
  _ <~ lift (ready (state s) StateOfferReceived) ;;
  match puzzle_list.DecodeIndexList (po_RealPuzzleList po) with
  | Panic p => lift (Panic p)
  | Err e =>
      _ <~ modS (set_realPuzzleList []) ;;
      fail ("failed to decode puzzle index list: " ++ e)
  | Ok l =>
      _ <~ modS (set_realPuzzleList l) ;;
      s <~ getS ;;
      if len (realPuzzleList s) >? len (puzzles s)
      then fail "failed to decode puzzle index list: bad input values"
      else
        (* Make sure there was no previous offer. *)
        match contract s with
        | Some _ => fail "conflicting offer tx"
        | None =>
            _ <~ lift (check_puzzle_refs s (realPuzzleList s)) ;;
            if (len (po_EscrowTx po) =? 0) ||
               (len (po_EscrowScript po) =? 0) ||
               (len (po_EscrowHash po) =? 0)
            then fail "bad offer tx"
            else
              c <~ lift (contract.New (po_Amount po)
                           (wrap32 (epoch s + EpochDuration))) ;;
              _ <~ modS (set_contract (Some c)) ;;
              _ <~ contract_SetAddress SenderAddress (address s)
                     (po_PublicKey po) ;;
              '(epochAddr, epochPubKey) <~
                mwrap ("failed to obtain an address for an epoch " ++
                       itoa (epoch s) ++ ": ")
                  (getEpochAddress (epoch s)) ;;
              _ <~ contract_SetAddress ReceiverAddress epochAddr
                     epochPubKey ;;
              _ <~ modS (fun s =>
                           match contract s with
                           | Some c =>
                               set_contract
                                 (Some (set_EscrowScript c
                                          (po_EscrowScript po))) s
                           | None => s
                           end) ;;
              _ <~ mwrap "failed to import offer script: "
                     (wallet wallet_ImportEscrowScript) ;;
              _ <~ modS (set_state StateOfferReceived) ;;
              valid <~
                mwrap "failed to validate offer tx: "
                  (wallet (wallet_ValidateOffer (po_EscrowHash po))) ;;
              if negb valid then
                now <~ clock ;;
                _ <~ modS (set_deadline (now + 3 * ConfirmationInterval)) ;;
                defer_validateOffer po (now + ConfirmationInterval)
              else
                _ <~ validateOffer po ;;
                s <~ getS ;;
                match err s with
                | Some e => fail e
                | None => ret tt
                end
        end
  end.

End WithCollaborators.

Arguments sess {World} s.
Arguments tum {World} s.
Arguments wld {World} s.
Arguments ret {World A} a _.
Arguments mbind {World A B} m k _.
Arguments lift {World A} r _.
Arguments fail {World A} e _.
Arguments mwrap {World A} prefix m _.
Arguments getS {World} _.
Arguments getT {World} _.
Arguments modS {World} f _.
Arguments putT {World} tb _.
Arguments wallet {World A} op _.
Arguments world {World A} f _.
Arguments clock {World} Now _.
Arguments finalize {World} reason details _.
Arguments abort_exchange {World} e _.
Arguments or_abort {World A} m k _.
Arguments defer_validateOffer {World} po u _.
Arguments contract_SetAddress {World} SetAddress t a pk _.
Arguments getEpochAddress {World} wallet_GetExtAddress blockHeight _.
Arguments puzzle_promises {World} NewPuzzlePromise pk sigs _.
Arguments solution_promises {World} NewSolutionPromise pk ps _.
Arguments RevealSolution {World} po _.
Arguments PublishSolution {World} wallet_PublishSolution secrets _.
Arguments validateOffer {World} wallet_ValidateOffer wallet_PublishSolution
  Now po _.

(** *** More of the epoch manager (tumbler.go) *)

Fixpoint isValidEpoch_loop (es : list (option Epoch)) (blockHeight : Z)
  : result bool :=
  match es with
  | [] => Ok false
  | None :: _ => Panic nil_deref
  | Some e :: rest =>
      if BlockHeight e =? blockHeight then Ok true
      else isValidEpoch_loop rest blockHeight
  end.

Definition isValidEpoch (tb : Tumbler) (blockHeight : Z) : result bool :=
  isValidEpoch_loop (epochs tb) blockHeight.

(** [createNewEpoch], given the outcome of its call of
    [tb.wallet.CurrentBlockHeight], a [uint32], and that of the key
    generation in [NewEpoch]. *)
Definition createNewEpoch (tb : Tumbler) (CurrentBlockHeight : result Z)
  (keygen : result PuzzleKey) : result unit * Tumbler :=
  match CurrentBlockHeight with
  | Err e => (Err ("Wallet failure: " ++ e)%string, tb)
  | Panic p => (Panic p, tb)
  | Ok blockHeight =>
      if blockHeight >? int32_max
      then (Err ("Block height is too large: " ++ itoa blockHeight)%string,
            tb)
      else
        match NewEpoch tb (wrap32 blockHeight) keygen with
        | (Err e, tb') =>
            (Err ("Failed to setup new epoch: " ++ e)%string, tb')
        | r => r
        end
  end.

End tumbler.

(** ** The state chains as the specification words them *)

Module spec.

Import tumbler.

(** One step along the payee chain or along the payer chain. *)
Inductive chain_step : Z -> Z -> Prop :=
| payee_1 : chain_step StateInitial StateEscrowComplete
| payee_2 : chain_step StateEscrowComplete StatePuzzlesPromised
| payee_3 : chain_step StatePuzzlesPromised StatePuzzlesValidated
| payee_4 : chain_step StatePuzzlesValidated StateEscrowPublished
| payer_1 : chain_step StateInitial StateSolutionsPromised
| payer_2 : chain_step StateSolutionsPromised StateSolutionsValidated
| payer_3 : chain_step StateSolutionsValidated StateOfferReceived
| payer_4 : chain_step StateOfferReceived StateSolutionPublished.

(** The states of the two chains, without the two sentinels
    [MaxPayeeState] and [MaxPayerState]. *)
Definition protocol_state (s : Z) : Prop :=
  (0 <= s <= 4) \/ (6 <= s <= 9).

(** A value with an entry in [stateNames]. *)
Definition named_state (s : Z) : Prop := 0 <= s <= 10.

Definition name (s : Z) : string := nth (Z.to_nat s) stateNames ""%string.

Definition not_ready_msg (s next : Z) : string :=
  ("not ready to advance to " ++ name next ++ " from " ++ name s)%string.

Definition final_stage_msg (next : Z) : string :=
  ("cannot advance past the final stage: requested " ++ name next)%string.

(** The named reasons of [FinalizeExchange]. *)
Definition named_reason (r : Z) : Prop := 0 <= r <= 3.

Definition terminal (s : Z) : Prop :=
  s = StateEscrowPublished \/ s = StateSolutionPublished.

(** A sequence of calls of [FinalizeExchange] on one session, each with
    its reason and details; a call that panics is taken as recovered,
    and the next one runs on what it left. *)
Fixpoint finalize_calls (s : Session) (tb : Tumbler)
  (calls : list (Z * option string)) : Session * Tumbler :=
  match calls with
  | [] => (s, tb)
  | (reason, details) :: rest =>
      let '(_, s', tb', _) := FinalizeExchange s tb reason details in
      finalize_calls s' tb' rest
  end.

(** The block heights of the epoch list, in order, nil entries apart. *)
Fixpoint heights (es : list (option Epoch)) : list Z :=
  match es with
  | [] => []
  | Some e :: rest => BlockHeight e :: heights rest
  | None :: rest => heights rest
  end.

Definition strictly_increasing (l : list Z) : Prop :=
  StronglySorted Z.lt l.

Definition no_nil (es : list (option Epoch)) : Prop :=
  Forall (fun e => e <> None) es.

(** The list is empty or [h] is above the height of its last epoch. *)
Definition above_latest (es : list (option Epoch)) (h : Z) : Prop :=
  es = [] \/ exists e, List.last es None = Some e /\ BlockHeight e < h.

Definition in_int32 (z : Z) : Prop := int32_min <= z <= int32_max.

(** A sequence of calls of [NewEpoch], each with its block height and
    the outcome of its key generation; [None] when one of them ends
    in a panic. *)
Fixpoint NewEpoch_calls (tb : Tumbler)
  (calls : list (Z * result puzzle.PuzzleKey))
  : option Tumbler :=
  match calls with
  | [] => Some tb
  | (h, keygen) :: rest =>
      match NewEpoch tb h keygen with
      | (Panic _, _) => None
      | (_, tb') => NewEpoch_calls tb' rest
      end
  end.

(** An epoch list without nil entries, strictly increasing in block
    height, on which [BlockHeight + epochDuration] is an [int32]. *)
Definition epochs_ok (d : Z) (es : list (option Epoch)) : Prop :=
  no_nil es /\ strictly_increasing (heights es) /\
  Forall (fun x => in_int32 (x + d)) (heights es).

(** The epoch that [NewEpoch] appends. *)
Definition new_epoch (h : Z) (pk : puzzle.PuzzleKey) : Epoch :=
  {| Address := ""; Pubkey := ""; BlockHeight := h; puzzleKey := pk |}.

(** What the documentation of math/big promises of [GCD] on positive
    arguments: the greatest common divisor and coefficients with
    [g = a*x + b*y]. *)
Definition GCD_contract (GCD : Z -> Z -> Z * Z * Z) : Prop :=
  forall a b, 0 < a -> 0 < b ->
    let '(g, x, y) := GCD a b in
    g = Z.gcd a b /\ g = a * x + b * y.

(** A secret of a quotient chain: in (0, N) and coprime to N. *)
Definition unit_mod (n s : Z) : Prop := 0 < s < n /\ Z.gcd s n = 1.

(** The puzzle of the secret [s]: the encoding of s^e mod N. *)
Definition puzzle_of (pk : puzzle.PuzzlePubKey) (s : Z) : list byte :=
  puzzle.Bytes (s ^ puzzle.E pk mod puzzle.N pk).

(** The quotients [qs] lead from [prev] through the secrets [ss]: each
    secret is the one before it times the quotient, modulo [n]. *)
Fixpoint chained (n prev : Z) (ss : list Z) (qs : list (list byte)) : Prop :=
  match ss, qs with
  | [], [] => True
  | s :: ss', q :: qs' =>
      (prev * puzzle.SetBytes q) mod n = s /\ chained n s ss' qs'
  | _, _ => False
  end.

(** *** RSA puzzle keys *)

Definition product (l : list Z) : Z := fold_right Z.mul 1 l.

(** The values that [Precompute] of crypto/rsa stores for the primes
    from the third on, where [r] is the product of the primes before:
    [Exp = D mod (prime - 1)], [R = r] and [Coeff = r^-1 mod prime]. *)
Fixpoint crt_values_ok (d r : Z) (primes : list Z)
  (values : list puzzle.CRTValue) : Prop :=
  match primes, values with
  | [], [] => True
  | p :: primes', v :: values' =>
      puzzle.crtExp v = d mod (p - 1) /\ puzzle.R v = r /\
      (puzzle.Coeff v * r) mod p = 1 /\
      crt_values_ok d (r * p) primes' values'
  | _, _ => False
  end.

(** [Precomputed] is empty, or holds what [Precompute] stores:
    [Dp = D mod (P-1)], [Dq = D mod (Q-1)], [Qinv = Q^-1 mod P] and the
    values of the further primes. *)
Definition precomputed_ok (priv : puzzle.PrivateKey) : Prop :=
  match puzzle.Dp (puzzle.Precomputed priv), puzzle.Primes priv with
  | None, _ => True
  | Some dp, p :: q :: rest =>
      dp = puzzle.D priv mod (p - 1) /\
      puzzle.Dq (puzzle.Precomputed priv) = puzzle.D priv mod (q - 1) /\
      (puzzle.Qinv (puzzle.Precomputed priv) * q) mod p = 1 /\
      crt_values_ok (puzzle.D priv) (p * q) rest
        (puzzle.CRTValues (puzzle.Precomputed priv))
  | Some _, _ => False
  end.

(** An RSA puzzle key as [GeneratePuzzleKey] makes it: a modulus that
    is the product of distinct primes, exponents with
    [e*d = 1 mod (p-1)] for each prime, the precomputed values, and a
    blinding factor in (0, N) with its inverse modulo N. *)
Definition valid_key (pk : puzzle.PuzzleKey) : Prop :=
  let priv := puzzle.rsakey pk in
  let pub := puzzle.PublicKey_ priv in
  Forall Z.prime (puzzle.Primes priv) /\
  NoDup (puzzle.Primes priv) /\
  (2 <= List.length (puzzle.Primes priv))%nat /\
  puzzle.N pub = product (puzzle.Primes priv) /\
  0 < puzzle.E pub /\ 0 < puzzle.D priv /\
  Forall (fun p => (puzzle.E pub * puzzle.D priv) mod (p - 1) = 1)
    (puzzle.Primes priv) /\
  precomputed_ok priv /\
  0 < puzzle.factor pk < puzzle.N pub /\
  (puzzle.factor pk * puzzle.inverse pk) mod puzzle.N pub = 1.

(** *** Random sources for the shuffle *)

(** The threshold of the rejection loop of [uniformRandom31] for the
    bound [n], and the low word that a value [x] read gives. *)
Definition threshold (n : Z) : Z := u32 (wrap32 (- n)) mod u32 n.

Definition low_word (x n : Z) : Z :=
  u32 (shuffle.u64 (shuffle.u64 (u32 x) * shuffle.u64 n)).

(** From every position on, some later read of the source succeeds with
    a value that the rejection loop accepts for the bound [n]. *)
Definition delivers (random : shuffle.Reader) : Prop :=
  forall pos n, 2 <= n <= 2 ^ 31 - 1 ->
    exists k x, random (pos + k)%nat = Some x /\ threshold n <= low_word x n.

(** The array [0, 1, ..., n-1]. *)
Definition identity (n : Z) : list Z := map Z.of_nat (seq 0 (Z.to_nat n)).

(** A source that reads zeros for ever, and one whose every read
    fails. *)
Definition zeros : shuffle.Reader := fun _ => Some 0.
Definition exhausted : shuffle.Reader := fun _ => None.

(** A source whose every read gives the largest 32-bit value. *)
Definition ones : shuffle.Reader := fun _ => Some (2 ^ 32 - 1).

(** The conditions of [valid_key] on the RSA key alone, as
    [rsa.GenerateMultiPrimeKey] returns it: those of the key with the
    trivial blinding factor 1. *)
Definition valid_private_key (priv : puzzle.PrivateKey) : Prop :=
  valid_key {| puzzle.rsakey := priv; puzzle.factor := 1;
               puzzle.inverse := 1 |}.

(** The draws of [rand.Int(rand.Reader, n)] are in [0, n). *)
Definition draws_below (rand_Int : nat -> result Z) (n : Z) : Prop :=
  forall k x, rand_Int k = Ok x -> 0 <= x < n.

(** How a payment offer that was accepted stands: the solution is
    published and the session finalized, or the session waits in
    [OfferReceived] with a deferred validation of this offer last in
    the list of deferred actions. *)
Definition offer_settled (po : PaymentOfferT) (s : Session) (tb : Tumbler)
  : Prop :=
  (state s = StateSolutionPublished /\ finsema s <> 0) \/
  (state s = StateOfferReceived /\
   exists acts u,
     actions tb = acts ++ [{| da_session := cookie s; da_argument := po;
                              da_until := u |}]).

End spec.

(** ** Concrete values *)

Module sample.

Import puzzle tumbler.

(** A three-prime key: N = 3 * 5 * 7, e = d = 5, with the values that
    [Precompute] stores and the blinding factor 2 with its inverse. *)
Definition key : PuzzleKey :=
  {| rsakey :=
       {| PublicKey_ := {| N := 105; E := 5 |};
          D := 5;
          Primes := [3; 5; 7];
          Precomputed :=
            {| Dp := Some 1; Dq := 1; Qinv := 2;
               CRTValues := [{| crtExp := 5; Coeff := 1; R := 15 |}] |} |};
     factor := 2;
     inverse := 53 |}.

(** [NewTumbler] with the default configuration. *)
Definition tb0 : Tumbler :=
  {| lastEpoch := 0; epochs := []; sessions := []; actions := [];
     pending := []; epochDuration := 10; puzzleDifficulty := 2048;
     disconnects := [] |}.

(** A connected session in state [st] with the given stored arrays. *)
Definition session (st : Z) (ps ss : list (list byte)) : Session :=
  {| finsema := 0; cookie := ["001"%byte]; explist := true; deadline := 0;
     address := "client"; epoch := 1234; contract := None; state := st;
     err := None; puzzles := ps; secrets := ss; solutions := [];
     txHashes := []; realSetHash := []; fakeSetHash := [];
     realPuzzleList := [] |}.

(** The tumbler after [NewEpoch(1234)] generated [key]. *)
Definition tb1 : Tumbler :=
  {| lastEpoch := 1234;
     epochs := [Some {| Address := ""; Pubkey := ""; BlockHeight := 1234;
                        puzzleKey := key |}];
     sessions := [["001"%byte]]; actions := [];
     pending := [["001"%byte]]; epochDuration := 10;
     puzzleDifficulty := 2048; disconnects := [] |}.

(** Collaborators on a world without state: a wallet whose calls
    succeed, one whose offer validation fails, and an address decoder
    that accepts. *)
Definition wallet_ok : WalletOp unit unit := fun w c => (Ok tt, c, w).

Definition wallet_offer_ok (valid : bool) (h : list byte)
  : WalletOp unit bool := fun w c => (Ok valid, c, w).

Definition wallet_offer_fails (h : list byte) : WalletOp unit bool :=
  fun w c => (Err "rpc connection lost", c, w).

Definition wallet_publish_ok (secrets : list (list byte))
  : WalletOp unit unit := fun w c => (Ok tt, c, w).

Definition wallet_address (w : unit) : result (string * string) * unit :=
  (Ok ("TsEpochAddress", "TsEpochPubKey")%string, w).

Definition address_ok (t : contract.addressRole) (a pk : string)
  (c : contract.Contract) : result contract.Contract := Ok c.

(** A payment offer that refers to the stored puzzle 0. *)
Definition offer : PaymentOfferT :=
  {| po_Amount := contract.contractValue; po_PublicKey := "TsPayerPubKey";
     po_EscrowHash := ["001"%byte]; po_EscrowScript := ["002"%byte];
     po_EscrowTx := ["003"%byte]; po_Puzzle := ["004"%byte];
     po_RealPuzzleList := ["000"; "000"]%byte;
     po_RealFactors := [["001"%byte]] |}.

(** An implementation of the contract of [GCD]. *)
Definition GCD (a b : Z) : Z * Z * Z :=
  let '(u, v, d) := Z.extgcd a b in (d, u, v).

(** Draws of [rand.Int]: a zero, a number that shares a factor with
    105, and then 2. *)
Definition draws (k : nat) : result Z :=
  match k with
  | O => Ok 0
  | S O => Ok 3
  | _ => Ok 2
  end.

(** A key generator that returns the RSA key of [key]. *)
Definition GenerateMultiPrimeKey (nprimes bits : Z) : result PrivateKey :=
  Ok (rsakey key).

(** A stand-in for the extendable output function: its state is the
    key followed by what was written, and a read delivers those
    bytes. *)
Definition xof_new (size : Z) (key : list byte) : result (list byte) :=
  Ok key.
Definition xof_write (x rest : list byte) : list byte := x ++ rest.
Definition xof_read (x : list byte) (n : nat) : list byte := firstn n x.

End sample.

(** * Properties *)

(** ** Bytes and big integers *)

Lemma Z_of_byte_range (b : byte) : 0 <= Z_of_byte b < 256.
Proof.
  unfold Z_of_byte. pose proof (Byte.to_N_bounded b) as H.
  apply N2Z.inj_le in H. simpl in H. lia.
Qed.

Lemma Z_of_byte_of_Z (z : Z) : Z_of_byte (byte_of_Z z) = z mod 256.
Proof.
  unfold Z_of_byte, byte_of_Z.
  assert (Hr : 0 <= z mod 256 < 256) by (apply Z.mod_pos_bound; lia).
  destruct (Byte.of_N (Z.to_N (z mod 256))) as [b|] eqn:Hb.
  - apply Byte.to_of_N in Hb. rewrite Hb. rewrite Z2N.id; lia.
  - apply Byte.of_N_None_iff in Hb. lia.
Qed.

Lemma byte_of_Z_of_byte (b : byte) : byte_of_Z (Z_of_byte b) = b.
Proof.
  unfold byte_of_Z. pose proof (Z_of_byte_range b) as Hr.
  rewrite Z.mod_small by lia. unfold Z_of_byte. rewrite N2Z.id.
  now rewrite Byte.of_to_N.
Qed.

Lemma bytes_eqb_eq (x y : list byte) : puzzle.bytes_eqb x y = true <-> x = y.
Proof.
  revert y. induction x as [|a x IH]; intros [|b y]; simpl;
    try (split; [discriminate | discriminate]); try tauto.
  rewrite andb_true_iff, IH. split.
  - intros [Hab ->]. apply Byte.byte_dec_bl in Hab. now subst.
  - intros H. injection H as -> ->. split; [|reflexivity].
    now apply Byte.byte_dec_lb.
Qed.

Lemma bytes_eqb_refl (x : list byte) : puzzle.bytes_eqb x x = true.
Proof. now apply bytes_eqb_eq. Qed.

Lemma len_nonneg {A} (l : list A) : 0 <= len l.
Proof. unfold len. lia. Qed.

Lemma len_app {A} (l1 l2 : list A) : len (l1 ++ l2) = len l1 + len l2.
Proof. unfold len. rewrite length_app. lia. Qed.

Lemma len_cons {A} (x : A) (l : list A) : len (x :: l) = len l + 1.
Proof. unfold len. cbn [List.length]. lia. Qed.

(** ** The index list codec *)

Lemma lor_shiftl8 (a b : Z) :
  0 <= a < 256 -> 0 <= b -> Z.lor a (Z.shiftl b 8) = a + b * 256.
Proof.
  intros Ha Hb.
  assert (Hland : Z.land a (Z.shiftl b 8) = 0).
  { apply Z.bits_inj'. intros n Hn. rewrite Z.land_spec, Z.bits_0.
    destruct (Z.ltb_spec n 8).
    - rewrite Z.shiftl_spec_low by lia. apply andb_false_r.
    - destruct (Z.eqb_spec a 0) as [->|Hnz].
      + now rewrite Z.bits_0.
      + rewrite (Z.bits_above_log2 a n); [reflexivity|lia|].
        assert (Z.log2 a < 8) by (apply Z.log2_lt_pow2; lia). lia. }
  rewrite <- Z.lxor_lor by exact Hland.
  rewrite <- Z.add_nocarry_lxor by exact Hland.
  rewrite Z.shiftl_mul_pow2 by lia. reflexivity.
Qed.

Lemma decode_PutUint16 (i : Z) (res : list Z) (rest : list byte) :
  0 <= i <= 65535 ->
  puzzle_list.DecodeIndexList_from res (puzzle_list.PutUint16 i ++ rest) =
  puzzle_list.DecodeIndexList_from (res ++ [i]) rest.
Proof.
  intros Hi. unfold puzzle_list.PutUint16. cbn [app].
  cbn [puzzle_list.DecodeIndexList_from].
  rewrite !Z_of_byte_of_Z. rewrite Z.shiftr_div_pow2 by lia.
  change (2 ^ 16) with 65536. change (2 ^ 8) with 256.
  rewrite (Z.mod_small i 65536) by lia.
  assert (0 <= i / 256 < 256)
    by (split; [apply Z.div_pos; lia | apply Z.div_lt_upper_bound; lia]).
  rewrite (Z.mod_small (i / 256) 256) by lia.
  rewrite lor_shiftl8 by (try apply Z.mod_pos_bound; lia).
  replace (i mod 256 + i / 256 * 256) with i
    by (rewrite (Z.div_mod i 256) at 1; lia).
  reflexivity.
Qed.

Lemma encode_from_in_range (l : list Z) (buf : list byte) :
  Forall (fun i => 0 <= i <= 65535) l ->
  puzzle_list.EncodeIndexList_from buf l =
  Ok (buf ++ flat_map puzzle_list.PutUint16 l).
Proof.
  intros H. revert buf. induction H as [|i l Hi _ IH]; intros buf; simpl.
  - now rewrite app_nil_r.
  - unfold puzzle_list.MaxUint16.
    destruct (Z.ltb_spec i 0); [lia|].
    destruct (Z.gtb_spec i 65535); [lia|]. simpl.
    rewrite IH. now rewrite <- app_assoc.
Qed.

Lemma decode_from_encoded (l : list Z) (res : list Z) :
  Forall (fun i => 0 <= i <= 65535) l ->
  puzzle_list.DecodeIndexList_from res (flat_map puzzle_list.PutUint16 l) =
  Ok (res ++ l).
Proof.
  intros H. revert res. induction H as [|i l Hi _ IH]; intros res.
  - simpl. now rewrite app_nil_r.
  - cbn [flat_map]. rewrite decode_PutUint16 by exact Hi.
    rewrite IH. now rewrite <- app_assoc.
Qed.

Lemma len_flat_map_PutUint16 (l : list Z) :
  len (flat_map puzzle_list.PutUint16 l) = 2 * len l.
Proof.
  induction l as [|i l IH]; [reflexivity|].
  cbn [flat_map]. rewrite len_app, IH, len_cons.
  change (len (puzzle_list.PutUint16 i)) with 2. lia.
Qed.

Lemma encode_out_of_range (l : list Z) (buf : list byte) :
  Exists (fun i => i < 0 \/ 65535 < i) l ->
  is_err (puzzle_list.EncodeIndexList_from buf l).
Proof.
  intros H. revert buf. induction H as [i l Hi | i l _ IH]; intros buf; simpl.
  - unfold puzzle_list.MaxUint16.
    destruct (Z.ltb_spec i 0); simpl; [eexists; reflexivity|].
    destruct (Z.gtb_spec i 65535); [eexists; reflexivity | lia].
  - destruct ((i <? 0) || (i >? puzzle_list.MaxUint16));
      [eexists; reflexivity | apply IH].
Qed.

(** Lists taken two elements at a time. *)
Lemma pair_induction {A} (P : list A -> Prop) :
  P [] -> (forall a, P [a]) -> (forall a b l, P l -> P (a :: b :: l)) ->
  forall l, P l.
Proof.
  intros H0 H1 H2.
  assert (forall l, P l /\ forall a, P (a :: l)) as H.
  { induction l as [|b l [IHl IHal]]; split; auto. }
  intros l. apply H.
Qed.

Lemma decode_from_even (bs : list byte) :
  forall res, len bs mod 2 = 0 ->
  exists l, puzzle_list.DecodeIndexList_from res bs = Ok l.
Proof.
  induction bs as [| a | a b bs IH] using pair_induction; intros res H.
  - eexists; reflexivity.
  - rewrite len_cons in H. discriminate.
  - cbn [puzzle_list.DecodeIndexList_from]. apply IH.
    rewrite !len_cons in H.
    replace (len bs + 1 + 1) with (len bs + 1 * 2) in H by lia.
    now rewrite Z.mod_add in H by lia.
Qed.

(** C7. The index list codec: lists with all values in [0, 65535]
    encode, and decoding the encoding gives the list back; a list with
    a value below 0 or above 65535 does not encode ([-1] and [65536]
    among them); decoding fails exactly on the byte strings of odd
    length. *)
Theorem index_list_codec :
  (forall l, Forall (fun i => 0 <= i <= 65535) l ->
     exists bs, puzzle_list.EncodeIndexList l = Ok bs /\
                puzzle_list.DecodeIndexList bs = Ok l) /\
  (forall l, Exists (fun i => i < 0 \/ 65535 < i) l ->
     is_err (puzzle_list.EncodeIndexList l)) /\
  is_err (puzzle_list.EncodeIndexList [-1]) /\
  is_err (puzzle_list.EncodeIndexList [65536]) /\
  (forall bs, is_err (puzzle_list.DecodeIndexList bs) <->
              Z.odd (len bs) = true).
Proof.
  repeat split.
  - intros l Hl. exists (flat_map puzzle_list.PutUint16 l). split.
    + unfold puzzle_list.EncodeIndexList.
      now rewrite encode_from_in_range.
    + unfold puzzle_list.DecodeIndexList.
      rewrite len_flat_map_PutUint16.
      rewrite Z.mul_comm, Z.mod_mul by lia. simpl.
      now rewrite decode_from_encoded.
  - intros l Hl. now apply encode_out_of_range.
  - eexists; reflexivity.
  - eexists; reflexivity.
  - unfold puzzle_list.DecodeIndexList. intros [msg H].
    destruct (Z.eqb_spec (len bs mod 2) 0) as [He|Hne].
    + simpl in H. destruct (decode_from_even bs [] He) as [l Hl].
      congruence.
    + rewrite Zmod_odd in Hne. now destruct (Z.odd (len bs)).
  - unfold puzzle_list.DecodeIndexList. intros H.
    rewrite Zmod_odd, H. simpl. eexists; reflexivity.
Qed.

Lemma index_list_codec_witness :
  exists bs, puzzle_list.EncodeIndexList [0; 258; 65535] = Ok bs /\
             puzzle_list.DecodeIndexList bs = Ok [0; 258; 65535].
Proof.
  apply (proj1 index_list_codec). repeat constructor; lia.
Defined.

(** ** The session state machine *)

Ltac enum_state H :=
  match type of H with
  | spec.named_state ?s =>
      unfold spec.named_state in H;
      assert (s = 0 \/ s = 1 \/ s = 2 \/ s = 3 \/ s = 4 \/ s = 5 \/ s = 6 \/
              s = 7 \/ s = 8 \/ s = 9 \/ s = 10) as Hcases by lia;
      clear H;
      repeat (destruct Hcases as [-> | Hcases]); [..| subst s]
  end.

(** C1. [ready] on the named states: from [Initial] exactly
    [EscrowComplete] and [SolutionsPromised] are allowed; from
    [EscrowPublished] and [SolutionPublished] every request fails; from
    any other state the request is allowed exactly when it is the
    state plus one, and fails with the not-ready error otherwise.  On
    the states of the protocol the allowed transitions are exactly the
    steps of the two chains. *)
Theorem ready_transitions (s next : Z) :
  spec.named_state s -> spec.named_state next ->
  (s = tumbler.StateInitial ->
     (next = tumbler.StateEscrowComplete \/
      next = tumbler.StateSolutionsPromised ->
      tumbler.ready s next = Ok tt) /\
     (next <> tumbler.StateEscrowComplete /\
      next <> tumbler.StateSolutionsPromised ->
      tumbler.ready s next = Err (spec.not_ready_msg s next))) /\
  (s = tumbler.StateEscrowPublished \/ s = tumbler.StateSolutionPublished ->
     tumbler.ready s next = Err (spec.final_stage_msg next)) /\
  (s <> tumbler.StateInitial -> s <> tumbler.StateEscrowPublished ->
   s <> tumbler.StateSolutionPublished ->
     (next = s + 1 -> tumbler.ready s next = Ok tt) /\
     (next <> s + 1 ->
      tumbler.ready s next = Err (spec.not_ready_msg s next))) /\
  (spec.protocol_state s ->
     (tumbler.ready s next = Ok tt <-> spec.chain_step s next)).
Proof.
  intros Hs Hn.
  enum_state Hs; enum_state Hn;
    unfold tumbler.StateInitial, tumbler.StateEscrowComplete,
      tumbler.StateSolutionsPromised, tumbler.StateEscrowPublished,
      tumbler.StateSolutionPublished, spec.protocol_state;
    (split; [intros ?; split; intros ?; try lia; reflexivity |]);
    (split; [intros ?; try lia; reflexivity |]);
    (split; [intros ? ? ?; split; intros ?; try lia; reflexivity |]);
    intros Hp; try lia;
    (split; [intros H; try discriminate H; constructor
            | intros H; try reflexivity; exfalso; inversion H]).
Qed.

Lemma ready_transitions_witness :
  tumbler.ready tumbler.StatePuzzlesPromised tumbler.StatePuzzlesValidated
  = Ok tt.
Proof.
  refine (proj1 (proj1 (proj2 (proj2
    (ready_transitions tumbler.StatePuzzlesPromised
       tumbler.StatePuzzlesValidated _ _))) _ _ _) _);
    unfold spec.named_state; vm_compute; try reflexivity;
    try (split; discriminate); discriminate.
Defined.

(** ** Finalization *)

Lemma String_named (s : tumbler.Session) :
  spec.named_state (tumbler.state s) -> exists str, tumbler.String s = Ok str.
Proof.
  intros H. unfold tumbler.String.
  destruct (Z.of_nat (String.length (tumbler.address s)) =? 0);
    [eexists; reflexivity|].
  remember (tumbler.state s) as st eqn:E. clear E.
  enum_state H; eexists; reflexivity.
Qed.

Lemma Disconnect_effect (tb : tumbler.Tumbler) (s : tumbler.Session) :
  let '(tb', s') := tumbler.Disconnect tb s in
  tumbler.disconnects tb' = tumbler.disconnects tb ++ [tumbler.cookie s] /\
  tumbler.finsema s' = tumbler.finsema s /\
  tumbler.state s' = tumbler.state s /\
  tumbler.err s' = tumbler.err s.
Proof.
  unfold tumbler.Disconnect. simpl.
  destruct (tumbler.explist s); simpl; auto.
Qed.

(** One call: either nothing changes, or the semaphore was free, is
    taken now, and [Disconnect] ran once. *)
Lemma FinalizeExchange_step (s : tumbler.Session) (tb : tumbler.Tumbler)
  (reason : Z) (details : option string) :
  let '(_, s', tb', _) := tumbler.FinalizeExchange s tb reason details in
  (s' = s /\ tb' = tb) \/
  (tumbler.finsema s = 0 /\ tumbler.finsema s' = 1 /\
   tumbler.state s' = tumbler.state s /\
   tumbler.disconnects tb' =
   tumbler.disconnects tb ++ [tumbler.cookie s]).
Proof.
  unfold tumbler.FinalizeExchange.
  destruct ((reason =? tumbler.ReasonSuccess) && _); [now left|].
  destruct (Z.eqb_spec (tumbler.finsema s) 0) as [Hf|Hf]; cbn [negb];
    [|now left].
  cbv zeta.
  pose proof (Disconnect_effect tb (tumbler.set_finsema 1 s)) as HD.
  destruct (tumbler.Disconnect tb (tumbler.set_finsema 1 s)) as [tb' s'].
  simpl in HD. destruct HD as (Hd & Hfin & Hst & _).
  match goal with
  | |- context [match ?m with Ok _ => _ | Err _ => _ | Panic _ => _ end] =>
      destruct m
  end; right; auto.
Qed.

(** C8. Finalization is one-shot and guarded: with reason success in a
    state that is not terminal the call panics and changes nothing; a
    call that finds the finalization semaphore taken returns without
    any cleanup; the call that finds it free takes it and runs
    [Disconnect] once; any other named reason is accepted from any
    named state; and over any sequence of calls on a session
    [Disconnect] runs at most once, and not at all when the semaphore
    was taken before. *)
Theorem finalize_one_shot :
  (forall s tb details, ~ spec.terminal (tumbler.state s) ->
     tumbler.FinalizeExchange s tb tumbler.ReasonSuccess details =
     (Panic "no reason for success", s, tb, None)) /\
  (forall s tb reason details,
     tumbler.finsema s <> 0 ->
     (reason = tumbler.ReasonSuccess -> spec.terminal (tumbler.state s)) ->
     tumbler.FinalizeExchange s tb reason details = (Ok tt, s, tb, None)) /\
  (forall s tb reason details,
     tumbler.finsema s = 0 ->
     spec.named_reason reason -> spec.named_state (tumbler.state s) ->
     (reason = tumbler.ReasonSuccess -> spec.terminal (tumbler.state s)) ->
     exists s' tb' m,
       tumbler.FinalizeExchange s tb reason details =
       (Ok tt, s', tb', Some m) /\
       tumbler.finsema s' = 1 /\
       tumbler.state s' = tumbler.state s /\
       tumbler.disconnects tb' =
       tumbler.disconnects tb ++ [tumbler.cookie s]) /\
  (forall s tb reason details,
     spec.named_reason reason -> spec.named_state (tumbler.state s) ->
     reason <> tumbler.ReasonSuccess ->
     fst (fst (fst (tumbler.FinalizeExchange s tb reason details))) = Ok tt) /\
  (forall calls s tb,
     exists l,
       tumbler.disconnects (snd (spec.finalize_calls s tb calls)) =
       tumbler.disconnects tb ++ l /\
       (List.length l <= 1)%nat /\
       (tumbler.finsema s <> 0 -> l = [])).
Proof.
  assert (Hguard : forall st reason,
    (reason = tumbler.ReasonSuccess -> spec.terminal st) ->
    (reason =? tumbler.ReasonSuccess) &&
    (negb (st =? tumbler.StateEscrowPublished) &&
     negb (st =? tumbler.StateSolutionPublished)) = false).
  { intros st reason H.
    destruct (Z.eqb_spec reason tumbler.ReasonSuccess) as [E|E];
      [|reflexivity].
    destruct (H E) as [-> | ->]; reflexivity. }
  assert (Hfirst : forall s tb reason details,
     tumbler.finsema s = 0 ->
     spec.named_reason reason -> spec.named_state (tumbler.state s) ->
     (reason = tumbler.ReasonSuccess -> spec.terminal (tumbler.state s)) ->
     exists s' tb' m,
       tumbler.FinalizeExchange s tb reason details =
       (Ok tt, s', tb', Some m) /\
       tumbler.finsema s' = 1 /\
       tumbler.state s' = tumbler.state s /\
       tumbler.disconnects tb' =
       tumbler.disconnects tb ++ [tumbler.cookie s]).
  { intros s tb reason details Hf Hr Hs Ht.
    unfold tumbler.FinalizeExchange. rewrite (Hguard _ _ Ht), Hf.
    cbn [Z.eqb negb]. cbv zeta.
    pose proof (Disconnect_effect tb (tumbler.set_finsema 1 s)) as HD.
    destruct (tumbler.Disconnect tb (tumbler.set_finsema 1 s)) as [tb' s'].
    simpl in HD. destruct HD as (Hd & Hfin & Hst & _).
    assert (Hs' : spec.named_state (tumbler.state s')) by now rewrite Hst.
    destruct (String_named s' Hs') as [str ->]. simpl.
    assert (Hidx : reason <> tumbler.ReasonSuccess ->
                   exists r, index tumbler.reasonNames reason = Ok r).
    { intros _. unfold spec.named_reason in Hr.
      assert (reason = 0 \/ reason = 1 \/ reason = 2 \/ reason = 3)
        as [-> | [-> | [-> | ->]]] by lia; eexists; reflexivity. }
    destruct (Z.eqb_spec reason tumbler.ReasonSuccess) as [E|E]; simpl.
    - do 3 eexists. split; [reflexivity|]. auto.
    - destruct (Hidx E) as [r ->]. simpl.
      do 3 eexists. split; [reflexivity|]. auto. }
  split; [|split; [|split; [exact Hfirst | split]]].
  - intros s tb details Ht. unfold tumbler.FinalizeExchange.
    unfold spec.terminal in Ht.
    destruct (Z.eqb_spec (tumbler.state s) tumbler.StateEscrowPublished);
      [tauto|].
    destruct (Z.eqb_spec (tumbler.state s) tumbler.StateSolutionPublished);
      [tauto|].
    reflexivity.
  - intros s tb reason details Hf Ht.
    unfold tumbler.FinalizeExchange. rewrite (Hguard _ _ Ht).
    destruct (Z.eqb_spec (tumbler.finsema s) 0); [contradiction|].
    reflexivity.
  - intros s tb reason details Hr Hs Hne.
    destruct (Z.eq_dec (tumbler.finsema s) 0) as [Hf|Hf].
    + destruct (Hfirst s tb reason details Hf Hr Hs) as (s' & tb' & m & -> & _);
        [tauto | reflexivity].
    + unfold tumbler.FinalizeExchange. rewrite (Hguard _ _) by tauto.
      destruct (Z.eqb_spec (tumbler.finsema s) 0); [contradiction|].
      reflexivity.
  - induction calls as [|[reason details] rest IH]; intros s tb.
    + exists []. simpl. rewrite app_nil_r. auto.
    + simpl. pose proof (FinalizeExchange_step s tb reason details) as Hstep.
      destruct (tumbler.FinalizeExchange s tb reason details)
        as [[[o s'] tb'] m].
      destruct Hstep as [[-> ->] | (Hf & Hf' & _ & Hd)].
      * apply IH.
      * destruct (IH s' tb') as (l & Hl & _ & Hnil).
        rewrite Hnil in Hl by lia. rewrite app_nil_r in Hl.
        exists [tumbler.cookie s]. rewrite Hl, Hd.
        repeat split; simpl; auto; lia.
Qed.

Lemma finalize_one_shot_witness :
  tumbler.FinalizeExchange
    {| tumbler.finsema := 0; tumbler.cookie := [];
       tumbler.explist := true; tumbler.deadline := 0;
       tumbler.address := ""; tumbler.epoch := 0;
       tumbler.contract := None; tumbler.state := tumbler.StateInitial;
       tumbler.err := None; tumbler.puzzles := []; tumbler.secrets := [];
       tumbler.solutions := []; tumbler.txHashes := [];
       tumbler.realSetHash := []; tumbler.fakeSetHash := [];
       tumbler.realPuzzleList := [] |}
    {| tumbler.lastEpoch := 0; tumbler.epochs := [];
       tumbler.sessions := [[]]; tumbler.actions := [];
       tumbler.pending := [[]]; tumbler.epochDuration := 10;
       tumbler.puzzleDifficulty := 2048; tumbler.disconnects := [] |}
    tumbler.ReasonSuccess None
  = (Panic "no reason for success",
     {| tumbler.finsema := 0; tumbler.cookie := [];
        tumbler.explist := true; tumbler.deadline := 0;
        tumbler.address := ""; tumbler.epoch := 0;
        tumbler.contract := None; tumbler.state := tumbler.StateInitial;
        tumbler.err := None; tumbler.puzzles := []; tumbler.secrets := [];
        tumbler.solutions := []; tumbler.txHashes := [];
        tumbler.realSetHash := []; tumbler.fakeSetHash := [];
        tumbler.realPuzzleList := [] |},
     {| tumbler.lastEpoch := 0; tumbler.epochs := [];
        tumbler.sessions := [[]]; tumbler.actions := [];
        tumbler.pending := [[]]; tumbler.epochDuration := 10;
        tumbler.puzzleDifficulty := 2048; tumbler.disconnects := [] |},
     None).
Proof.
  apply (proj1 finalize_one_shot).
  unfold spec.terminal. simpl. intros [H | H]; discriminate H.
Defined.

(** ** The epoch manager *)

Lemma nth_error_last {A} (l : list A) (d : A) :
  l <> [] -> nth_error l (List.length l - 1) = Some (List.last l d).
Proof.
  induction l as [|a [|b l] IH]; intros H; [contradiction | reflexivity |].
  specialize (IH ltac:(discriminate)).
  cbn [List.length] in *. replace (S (S (List.length l)) - 1)%nat
    with (S (S (List.length l) - 1)) by lia.
  exact IH.
Qed.

Lemma index_last {A} (l : list A) (d : A) :
  l <> [] -> index l (len l - 1) = Ok (List.last l d).
Proof.
  intros H. unfold index, len.
  assert (0 < List.length l)%nat by (destruct l; [contradiction | simpl; lia]).
  destruct (Z.ltb_spec (Z.of_nat (List.length l) - 1) 0); [lia|].
  destruct (Z.leb_spec (Z.of_nat (List.length l))
              (Z.of_nat (List.length l) - 1)); [lia|]. simpl.
  replace (Z.to_nat (Z.of_nat (List.length l) - 1))
    with (List.length l - 1)%nat by lia.
  now rewrite (nth_error_last l d H).
Qed.

Lemma latest_not_older_empty (tb : tumbler.Tumbler) (h : Z) :
  tumbler.epochs tb = [] -> tumbler.latest_not_older tb h = Ok false.
Proof. intros E. unfold tumbler.latest_not_older. now rewrite E. Qed.

Lemma latest_not_older_last (tb : tumbler.Tumbler) (h : Z) e :
  List.last (tumbler.epochs tb) None = Some e ->
  tumbler.latest_not_older tb h = Ok (tumbler.BlockHeight e >=? h).
Proof.
  intros E. unfold tumbler.latest_not_older.
  assert (Hne : tumbler.epochs tb <> []).
  { intros Hnil. rewrite Hnil in E. discriminate. }
  assert (0 < len (tumbler.epochs tb)).
  { unfold len. destruct (tumbler.epochs tb); [contradiction|].
    cbn [List.length]. lia. }
  destruct (Z.gtb_spec (len (tumbler.epochs tb)) 0); [|lia].
  rewrite (index_last _ None Hne). simpl. now rewrite E.
Qed.

Lemma no_nil_last (es : list (option tumbler.Epoch)) :
  spec.no_nil es -> es <> [] -> exists e, List.last es None = Some e.
Proof.
  intros H Hne.
  assert (Hin : In (List.last es None) es).
  { destruct es as [|x es]; [contradiction|].
    clear H Hne. revert x.
    induction es as [|y es IH]; intros x; [now left|].
    right. apply (IH y). }
  unfold spec.no_nil in H. rewrite Forall_forall in H.
  specialize (H _ Hin). destruct (List.last es None) as [e|];
    [now exists e | contradiction].
Qed.

Lemma expire_loop_no_nil d h (es : list (option tumbler.Epoch)) :
  spec.no_nil es ->
  forall n, exists es' n', tumbler.expire_loop d h es n = Ok (es', n').
Proof.
  induction 1 as [|[e|] es Hx _ IH]; intros n; simpl.
  - now exists [], n.
  - destruct (wrap32 (tumbler.BlockHeight e + d) <? h).
    + destruct (IH (n + 1)) as (es' & n' & ->). simpl. eauto.
    + destruct (IH n) as (es' & n' & ->). simpl. eauto.
  - contradiction.
Qed.

Lemma expire_loop_heights (P : Z -> Prop) d h es :
  forall n es' n', tumbler.expire_loop d h es n = Ok (es', n') ->
  Forall P (spec.heights es) -> Forall P (spec.heights es').
Proof.
  induction es as [|[e|] es IH]; intros n es' n' H HP; simpl in H.
  - injection H as <- _. constructor.
  - simpl in HP. inversion HP as [|? ? Hp Hrest]; subst.
    destruct (wrap32 (tumbler.BlockHeight e + d) <? h).
    + destruct (tumbler.expire_loop d h es (n + 1)) as [[r k]| |] eqn:E;
        simpl in H; try discriminate.
      injection H as <- _. simpl. eapply IH; eauto.
    + destruct (tumbler.expire_loop d h es n) as [[r k]| |] eqn:E;
        simpl in H; try discriminate.
      injection H as <- _. simpl. constructor; [exact Hp|].
      eapply IH; eauto.
  - discriminate.
Qed.

Lemma expire_loop_sorted d h es :
  forall n es' n', tumbler.expire_loop d h es n = Ok (es', n') ->
  StronglySorted Z.lt (spec.heights es) ->
  StronglySorted Z.lt (spec.heights es').
Proof.
  induction es as [|[e|] es IH]; intros n es' n' H HS; simpl in H.
  - injection H as <- _. constructor.
  - simpl in HS. inversion HS as [|? ? Hs Hall]; subst.
    destruct (wrap32 (tumbler.BlockHeight e + d) <? h).
    + destruct (tumbler.expire_loop d h es (n + 1)) as [[r k]| |] eqn:E;
        simpl in H; try discriminate.
      injection H as <- _. simpl. eapply IH; eauto.
    + destruct (tumbler.expire_loop d h es n) as [[r k]| |] eqn:E;
        simpl in H; try discriminate.
      injection H as <- _. simpl. constructor.
      * eapply IH; eauto.
      * eapply expire_loop_heights; eauto.
  - discriminate.
Qed.

Lemma heights_skipn_Forall (P : Z -> Prop) (k : nat) es :
  Forall P (spec.heights es) -> Forall P (spec.heights (skipn k es)).
Proof.
  revert es. induction k as [|k IH]; intros es H; [exact H|].
  destruct es as [|[e|] es]; simpl; [constructor | |]; apply IH.
  - simpl in H. now inversion H.
  - exact H.
Qed.

Lemma heights_skipn_sorted (k : nat) es :
  StronglySorted Z.lt (spec.heights es) ->
  StronglySorted Z.lt (spec.heights (skipn k es)).
Proof.
  revert es. induction k as [|k IH]; intros es H; [exact H|].
  destruct es as [|[e|] es]; simpl; [constructor | |]; apply IH.
  - simpl in H. now inversion H.
  - exact H.
Qed.

Lemma heights_app es1 es2 :
  spec.heights (es1 ++ es2) = spec.heights es1 ++ spec.heights es2.
Proof.
  induction es1 as [|[e|] es1 IH]; simpl; [reflexivity | | exact IH].
  now rewrite IH.
Qed.

Lemma sorted_snoc (l : list Z) (h : Z) :
  StronglySorted Z.lt l -> Forall (fun x => x < h) l ->
  StronglySorted Z.lt (l ++ [h]).
Proof.
  induction 1 as [|a l Hs IH Ha]; intros Hall; simpl.
  - repeat constructor.
  - inversion Hall; subst. constructor; [now apply IH|].
    apply Forall_app. split; [exact Ha | now repeat constructor].
Qed.

Lemma last_in_heights es e :
  List.last es None = Some e -> In (tumbler.BlockHeight e) (spec.heights es).
Proof.
  induction es as [|x [|y es] IH]; intros H.
  - discriminate.
  - simpl in H. subst x. now left.
  - specialize (IH H). destruct x as [a|]; [right|]; exact IH.
Qed.

Lemma sorted_below_last es e :
  StronglySorted Z.lt (spec.heights es) ->
  List.last es None = Some e ->
  Forall (fun x => x <= tumbler.BlockHeight e) (spec.heights es).
Proof.
  induction es as [|x [|y es] IH]; intros HS H.
  - discriminate.
  - simpl in H. subst x. simpl. repeat constructor. lia.
  - assert (Hl : List.last (y :: es) None = Some e) by exact H.
    destruct x as [a|].
    + change (spec.heights (Some a :: y :: es))
        with (tumbler.BlockHeight a :: spec.heights (y :: es)) in *.
      inversion HS as [|? ? Hs Hall]; subst.
      constructor; [|now apply IH].
      rewrite Forall_forall in Hall.
      specialize (Hall _ (last_in_heights _ _ Hl)). lia.
    + change (spec.heights (None :: y :: es))
        with (spec.heights (y :: es)) in *. now apply IH.
Qed.

Lemma NewEpoch_unchanged tb h kg r tb' :
  tumbler.NewEpoch tb h kg = (r, tb') -> r <> Ok tt -> tb' = tb.
Proof.
  unfold tumbler.NewEpoch. intros H Hr.
  destruct (tumbler.latest_not_older tb h) as [[|]| |];
    try (injection H as _ <-; reflexivity).
  destruct kg as [pk| |]; try (injection H as _ <-; reflexivity).
  destruct (tumbler.expire_loop _ _ _ _) as [[es n]| |];
    try (injection H as _ <-; reflexivity).
  injection H as <- _. contradiction.
Qed.

Lemma NewEpoch_ok_form tb h kg tb' :
  tumbler.NewEpoch tb h kg = (Ok tt, tb') ->
  exists pk es' n,
    kg = Ok pk /\ tumbler.latest_not_older tb h = Ok false /\
    tumbler.expire_loop (tumbler.epochDuration tb) h (tumbler.epochs tb) 0
    = Ok (es', n) /\
    tb' = tumbler.set_epochs_lastEpoch
            (skipn (Z.to_nat n) es' ++ [Some (spec.new_epoch h pk)]) h tb.
Proof.
  unfold tumbler.NewEpoch. intros H.
  destruct (tumbler.latest_not_older tb h) as [[|]| |]; try discriminate.
  destruct kg as [pk| |]; try discriminate.
  destruct (tumbler.expire_loop _ _ _ _) as [[es n]| |]; try discriminate.
  injection H as <-. exists pk, es, n. auto.
Qed.

Lemma latest_not_older_false tb h :
  tumbler.latest_not_older tb h = Ok false ->
  spec.above_latest (tumbler.epochs tb) h.
Proof.
  unfold tumbler.latest_not_older, spec.above_latest. intros H.
  destruct (tumbler.epochs tb) as [|x es] eqn:E; [now left|]. right.
  rewrite <- E in *.
  assert (Hne : tumbler.epochs tb <> []) by (rewrite E; discriminate).
  assert (0 < len (tumbler.epochs tb))
    by (rewrite E, len_cons; pose proof (len_nonneg es); lia).
  destruct (Z.gtb_spec (len (tumbler.epochs tb)) 0); [|lia].
  rewrite (index_last _ None Hne) in H. simpl in H.
  destruct (List.last (tumbler.epochs tb) None) as [e|]; [|discriminate].
  exists e. split; [reflexivity|]. injection H as H.
  destruct (Z.geb_spec (tumbler.BlockHeight e) h); [discriminate | lia].
Qed.

Lemma above_latest_below es h :
  spec.above_latest es h -> StronglySorted Z.lt (spec.heights es) ->
  Forall (fun x => x < h) (spec.heights es).
Proof.
  intros [-> | (e & Hl & Hlt)] HS; [constructor|].
  eapply Forall_impl; [|exact (sorted_below_last es e HS Hl)].
  simpl. intros. lia.
Qed.

(** A call that succeeds keeps the heights strictly increasing. *)
Lemma NewEpoch_sorted tb h kg tb' :
  tumbler.NewEpoch tb h kg = (Ok tt, tb') ->
  spec.strictly_increasing (spec.heights (tumbler.epochs tb)) ->
  spec.strictly_increasing (spec.heights (tumbler.epochs tb')).
Proof.
  unfold spec.strictly_increasing. intros H HS.
  destruct (NewEpoch_ok_form _ _ _ _ H) as (pk & es' & n & _ & Hl & He & ->).
  simpl. rewrite heights_app. simpl.
  pose proof (above_latest_below _ _ (latest_not_older_false _ _ Hl) HS)
    as Hbelow.
  apply sorted_snoc.
  - apply heights_skipn_sorted. eapply expire_loop_sorted; eauto.
  - apply heights_skipn_Forall. eapply expire_loop_heights; eauto.
Qed.

Lemma wrap32_in_range (z : Z) : spec.in_int32 z -> wrap32 z = z.
Proof.
  unfold spec.in_int32, int32_min, int32_max, wrap32. intros H.
  rewrite Z.mod_small; lia.
Qed.

Lemma expire_loop_none_expired d h es :
  spec.no_nil es ->
  Forall (fun x => spec.in_int32 (x + d)) (spec.heights es) ->
  Forall (fun x => h <= x + d) (spec.heights es) ->
  forall n, tumbler.expire_loop d h es n = Ok (es, n).
Proof.
  induction 1 as [|[e|] es Hx _ IH]; intros Hr Hk n; simpl;
    [reflexivity | | contradiction].
  simpl in Hr, Hk. inversion Hr; inversion Hk; subst.
  rewrite wrap32_in_range by assumption.
  destruct (Z.ltb_spec (tumbler.BlockHeight e + d) h); [lia|].
  now rewrite IH.
Qed.

(** On a sorted list without overflow the expired epochs are a prefix
    of the list. *)
Lemma expire_loop_prefix d h es :
  spec.epochs_ok d es ->
  forall n, exists k rest,
    tumbler.expire_loop d h es n = Ok (repeat None k ++ rest, n + Z.of_nat k)
    /\ spec.no_nil rest.
Proof.
  intros (Hnn & HS & Hr). unfold spec.strictly_increasing in HS.
  induction Hnn as [|[e|] es Hx Hnn IH]; intros n.
  - exists 0%nat, []. simpl. rewrite Z.add_0_r. split; [reflexivity|].
    constructor.
  - simpl in HS, Hr. inversion HS as [|? ? HS' Hall]; subst.
    inversion Hr as [|? ? Hre Hr']; subst. simpl.
    rewrite wrap32_in_range by assumption.
    destruct (Z.ltb_spec (tumbler.BlockHeight e + d) h).
    + destruct (IH HS' Hr' (n + 1)) as (k & rest & -> & Hrest). simpl.
      exists (S k), rest. split; [|exact Hrest].
      simpl. do 2 f_equal. lia.
    + rewrite expire_loop_none_expired; try assumption.
      * simpl. exists 0%nat, (Some e :: es). simpl. rewrite Z.add_0_r.
        split; [reflexivity|]. now constructor.
      * eapply Forall_impl; [|exact Hall]. simpl. intros. lia.
  - contradiction.
Qed.

Lemma no_nil_app es1 es2 :
  spec.no_nil es1 -> spec.no_nil es2 -> spec.no_nil (es1 ++ es2).
Proof. unfold spec.no_nil. intros. apply Forall_app. now split. Qed.

Lemma skipn_repeat_app {A} (x : A) (k : nat) (l : list A) :
  skipn k (repeat x k ++ l) = l.
Proof. induction k; simpl; auto. Qed.

(** Without overflow a call does not panic and keeps the list well
    formed. *)
Lemma NewEpoch_epochs_ok tb h kg :
  spec.epochs_ok (tumbler.epochDuration tb) (tumbler.epochs tb) ->
  spec.in_int32 (h + tumbler.epochDuration tb) ->
  ~ is_panic kg ->
  exists r tb',
    tumbler.NewEpoch tb h kg = (r, tb') /\ ~ is_panic r /\
    tumbler.epochDuration tb' = tumbler.epochDuration tb /\
    spec.epochs_ok (tumbler.epochDuration tb') (tumbler.epochs tb').
Proof.
  intros Hok Hh Hkg.
  destruct (tumbler.NewEpoch tb h kg) as [r tb'] eqn:E.
  exists r, tb'. split; [reflexivity|].
  assert (Hnp : ~ is_panic r).
  { intros [p ->]. unfold tumbler.NewEpoch in E.
    destruct Hok as (Hnn & _).
    assert (Hl : exists b, tumbler.latest_not_older tb h = Ok b).
    { destruct (tumbler.epochs tb) as [|x es] eqn:Ees.
      - rewrite latest_not_older_empty by exact Ees. eauto.
      - destruct (no_nil_last _ Hnn ltac:(discriminate)) as [e He].
        rewrite <- Ees in He.
        rewrite (latest_not_older_last _ _ _ He). eauto. }
    destruct Hl as [[|] Hl]; rewrite Hl in E; [discriminate|].
    destruct kg as [pk| |]; try discriminate.
    - destruct (expire_loop_no_nil (tumbler.epochDuration tb) h _ Hnn 0)
        as (es' & n' & He). rewrite He in E. discriminate.
    - apply Hkg. eexists; reflexivity. }
  split; [exact Hnp|].
  destruct r as [[]| |].
  - pose proof (NewEpoch_sorted _ _ _ _ E (proj1 (proj2 Hok))) as HS.
    destruct (NewEpoch_ok_form _ _ _ _ E)
      as (pk & es' & n & _ & Hl & He & ->).
    split; [reflexivity|]. split; [|split; [exact HS|]].
    + destruct (expire_loop_prefix _ h _ Hok 0) as (k & rest & Hp & Hrest).
      rewrite Hp in He. injection He as <- <-.
      cbn [tumbler.set_epochs_lastEpoch tumbler.epochs].
      rewrite Nat2Z.id, skipn_repeat_app. apply no_nil_app; [exact Hrest|].
      repeat constructor. discriminate.
    + simpl. rewrite heights_app. apply Forall_app. split.
      * apply heights_skipn_Forall.
        eapply expire_loop_heights; [exact He | exact (proj2 (proj2 Hok))].
      * simpl. constructor; [exact Hh | constructor].
  - rewrite (NewEpoch_unchanged _ _ _ _ _ E) by discriminate. auto.
  - exfalso. apply Hnp. eexists; reflexivity.
Qed.

Lemma above_latest_check tb h :
  spec.above_latest (tumbler.epochs tb) h ->
  tumbler.latest_not_older tb h = Ok false.
Proof.
  intros [E | (e & Hl & Hlt)].
  - now apply latest_not_older_empty.
  - rewrite (latest_not_older_last _ _ _ Hl).
    destruct (Z.geb_spec (tumbler.BlockHeight e) h); [lia | reflexivity].
Qed.

Lemma not_above_latest_check tb h :
  spec.no_nil (tumbler.epochs tb) ->
  ~ spec.above_latest (tumbler.epochs tb) h ->
  tumbler.latest_not_older tb h = Ok true.
Proof.
  intros Hnn Hna.
  assert (Hne : tumbler.epochs tb <> []).
  { intros E. apply Hna. now left. }
  destruct (no_nil_last _ Hnn Hne) as [e He].
  rewrite (latest_not_older_last _ _ _ He).
  destruct (Z.geb_spec (tumbler.BlockHeight e) h); [reflexivity|].
  exfalso. apply Hna. right. exists e. split; [exact He | lia].
Qed.

(** C4, as the code has it.  On an epoch list without nil entries,
    [NewEpoch(h)] returns the bad-block-height error exactly when the
    list is not empty and [h] is not above the latest height, and the
    list is unchanged; otherwise an error of the key generation is
    returned as it is, with the list unchanged, and a generated key
    makes the call succeed with the new epoch last and [lastEpoch]
    published.  Over any sequence of calls that ends without a panic
    the block heights stay strictly increasing; and while
    [BlockHeight + epochDuration] stays an [int32], no call panics and
    the list keeps no nil entry. *)
Theorem NewEpoch_monotone :
  (forall tb h kg,
     spec.no_nil (tumbler.epochs tb) ->
     (~ spec.above_latest (tumbler.epochs tb) h ->
      tumbler.NewEpoch tb h kg =
      (Err ("bad block height: " ++ itoa h)%string, tb)) /\
     (spec.above_latest (tumbler.epochs tb) h ->
      forall e, kg = Err e -> tumbler.NewEpoch tb h kg = (Err e, tb)) /\
     (spec.above_latest (tumbler.epochs tb) h ->
      forall pk, kg = Ok pk ->
      exists tb',
        tumbler.NewEpoch tb h kg = (Ok tt, tb') /\
        tumbler.lastEpoch tb' = h /\
        List.last (tumbler.epochs tb') None = Some (spec.new_epoch h pk))) /\
  (forall calls tb tb',
     spec.strictly_increasing (spec.heights (tumbler.epochs tb)) ->
     spec.NewEpoch_calls tb calls = Some tb' ->
     spec.strictly_increasing (spec.heights (tumbler.epochs tb'))) /\
  (forall calls tb,
     spec.epochs_ok (tumbler.epochDuration tb) (tumbler.epochs tb) ->
     Forall (fun c => spec.in_int32 (fst c + tumbler.epochDuration tb) /\
                      ~ is_panic (snd c)) calls ->
     exists tb',
       spec.NewEpoch_calls tb calls = Some tb' /\
       spec.epochs_ok (tumbler.epochDuration tb') (tumbler.epochs tb')).
Proof.
  split; [|split].
  - intros tb h kg Hnn. split; [|split].
    + intros Hna. unfold tumbler.NewEpoch.
      now rewrite (not_above_latest_check _ _ Hnn Hna).
    + intros Ha e ->. unfold tumbler.NewEpoch.
      now rewrite (above_latest_check _ _ Ha).
    + intros Ha pk ->. unfold tumbler.NewEpoch.
      rewrite (above_latest_check _ _ Ha).
      destruct (expire_loop_no_nil (tumbler.epochDuration tb) h _ Hnn 0)
        as (es' & n' & ->).
      eexists. split; [reflexivity|]. split; [reflexivity|].
      simpl. apply last_last.
  - induction calls as [|[h kg] calls IH]; intros tb tb' HS H; simpl in H.
    + now injection H as <-.
    + destruct (tumbler.NewEpoch tb h kg) as [r tb1] eqn:E.
      destruct r as [[]| |]; [| |discriminate].
      * apply (IH tb1); [|exact H]. eapply NewEpoch_sorted; eauto.
      * rewrite (NewEpoch_unchanged _ _ _ _ _ E) in H by discriminate.
        now apply (IH tb).
  - induction calls as [|[h kg] calls IH]; intros tb Hok Hcalls.
    + exists tb. split; [reflexivity | exact Hok].
    + inversion Hcalls as [|? ? [Hh Hkg] Hrest]; subst. simpl in Hh, Hkg.
      destruct (NewEpoch_epochs_ok tb h kg Hok Hh Hkg)
        as (r & tb1 & E & Hnp & Hd & Hok1).
      simpl. rewrite E.
      destruct (IH tb1 Hok1) as (tb' & Hrun & Hok').
      { now rewrite Hd. }
      exists tb'. split; [|exact Hok'].
      destruct r; [exact Hrun | exact Hrun |].
      exfalso. apply Hnp. eexists; reflexivity.
Qed.

Lemma NewEpoch_monotone_witness :
  exists tb',
    tumbler.NewEpoch sample.tb0 1234 (Ok sample.key) = (Ok tt, tb') /\
    tumbler.lastEpoch tb' = 1234 /\
    List.last (tumbler.epochs tb') None =
    Some (spec.new_epoch 1234 sample.key).
Proof.
  refine (proj2 (proj2 (proj1 NewEpoch_monotone sample.tb0 1234
                          (Ok sample.key) _)) _ sample.key eq_refl).
  - constructor.
  - left. reflexivity.
Defined.

(** The claim C4 as worded, success exactly when the list is empty or
    the height is above the latest, fails where the key generation
    fails. *)
Lemma NewEpoch_needs_key :
  ~ (forall tb h kg,
       fst (tumbler.NewEpoch tb h kg) = Ok tt <->
       spec.above_latest (tumbler.epochs tb) h).
Proof.
  intros H.
  destruct (H sample.tb0 1234
              (Err "crypto/rsa: too few primes of given length to generate an RSA key"))
    as [_ H'].
  specialize (H' (or_introl eq_refl)). discriminate H'.
Qed.

(** ** Block height zero *)

Section HeightZero.

Variable World : Type.
Variable wallet_CreateEscrow : tumbler.WalletOp World unit.
Variable SetAddress :
  contract.addressRole -> string -> string -> contract.Contract ->
  result contract.Contract.

Lemma ready_named_no_panic (s next : Z) :
  spec.named_state s -> spec.named_state next ->
  tumbler.ready s next = Ok tt \/ exists e, tumbler.ready s next = Err e.
Proof.
  intros Hs Hn. enum_state Hs; enum_state Hn;
    (left; reflexivity) || (right; eexists; reflexivity).
Qed.

(** C10. [NewEpoch(0)] on an empty epoch list succeeds once a key is
    generated and publishes [lastEpoch = 0]; [getCurrentEpoch] returns
    the error no current epoch exactly when [lastEpoch] is 0, whatever
    the epoch list holds; so [SetupEscrow] returns an error, and leaves
    everything as it was, on every tumbler with [lastEpoch = 0], the
    one whose only epoch was created at height 0 among them. *)
Theorem height_zero_unusable :
  (forall tb pk,
     tumbler.epochs tb = [] ->
     exists tb',
       tumbler.NewEpoch tb 0 (Ok pk) = (Ok tt, tb') /\
       tumbler.lastEpoch tb' = 0 /\
       tumbler.epochs tb' = [Some (spec.new_epoch 0 pk)]) /\
  (forall tb,
     (tumbler.getCurrentEpoch tb = Err "no current epoch" <->
      tumbler.lastEpoch tb = 0) /\
     (tumbler.lastEpoch tb <> 0 ->
      tumbler.getCurrentEpoch tb = Ok (tumbler.lastEpoch tb))) /\
  (forall er (st : tumbler.Sys World),
     tumbler.lastEpoch (tumbler.tum st) = 0 ->
     spec.named_state (tumbler.state (tumbler.sess st)) ->
     (exists e,
        tumbler.SetupEscrow World wallet_CreateEscrow SetAddress er st =
        (Err e, st)) /\
     (tumbler.state (tumbler.sess st) = tumbler.StateInitial ->
      tumbler.SetupEscrow World wallet_CreateEscrow SetAddress er st =
      (Err "no current epoch", st))) /\
  (forall er tb pk s (w : World),
     tumbler.epochs tb = [] ->
     tumbler.state s = tumbler.StateInitial ->
     tumbler.SetupEscrow World wallet_CreateEscrow SetAddress er
       {| tumbler.sess := s;
          tumbler.tum := snd (tumbler.NewEpoch tb 0 (Ok pk));
          tumbler.wld := w |} =
     (Err "no current epoch",
      {| tumbler.sess := s;
         tumbler.tum := snd (tumbler.NewEpoch tb 0 (Ok pk));
         tumbler.wld := w |})).
Proof.
  assert (Hnew : forall tb pk,
     tumbler.epochs tb = [] ->
     exists tb',
       tumbler.NewEpoch tb 0 (Ok pk) = (Ok tt, tb') /\
       tumbler.lastEpoch tb' = 0 /\
       tumbler.epochs tb' = [Some (spec.new_epoch 0 pk)]).
  { intros tb pk E. unfold tumbler.NewEpoch.
    rewrite (latest_not_older_empty _ _ E), E. simpl.
    eexists. repeat split. }
  assert (Hsetup : forall er (st : tumbler.Sys World),
     tumbler.lastEpoch (tumbler.tum st) = 0 ->
     spec.named_state (tumbler.state (tumbler.sess st)) ->
     (exists e,
        tumbler.SetupEscrow World wallet_CreateEscrow SetAddress er st =
        (Err e, st)) /\
     (tumbler.state (tumbler.sess st) = tumbler.StateInitial ->
      tumbler.SetupEscrow World wallet_CreateEscrow SetAddress er st =
      (Err "no current epoch", st))).
  { intros er st Hl Hs.
    unfold tumbler.SetupEscrow, tumbler.mbind, tumbler.getS, tumbler.getT,
      tumbler.lift, tumbler.getCurrentEpoch.
    rewrite Hl. simpl. split.
    - destruct (ready_named_no_panic _ tumbler.StateEscrowComplete Hs
                  ltac:(unfold spec.named_state, tumbler.StateEscrowComplete; lia))
        as [-> | [e ->]]; eexists; reflexivity.
    - intros ->. reflexivity. }
  split; [exact Hnew | split; [|split; [exact Hsetup|]]].
  - intros tb. unfold tumbler.getCurrentEpoch.
    destruct (Z.eqb_spec (tumbler.lastEpoch tb) 0) as [E|E]; simpl.
    + split; [tauto | contradiction].
    + split; [split; [discriminate | contradiction] | reflexivity].
  - intros er tb pk s w E Hs.
    destruct (Hnew tb pk E) as (tb' & Hn & Hl & _). rewrite Hn. simpl.
    apply (proj2 (Hsetup er {| tumbler.sess := s; tumbler.tum := tb';
                               tumbler.wld := w |} Hl
                    ltac:(simpl; rewrite Hs;
                          unfold spec.named_state, tumbler.StateInitial;
                          lia))).
    exact Hs.
Qed.

End HeightZero.

Lemma height_zero_unusable_witness :
  tumbler.SetupEscrow unit
    (fun w c => (Ok tt, c, w)) (fun _ _ _ c => Ok c)
    {| tumbler.er_Address := "a"; tumbler.er_PublicKey := "k";
       tumbler.er_Amount := 100000000 |}
    {| tumbler.sess := sample.session tumbler.StateInitial [] [];
       tumbler.tum := snd (tumbler.NewEpoch sample.tb0 0 (Ok sample.key));
       tumbler.wld := tt |} =
  (Err "no current epoch",
   {| tumbler.sess := sample.session tumbler.StateInitial [] [];
      tumbler.tum := snd (tumbler.NewEpoch sample.tb0 0 (Ok sample.key));
      tumbler.wld := tt |}).
Proof.
  apply (proj2 (proj2 (proj2
           (height_zero_unusable unit (fun w c => (Ok tt, c, w))
              (fun _ _ _ c => Ok c))))); reflexivity.
Defined.

(** ** Index checks of the validation handlers *)

Lemma index_at_len {A} (l : list A) : index l (len l) = Panic "index out of range".
Proof.
  unfold index. destruct (Z.leb_spec (len l) (len l)); [|lia].
  now rewrite orb_true_r.
Qed.

(** C3, where the code departs from it.  The handlers reject an index
    with [idx > len(...)], so that an index equal to the length of the
    stored array passes the check and the access that follows panics:
    in the loop of [ValidateSolutions] over the fake puzzles, in the
    loop of [ValidatePuzzles] over the fake transactions, and in both
    handlers run on a session with one stored entry and the index list
    [1]. *)
Theorem index_equal_to_length_panics :
  (forall s pk pd i rest,
     tumbler.verify_fake_puzzles s pk pd i (len (tumbler.puzzles s) :: rest)
     = Panic "index out of range") /\
  (forall HashB s rest b pads fl rl salt,
     tumbler.verify_fake_txs HashB s
       {| tumbler.FakeTxList := fl; tumbler.RealTxList := rl;
          tumbler.RandomPads := repeat b 32 :: pads;
          tumbler.Salt := salt |} 0
       (len (tumbler.txHashes s) :: rest)
     = Panic "index out of range") /\
  (let st := {| tumbler.sess :=
                  sample.session tumbler.StateSolutionsPromised
                    [["001"%byte]] [["002"%byte]];
                tumbler.tum := sample.tb1; tumbler.wld := tt |} in
   tumbler.ValidateSolutions unit
     {| tumbler.FakePuzzleList := ["001"; "000"]%byte;
        tumbler.FakeFactors := [["001"%byte]] |} st
   = (Panic "index out of range", st)) /\
  (let pad := repeat "000"%byte 32 in
   let st := {| tumbler.sess :=
                  tumbler.set_fakeSetHash ["001"; "000"]%byte
                    (tumbler.set_txHashes [["003"%byte]]
                       (sample.session tumbler.StatePuzzlesPromised
                          [] [["002"%byte]]));
                tumbler.tum := sample.tb1; tumbler.wld := tt |} in
   tumbler.ValidatePuzzles unit (fun salt buf => Ok buf)
     (fun b => b) sample.GCD
     {| tumbler.FakeTxList := ["001"; "000"]%byte;
        tumbler.RealTxList := [];
        tumbler.RandomPads := [pad];
        tumbler.Salt := pad |} st
   = (Panic "index out of range", st)).
Proof.
  split; [|split; [|split]].
  - intros s pk pd i rest. simpl.
    destruct (Z.gtb_spec (len (tumbler.puzzles s)) (len (tumbler.puzzles s)));
      [lia|].
    now rewrite index_at_len.
  - intros HashB s rest b pads fl rl salt.
    cbn [tumbler.verify_fake_txs].
    destruct (Z.gtb_spec (len (tumbler.txHashes s))
                (len (tumbler.txHashes s))); [lia|].
    cbn [tumbler.RandomPads].
    change (index (repeat b 32 :: pads) 0) with (Ok (repeat b 32)).
    cbn [bind].
    change (len (repeat b 32) =? 32) with true. cbn [negb].
    now rewrite index_at_len.
  - vm_compute. reflexivity.
  - vm_compute. reflexivity.
Qed.

(** ** Errors of the handlers and the state field *)

Section HandlerErrors.

Variable World : Type.
Variables wallet_CreateEscrow wallet_PublishEscrow wallet_ImportEscrowScript
  : tumbler.WalletOp World unit.
Variable wallet_ValidateOffer : list byte -> tumbler.WalletOp World bool.
Variable wallet_PublishSolution :
  list (list byte) -> tumbler.WalletOp World unit.
Variable wallet_GetExtAddress : World -> result (string * string) * World.
Variable SetAddress :
  contract.addressRole -> string -> string -> contract.Contract ->
  result contract.Contract.
Variables NewPuzzlePromise NewSolutionPromise :
  World -> puzzle.PuzzleKey -> list byte ->
  result (list byte * list byte * list byte) * World.
Variable MarshalPubKey : puzzle.PuzzleKey -> result (list byte).
Variable blake2s_256 : list byte -> list byte -> result (list byte).
Variable HashB : list byte -> list byte.
Variable GCD : Z -> Z -> Z * Z * Z.
Variable Now : World -> Z.

Import tumbler.

(** The computation leaves the [state] and [err] fields alone. *)
Definition keeps {A} (m : M World A) : Prop :=
  forall st, state (sess (snd (m st))) = state (sess st) /\
             err (sess (snd (m st))) = err (sess st).

(** An error is returned with the [state] field as on entry. *)
Definition err_safe {A} (m : M World A) : Prop :=
  forall st e, fst (m st) = Err e ->
               state (sess (snd (m st))) = state (sess st).

Definition no_err {A} (m : M World A) : Prop :=
  forall st e, fst (m st) <> Err e.

Lemma keeps_ret {A} (a : A) : keeps (ret a).
Proof. intros st. now split. Qed.

Lemma keeps_lift {A} (r : result A) : keeps (lift r).
Proof. intros st. now split. Qed.

Lemma keeps_getS : keeps (@getS World).
Proof. intros st. now split. Qed.

Lemma keeps_getT : keeps (@getT World).
Proof. intros st. now split. Qed.

Lemma keeps_putT tb : keeps (@putT World tb).
Proof. intros st. now split. Qed.

Lemma keeps_clock : keeps (clock Now).
Proof. intros st. now split. Qed.

Lemma keeps_modS (f : Session -> Session) :
  (forall s, state (f s) = state s /\ err (f s) = err s) ->
  keeps (@modS World f).
Proof. intros H st. simpl. apply H. Qed.

Lemma keeps_wallet {A} (op : WalletOp World A) : keeps (wallet op).
Proof.
  intros st. unfold wallet.
  destruct (op (wld st) (contract (sess st))) as [[r c] w]. now split.
Qed.

Lemma keeps_world {A} (f : World -> result A * World) : keeps (world f).
Proof.
  intros st. unfold world. destruct (f (wld st)) as [r w]. now split.
Qed.

Lemma keeps_mwrap {A} prefix (m : M World A) : keeps m -> keeps (mwrap prefix m).
Proof.
  intros H st. specialize (H st). unfold mwrap.
  destruct (m st) as [r st']. exact H.
Qed.

Lemma keeps_bind {A B} (m : M World A) (k : A -> M World B) :
  keeps m -> (forall a, keeps (k a)) -> keeps (mbind m k).
Proof.
  intros Hm Hk st. specialize (Hm st). unfold mbind.
  destruct (m st) as [[a| |] st1]; simpl in *; try exact Hm.
  destruct (Hk a st1) as [H1 H2]. destruct Hm as [H3 H4].
  split; congruence.
Qed.

Lemma FinalizeExchange_keeps s tb reason details :
  let '(r, s', _, _) := FinalizeExchange s tb reason details in
  state s' = state s /\ err s' = err s /\ forall e, r <> Err e.
Proof.
  unfold FinalizeExchange.
  destruct ((reason =? ReasonSuccess) && _);
    [repeat split; discriminate|].
  destruct (negb (finsema s =? 0)); [repeat split; discriminate|].
  cbv zeta.
  pose proof (Disconnect_effect tb (set_finsema 1 s)) as HD.
  destruct (Disconnect tb (set_finsema 1 s)) as [tb' s'].
  simpl in HD. destruct HD as (_ & _ & Hst & Herr).
  assert (HS : exists r, String s' = Ok r \/ String s' = Panic r).
  { unfold String.
    destruct (Z.of_nat (String.length (address s')) =? 0);
      [eexists; left; reflexivity|].
    unfold index. destruct ((state s' <? 0) || _);
      [eexists; right; reflexivity|].
    destruct (nth_error stateNames (Z.to_nat (state s'))); simpl;
      eexists; ((left; reflexivity) || (right; reflexivity)). }
  match goal with
  | |- context [match ?m with Ok _ => _ | Err _ => _ | Panic _ => _ end] =>
      assert (Hm : forall e, m <> Err e);
      [| destruct m; repeat split; try assumption; try discriminate;
         exfalso; eapply Hm; reflexivity]
  end.
  destruct HS as [str [-> | ->]]; cbn [bind]; [|discriminate].
  destruct (negb (reason =? ReasonSuccess)); cbn [bind]; [|discriminate].
  unfold index. destruct ((reason <? 0) || _); [discriminate|].
  destruct (nth_error reasonNames (Z.to_nat reason)); discriminate.
Qed.

Lemma keeps_finalize reason details : keeps (@finalize World reason details).
Proof.
  intros st. unfold finalize.
  pose proof (FinalizeExchange_keeps (sess st) (tum st) reason details) as H.
  destruct (FinalizeExchange (sess st) (tum st) reason details)
    as [[[r s'] tb'] m].
  simpl. tauto.
Qed.

Lemma no_err_finalize reason details : no_err (@finalize World reason details).
Proof.
  intros st e. unfold finalize.
  pose proof (FinalizeExchange_keeps (sess st) (tum st) reason details) as H.
  destruct (FinalizeExchange (sess st) (tum st) reason details)
    as [[[r s'] tb'] m].
  simpl. apply H.
Qed.

Lemma no_err_ret {A} (a : A) : no_err (@ret World A a).
Proof. intros st e. discriminate. Qed.

Lemma no_err_panic {A} p : no_err (@lift World A (Panic p)).
Proof. intros st e. discriminate. Qed.

Lemma no_err_getS : no_err (@getS World).
Proof. intros st e. discriminate. Qed.

Lemma no_err_modS f : no_err (@modS World f).
Proof. intros st e. discriminate. Qed.

Lemma no_err_bind {A B} (m : M World A) (k : A -> M World B) :
  no_err m -> (forall a, no_err (k a)) -> no_err (mbind m k).
Proof.
  intros Hm Hk st e. unfold mbind. specialize (Hm st).
  destruct (m st) as [[a| |] st1]; simpl in *.
  - apply Hk.
  - intros H. apply (Hm msg). reflexivity.
  - discriminate.
Qed.

Lemma err_safe_keeps {A} (m : M World A) : keeps m -> err_safe m.
Proof. intros H st e _. apply H. Qed.

Lemma err_safe_no_err {A} (m : M World A) : no_err m -> err_safe m.
Proof. intros H st e He. exfalso. exact (H st e He). Qed.

Lemma err_safe_bind {A B} (m : M World A) (k : A -> M World B) :
  keeps m -> (forall a, err_safe (k a)) -> err_safe (mbind m k).
Proof.
  intros Hm Hk st e. specialize (Hm st). unfold mbind.
  destruct (m st) as [[a| |] st1]; simpl in *; intros He.
  - rewrite (Hk a st1 e He). apply Hm.
  - apply Hm.
  - discriminate.
Qed.

Lemma keeps_contract_SetAddress t a pk :
  keeps (contract_SetAddress SetAddress t a pk).
Proof.
  unfold contract_SetAddress. apply keeps_bind; [apply keeps_getS|].
  intros s. destruct (contract s); [|apply keeps_lift].
  apply keeps_bind; [apply keeps_lift|]. intros c'.
  apply keeps_modS. intros s0. now split.
Qed.

Lemma keeps_puzzle_promises pk sigs :
  keeps (puzzle_promises NewPuzzlePromise pk sigs).
Proof.
  induction sigs as [|sig rest IH]; simpl; [apply keeps_ret|].
  apply keeps_bind; [apply keeps_world|]. intros [[a b] c].
  apply keeps_bind; [exact IH|]. intros [[x y] z]. apply keeps_ret.
Qed.

Lemma keeps_solution_promises pk ps :
  keeps (solution_promises NewSolutionPromise pk ps).
Proof.
  induction ps as [|p rest IH]; simpl; [apply keeps_ret|].
  apply keeps_bind; [apply keeps_world|]. intros [[a b] c].
  apply keeps_bind; [exact IH|]. intros [[x y] z]. apply keeps_ret.
Qed.

Lemma keeps_getEpochAddress h :
  keeps (getEpochAddress wallet_GetExtAddress h).
Proof.
  unfold getEpochAddress. apply keeps_bind; [apply keeps_getT|]. intros tb.
  apply keeps_bind; [apply keeps_lift|]. intros [a p | i |].
  - apply keeps_ret.
  - apply keeps_bind; [apply keeps_world|]. intros [addr pkey].
    apply keeps_bind; [apply keeps_getT|]. intros tb'.
    apply keeps_bind; [apply keeps_putT|]. intros _. apply keeps_ret.
  - apply keeps_lift.
Qed.

Lemma keeps_defer po u : keeps (@defer_validateOffer World po u).
Proof.
  unfold defer_validateOffer. apply keeps_bind; [apply keeps_getS|].
  intros s. apply keeps_bind; [apply keeps_getT|]. intros tb.
  apply keeps_putT.
Qed.

Ltac keeps_tac :=
  repeat first
    [ apply keeps_ret | apply keeps_lift | apply keeps_getS
    | apply keeps_getT | apply keeps_putT | apply keeps_clock
    | apply keeps_wallet | apply keeps_world | apply keeps_finalize
    | apply keeps_contract_SetAddress | apply keeps_puzzle_promises
    | apply keeps_solution_promises | apply keeps_getEpochAddress
    | apply keeps_defer
    | apply keeps_mwrap
    | apply keeps_modS; intros ?; split; reflexivity
    | apply keeps_modS;
      let x := fresh "x" in
      intros x; destruct (contract x); split; reflexivity
    | apply keeps_bind; [| intros ?] ].

Ltac no_err_tac :=
  repeat first
    [ apply no_err_ret | apply no_err_panic | apply no_err_getS
    | apply no_err_modS | apply no_err_finalize
    | apply no_err_bind; [| intros ?]
    | match goal with
      | |- no_err (match ?x with _ => _ end) => destruct x
      end ].

Ltac err_safe_tac :=
  cbv zeta;
  repeat first
    [ match goal with
      | |- err_safe (mbind (modS (set_state _)) _) =>
          apply err_safe_no_err; no_err_tac
      | |- err_safe (fail _) => apply err_safe_keeps; apply keeps_lift
      | |- err_safe (lift _) => apply err_safe_keeps; apply keeps_lift
      | |- err_safe (mbind _ _) =>
          apply err_safe_bind; [solve [keeps_tac] | intros ?]
      | |- err_safe (match ?x with _ => _ end) => destruct x
      | |- err_safe (if ?b then _ else _) => destruct b
      end ].

Lemma SetupEscrow_err_safe er :
  err_safe (SetupEscrow World wallet_CreateEscrow SetAddress er).
Proof. unfold SetupEscrow. err_safe_tac. Qed.

Lemma GetPuzzlePromises_err_safe cp :
  err_safe (GetPuzzlePromises World NewPuzzlePromise MarshalPubKey cp).
Proof. unfold GetPuzzlePromises. err_safe_tac. Qed.

Lemma ValidatePuzzles_err_safe cd :
  err_safe (ValidatePuzzles World blake2s_256 HashB GCD cd).
Proof. unfold ValidatePuzzles. err_safe_tac. Qed.

Lemma FinalizeEscrow_err_safe :
  err_safe (FinalizeEscrow World wallet_PublishEscrow).
Proof. unfold FinalizeEscrow. err_safe_tac. Qed.

Lemma GetSolutionPromises_err_safe sc :
  err_safe (GetSolutionPromises World NewSolutionPromise HashB sc).
Proof. unfold GetSolutionPromises. err_safe_tac. Qed.

Lemma ValidateSolutions_err_safe pd :
  err_safe (ValidateSolutions World pd).
Proof. unfold ValidateSolutions. err_safe_tac. Qed.

(** *** PaymentOffer *)

(** From the latched offer on: no error is returned, and the session
    ends with no latched error or with the state still at
    [OfferReceived]. *)
Definition continues (m : M World unit) : Prop :=
  forall st, err (sess st) = None -> state (sess st) = StateOfferReceived ->
    (forall e, fst (m st) <> Err e) /\
    (err (sess (snd (m st))) = None \/
     state (sess (snd (m st))) = StateOfferReceived).

(** From the latched offer on, an error is returned with the state at
    [OfferReceived]. *)
Definition offered {A} (m : M World A) : Prop :=
  forall st, err (sess st) = None -> state (sess st) = StateOfferReceived ->
    forall e, fst (m st) = Err e ->
    state (sess (snd (m st))) = StateOfferReceived.

(** An error is returned with the state as on entry or at
    [OfferReceived]. *)
Definition offer_safe {A} (m : M World A) : Prop :=
  forall st, err (sess st) = None ->
    forall e, fst (m st) = Err e ->
    state (sess (snd (m st))) = state (sess st) \/
    state (sess (snd (m st))) = StateOfferReceived.

Lemma continues_keeps (m : M World unit) :
  keeps m -> no_err m -> continues m.
Proof.
  intros Hk Hn st He Hs. split; [apply Hn|].
  left. rewrite (proj2 (Hk st)). exact He.
Qed.

Lemma continues_bind {A} (m : M World A) (k : A -> M World unit) :
  keeps m -> no_err m -> (forall a, continues (k a)) ->
  continues (mbind m k).
Proof.
  intros Hk Hn Hc st He Hs. specialize (Hk st). specialize (Hn st).
  unfold mbind. destruct (m st) as [[a| |] st1]; simpl in *.
  - apply Hc; destruct Hk; congruence.
  - exfalso. apply (Hn msg). reflexivity.
  - split; [discriminate|]. left. destruct Hk; congruence.
Qed.

Lemma continues_abort e : continues (@abort_exchange World e).
Proof.
  intros st He Hs. unfold abort_exchange, mbind, modS.
  pose proof (keeps_finalize ReasonFailedExchange None
                {| sess := set_err (Some e) (sess st); tum := tum st;
                   wld := wld st |}) as Hk.
  pose proof (no_err_finalize ReasonFailedExchange None
                {| sess := set_err (Some e) (sess st); tum := tum st;
                   wld := wld st |}) as Hn.
  destruct (finalize ReasonFailedExchange None _) as [[[]| |] st1];
    simpl in *; (split; [exact Hn || discriminate|]); right;
    destruct Hk; congruence.
Qed.

Lemma continues_or_abort {A} (m : M World A) (k : A -> M World unit) :
  keeps m -> (forall a, continues (k a)) -> continues (or_abort m k).
Proof.
  intros Hk Hc st He Hs. specialize (Hk st). unfold or_abort.
  destruct (m st) as [[a| |] st1]; simpl in *.
  - apply Hc; destruct Hk; congruence.
  - apply continues_abort; destruct Hk; congruence.
  - split; [discriminate|]. left. destruct Hk; congruence.
Qed.

Lemma continues_PublishSolution secrets :
  continues (or_abort (PublishSolution wallet_PublishSolution secrets)
               (fun _ => ret tt)).
Proof.
  intros st He Hs. unfold or_abort, PublishSolution, mbind, modS.
  pose proof (keeps_mwrap "failed to publish fulfilling tx :" _
                (keeps_wallet (wallet_PublishSolution secrets)) st) as Hk.
  destruct (mwrap _ (wallet (wallet_PublishSolution secrets)) st)
    as [[[]| |] st1]; simpl in Hk.
  - match goal with
    | |- context [finalize ?r ?d ?x] =>
        pose proof (keeps_finalize r d x) as Hf;
        pose proof (no_err_finalize r d x) as Hn;
        destruct (finalize r d x) as [[[]| |] st2]
    end; simpl in *.
    + split; [discriminate|]. left. destruct Hk, Hf. congruence.
    + exfalso. apply (Hn msg). reflexivity.
    + split; [discriminate|]. left. destruct Hk, Hf. congruence.
  - apply continues_abort; destruct Hk; congruence.
  - simpl. split; [discriminate|]. left. destruct Hk; congruence.
Qed.

Lemma collect_hashes_no_err s l e : collect_hashes s l <> Err e.
Proof.
  induction l as [|idx rest IH]; simpl; [discriminate|].
  unfold index. destruct ((idx <? 0) || _); [simpl; discriminate|].
  destruct (nth_error (puzzles s) (Z.to_nat idx)); simpl; [|discriminate].
  destruct (collect_hashes s rest); simpl; try discriminate.
  intros H. apply IH. injection H as ->. reflexivity.
Qed.

Lemma keeps_RevealSolution po : keeps (@RevealSolution World po).
Proof. unfold RevealSolution. keeps_tac. Qed.

Lemma continues_validateOffer po :
  continues (validateOffer wallet_ValidateOffer wallet_PublishSolution Now po).
Proof.
  unfold validateOffer.
  apply continues_bind; [apply keeps_getS | apply no_err_getS |]. intros s.
  apply continues_or_abort; [apply keeps_lift|]. intros _.
  apply continues_or_abort; [keeps_tac|]. intros valid.
  apply continues_bind;
    [apply keeps_clock | intros st e; discriminate |]. intros now.
  apply continues_bind; [apply keeps_getS | apply no_err_getS |]. intros s1.
  destruct (negb valid && (now >? deadline s1)); [apply continues_abort|].
  destruct (negb valid).
  - apply continues_keeps; [apply keeps_defer|].
    intros st e. discriminate.
  - apply continues_bind; [apply keeps_lift | |].
    + intros st e. simpl. apply collect_hashes_no_err.
    + intros _. apply continues_or_abort; [apply keeps_RevealSolution|].
      intros secrets. apply continues_PublishSolution.
Qed.

Lemma offered_keeps {A} (m : M World A) : keeps m -> offered m.
Proof. intros Hk st He Hs e _. rewrite (proj1 (Hk st)). exact Hs. Qed.

Lemma offered_bind {A B} (m : M World A) (k : A -> M World B) :
  keeps m -> (forall a, offered (k a)) -> offered (mbind m k).
Proof.
  intros Hk Ho st He Hs e. specialize (Hk st). unfold mbind.
  destruct (m st) as [[a| |] st1]; simpl in *; intros Hr.
  - apply (Ho a st1) with (e := e); destruct Hk; congruence.
  - destruct Hk; congruence.
  - discriminate.
Qed.

Lemma offered_after_validateOffer po :
  offered (mbind (validateOffer wallet_ValidateOffer wallet_PublishSolution
                    Now po)
             (fun _ => mbind getS (fun s =>
                match err s with
                | Some e => fail e
                | None => ret tt
                end))).
Proof.
  intros st He Hs e. pose proof (continues_validateOffer po st He Hs) as [Hn Hc].
  unfold mbind, getS.
  destruct (validateOffer _ _ _ po st) as [[[]| |] st1]; simpl in *.
  - destruct (err (sess st1)) eqn:E; simpl.
    + intros _. destruct Hc as [Hc | Hc]; [discriminate | exact Hc].
    + discriminate.
  - intros _. exfalso. apply (Hn msg). reflexivity.
  - discriminate.
Qed.

Lemma offer_safe_keeps {A} (m : M World A) : keeps m -> offer_safe m.
Proof. intros Hk st He e _. left. apply Hk. Qed.

Lemma offer_safe_bind {A B} (m : M World A) (k : A -> M World B) :
  keeps m -> (forall a, offer_safe (k a)) -> offer_safe (mbind m k).
Proof.
  intros Hk Ho st He e. specialize (Hk st). unfold mbind.
  destruct (m st) as [[a| |] st1]; simpl in *; intros Hr.
  - destruct Hk as [Hk1 Hk2].
    destruct (Ho a st1 ltac:(congruence) e Hr) as [H | H];
      [left; congruence | right; exact H].
  - left. apply Hk.
  - discriminate.
Qed.

Lemma offer_safe_latch {B} (k : unit -> M World B) :
  offered (k tt) ->
  offer_safe (mbind (modS (set_state StateOfferReceived)) k).
Proof.
  intros Ho st He e Hr. right. unfold mbind, modS in *. simpl in *.
  exact (Ho {| sess := set_state StateOfferReceived (sess st);
               tum := tum st; wld := wld st |} He eq_refl e Hr).
Qed.

Lemma PaymentOffer_offer_safe po :
  offer_safe (PaymentOffer World wallet_ImportEscrowScript
                wallet_ValidateOffer wallet_PublishSolution
                wallet_GetExtAddress SetAddress Now po).
Proof.
  unfold PaymentOffer.
  repeat first
    [ match goal with
      | |- offer_safe (mbind (modS (set_state _)) _) =>
          apply offer_safe_latch
      | |- offer_safe (fail _) => apply offer_safe_keeps; apply keeps_lift
      | |- offer_safe (lift _) => apply offer_safe_keeps; apply keeps_lift
      | |- offer_safe (mbind _ _) =>
          apply offer_safe_bind; [solve [keeps_tac] | intros ?]
      | |- offer_safe (match ?x with _ => _ end) => destruct x
      | |- offer_safe (if ?b then _ else _) => destruct b
      end ].
  cbv beta. apply offered_bind; [keeps_tac|]. intros valid.
  destruct (negb valid).
  - apply offered_keeps. keeps_tac.
  - apply offered_after_validateOffer.
Qed.

(** C2, as the code has it.  An error returned by [SetupEscrow],
    [GetPuzzlePromises], [ValidatePuzzles], [FinalizeEscrow],
    [GetSolutionPromises] or [ValidateSolutions] comes with the session's
    state as it was on entry.  [PaymentOffer] latches [OfferReceived]
    before it asks the wallet to validate the offer: on a session with
    no latched error, an error it returns comes with the state as on
    entry or at [OfferReceived]. *)
Theorem errors_and_state :
  (forall er st e,
     fst (SetupEscrow World wallet_CreateEscrow SetAddress er st) = Err e ->
     state (sess (snd (SetupEscrow World wallet_CreateEscrow SetAddress
                         er st))) = state (sess st)) /\
  (forall cp st e,
     fst (GetPuzzlePromises World NewPuzzlePromise MarshalPubKey cp st)
     = Err e ->
     state (sess (snd (GetPuzzlePromises World NewPuzzlePromise
                         MarshalPubKey cp st))) = state (sess st)) /\
  (forall cd st e,
     fst (ValidatePuzzles World blake2s_256 HashB GCD cd st) = Err e ->
     state (sess (snd (ValidatePuzzles World blake2s_256 HashB GCD cd st)))
     = state (sess st)) /\
  (forall st e,
     fst (FinalizeEscrow World wallet_PublishEscrow st) = Err e ->
     state (sess (snd (FinalizeEscrow World wallet_PublishEscrow st)))
     = state (sess st)) /\
  (forall sc st e,
     fst (GetSolutionPromises World NewSolutionPromise HashB sc st) = Err e ->
     state (sess (snd (GetSolutionPromises World NewSolutionPromise HashB
                         sc st))) = state (sess st)) /\
  (forall pd st e,
     fst (ValidateSolutions World pd st) = Err e ->
     state (sess (snd (ValidateSolutions World pd st))) = state (sess st)) /\
  (forall po st e,
     err (sess st) = None ->
     fst (PaymentOffer World wallet_ImportEscrowScript wallet_ValidateOffer
            wallet_PublishSolution wallet_GetExtAddress SetAddress Now
            po st) = Err e ->
     state (sess (snd (PaymentOffer World wallet_ImportEscrowScript
                         wallet_ValidateOffer wallet_PublishSolution
                         wallet_GetExtAddress SetAddress Now po st)))
     = state (sess st) \/
     state (sess (snd (PaymentOffer World wallet_ImportEscrowScript
                         wallet_ValidateOffer wallet_PublishSolution
                         wallet_GetExtAddress SetAddress Now po st)))
     = StateOfferReceived).
Proof.
  repeat split.
  - intros er. apply SetupEscrow_err_safe.
  - intros cp. apply GetPuzzlePromises_err_safe.
  - intros cd. apply ValidatePuzzles_err_safe.
  - apply FinalizeEscrow_err_safe.
  - intros sc. apply GetSolutionPromises_err_safe.
  - intros pd. apply ValidateSolutions_err_safe.
  - intros po st e He. now apply PaymentOffer_offer_safe.
Qed.

End HandlerErrors.

Lemma errors_and_state_witness :
  let st := {| tumbler.sess := sample.session tumbler.StateInitial [] [];
               tumbler.tum := sample.tb0; tumbler.wld := tt |} in
  let er := {| tumbler.er_Address := "a"; tumbler.er_PublicKey := "k";
               tumbler.er_Amount := contract.contractValue |} in
  tumbler.state
    (tumbler.sess
       (snd (tumbler.SetupEscrow unit sample.wallet_ok sample.address_ok
               er st)))
  = tumbler.state (tumbler.sess st).
Proof.
  intros st er.
  apply (proj1 (errors_and_state unit sample.wallet_ok sample.wallet_ok
                  sample.wallet_ok sample.wallet_offer_fails
                  sample.wallet_publish_ok sample.wallet_address
                  sample.address_ok
                  (fun w _ _ => (Err "no randomness", w))
                  (fun w _ _ => (Err "no randomness", w))
                  (fun _ => Ok []) (fun _ b => Ok b) (fun b => b)
                  (fun a b => (1, 0, 0)) (fun _ => 0))
           er st "no current epoch").
  reflexivity.
Defined.

(** The claim C2 as worded fails for [PaymentOffer]: when the wallet
    cannot validate the offer, the handler returns the error with the
    state moved from [SolutionsValidated] to [OfferReceived]. *)
Lemma PaymentOffer_error_after_latch :
  let st := {| tumbler.sess :=
                 sample.session tumbler.StateSolutionsValidated
                   [["001"%byte]] [["002"%byte]];
               tumbler.tum := sample.tb1; tumbler.wld := tt |} in
  let r := tumbler.PaymentOffer unit sample.wallet_ok
             sample.wallet_offer_fails sample.wallet_publish_ok
             sample.wallet_address sample.address_ok (fun _ => 0)
             sample.offer st in
  fst r = Err "failed to validate offer tx: rpc connection lost" /\
  tumbler.state (tumbler.sess st) = tumbler.StateSolutionsValidated /\
  tumbler.state (tumbler.sess (snd r)) = tumbler.StateOfferReceived.
Proof. vm_compute. repeat split. Qed.

(** ** Big integers and their bytes *)

Lemma fold_bytes_acc (l : list byte) (acc : Z) :
  fold_left (fun a x => a * 256 + Z_of_byte x) l acc =
  acc * 256 ^ len l + puzzle.SetBytes l.
Proof.
  unfold puzzle.SetBytes. revert acc.
  induction l as [|b l IH]; intros acc; cbn [fold_left].
  - change (len []) with 0. lia.
  - rewrite (IH (acc * 256 + Z_of_byte b)), (IH (0 * 256 + Z_of_byte b)).
    rewrite len_cons, Z.pow_add_r by (pose proof (len_nonneg l); lia).
    lia.
Qed.

Lemma SetBytes_cons (b : byte) (l : list byte) :
  puzzle.SetBytes (b :: l) = Z_of_byte b * 256 ^ len l + puzzle.SetBytes l.
Proof.
  unfold puzzle.SetBytes at 1. cbn [fold_left].
  rewrite fold_bytes_acc. lia.
Qed.

Lemma SetBytes_nonneg (l : list byte) : 0 <= puzzle.SetBytes l.
Proof.
  induction l as [|b l IH]; [unfold puzzle.SetBytes; simpl; lia|].
  rewrite SetBytes_cons. pose proof (Z_of_byte_range b).
  pose proof (len_nonneg l).
  assert (0 <= 256 ^ len l) by (apply Z.pow_nonneg; lia). nia.
Qed.

Lemma be_bytes_value (fuel : nat) :
  forall z acc, 0 <= z < 2 ^ Z.of_nat fuel ->
  puzzle.SetBytes (puzzle.be_bytes fuel z acc) =
  z * 256 ^ len acc + puzzle.SetBytes acc.
Proof.
  induction fuel as [|fuel IH]; intros z acc Hz.
  - simpl in *. assert (z = 0) by lia. subst. lia.
  - cbn [puzzle.be_bytes]. destruct (Z.eqb_spec z 0) as [->|Hnz]; [lia|].
    rewrite IH.
    + rewrite SetBytes_cons, Z_of_byte_of_Z, len_cons.
      rewrite Z.pow_add_r by (pose proof (len_nonneg acc); lia).
      rewrite (Z.div_mod z 256) at 3 by lia. lia.
    + split; [apply Z.div_pos; lia|].
      apply Z.div_lt_upper_bound; [lia|].
      rewrite Nat2Z.inj_succ, Z.pow_succ_r in Hz by lia. lia.
Qed.

(** Decoding the bytes of a nonnegative integer gives it back. *)
Lemma SetBytes_Bytes (z : Z) : 0 <= z -> puzzle.SetBytes (puzzle.Bytes z) = z.
Proof.
  intros Hz. unfold puzzle.Bytes. rewrite Z.abs_eq by exact Hz.
  rewrite be_bytes_value.
  - change (len []) with 0. unfold puzzle.SetBytes. simpl. lia.
  - split; [exact Hz|].
    rewrite Nat2Z.inj_succ, Z2Nat.id by apply Z.log2_nonneg.
    destruct (Z.eq_dec z 0) as [->|Hnz]; [reflexivity|].
    apply Z.log2_spec. lia.
Qed.

Lemma ConstantTimeCompare_same (x : list byte) :
  puzzle.ConstantTimeCompare x x = 1.
Proof. unfold puzzle.ConstantTimeCompare. now rewrite bytes_eqb_refl. Qed.

Lemma Exp_pos (x y m : Z) : 0 < m -> puzzle.Exp x y m = x ^ y mod m.
Proof.
  intros Hm. unfold puzzle.Exp.
  destruct (Z.eqb_spec m 0); [lia|]. now rewrite Z.abs_eq by lia.
Qed.

Lemma Mod_pos (x m : Z) : 0 < m -> puzzle.Mod x m = x mod m.
Proof. intros Hm. unfold puzzle.Mod. now rewrite Z.abs_eq by lia. Qed.

Lemma index_app_len {A} (pre : list A) (x : A) (l : list A) :
  index (pre ++ x :: l) (len pre) = Ok x.
Proof.
  unfold index. pose proof (len_nonneg pre). rewrite len_app, len_cons.
  pose proof (len_nonneg l).
  destruct (Z.ltb_spec (len pre) 0); [lia|].
  destruct (Z.leb_spec (len pre + (len l + 1)) (len pre)); [lia|]. simpl.
  unfold len. rewrite Nat2Z.id, nth_error_app2 by lia.
  now rewrite Nat.sub_diag.
Qed.

Lemma sample_GCD_contract : spec.GCD_contract sample.GCD.
Proof.
  intros a b _ _. unfold sample.GCD.
  destruct (Z.extgcd a b) as [[u v] d] eqn:E.
  apply Z.extgcd_correct in E. destruct E as [E1 E2]. split; lia.
Qed.

(** ** Quotient chains *)

Section QuotientChain.

Variable GCD : Z -> Z -> Z * Z * Z.
Hypothesis GCD_ok : spec.GCD_contract GCD.

Variable pk : puzzle.PuzzlePubKey.
Let N := puzzle.N pk.
Let E := puzzle.E pk.

Lemma unit_mod_modulus (s : Z) : spec.unit_mod N s -> 2 <= N.
Proof. unfold spec.unit_mod. lia. Qed.

Lemma modInverse_unit (a : Z) :
  spec.unit_mod N a ->
  exists ai, puzzle.modInverse GCD a N = Some ai /\ (a * ai) mod N = 1.
Proof.
  intros [Ha Hg]. unfold puzzle.modInverse.
  pose proof (GCD_ok a N ltac:(lia) ltac:(lia)) as H.
  destruct (GCD a N) as [[g x] y]. destruct H as [Hgcd Hbez].
  rewrite Hg in Hgcd. subst g. simpl.
  eexists. split; [reflexivity|].
  assert (Hx : (a * x) mod N = 1).
  { replace (a * x) with (1 + (- y) * N) by lia.
    rewrite Z.mod_add by lia. apply Z.mod_small. lia. }
  destruct (x <? 1); [|exact Hx].
  replace (a * (x + N)) with (a * x + a * N) by lia.
  now rewrite Z.mod_add by lia.
Qed.

Lemma Quotients_from_chained (rest : list Z) :
  forall prev acc,
    spec.unit_mod N prev -> Forall (spec.unit_mod N) rest ->
    exists qs,
      puzzle.Quotients_from GCD pk (puzzle.Bytes prev)
        (map puzzle.Bytes rest) acc = Ok (acc ++ qs) /\
      spec.chained N prev rest qs.
Proof.
  induction rest as [|cur rest IH]; intros prev acc Hprev Hrest.
  - exists []. simpl. now rewrite app_nil_r.
  - inversion Hrest as [|? ? Hcur Hrest']; subst.
    pose proof (unit_mod_modulus _ Hprev) as HN.
    cbn [map puzzle.Quotients_from].
    rewrite !SetBytes_Bytes by (unfold spec.unit_mod in *; lia).
    fold N. destruct (modInverse_unit prev Hprev) as (ai & -> & Hai).
    rewrite Mod_pos by lia.
    destruct (IH cur (acc ++ [puzzle.Bytes ((cur * ai) mod N)]) Hcur Hrest')
      as (qs & -> & Hqs).
    exists (puzzle.Bytes ((cur * ai) mod N) :: qs). split.
    + now rewrite <- app_assoc.
    + simpl. split; [|exact Hqs].
      rewrite SetBytes_Bytes by (apply Z.mod_pos_bound; lia).
      rewrite Z.mul_mod_idemp_r by lia.
      replace (prev * (cur * ai)) with (cur * (prev * ai)) by lia.
      rewrite <- Z.mul_mod_idemp_r, Hai, Z.mul_1_r by lia.
      apply Z.mod_small. unfold spec.unit_mod in Hcur. lia.
Qed.

Lemma chained_in_range (rest : list Z) :
  forall prev qs, 0 < N -> spec.chained N prev rest qs ->
  Forall (fun s => 0 <= s < N) rest.
Proof.
  induction rest as [|s rest IH]; intros prev [|q qs] HN H;
    simpl in H; try contradiction; constructor.
  - destruct H as [<- _]. apply Z.mod_pos_bound. lia.
  - eapply IH; [exact HN | apply H].
Qed.

Lemma verify_secrets_from (rest : list Z) :
  forall qs pre prev, 0 < N ->
    spec.chained N prev rest qs ->
    puzzle.VerifyQuotientsWithSecrets_from pk
      (pre ++ map puzzle.Bytes rest) (len pre) qs prev = Ok true.
Proof.
  induction rest as [|s rest IH]; intros [|q qs] pre prev HN H;
    simpl in H; try contradiction; [reflexivity|].
  destruct H as [Hs Hrest].
  cbn [map puzzle.VerifyQuotientsWithSecrets_from].
  fold N. rewrite Mod_pos, Hs by lia.
  rewrite index_app_len. cbn [bind].
  rewrite ConstantTimeCompare_same. cbn [Z.eqb Pos.eqb negb].
  replace (pre ++ puzzle.Bytes s :: map puzzle.Bytes rest)
    with ((pre ++ [puzzle.Bytes s]) ++ map puzzle.Bytes rest)
    by (now rewrite <- app_assoc).
  replace (len pre + 1) with (len (pre ++ [puzzle.Bytes s]))
    by (rewrite len_app; reflexivity).
  now apply IH.
Qed.

Lemma verify_puzzles_from (rest : list Z) :
  forall qs pre prev, 0 < N -> 0 <= prev < N ->
    spec.chained N prev rest qs ->
    puzzle.VerifyQuotients_from pk
      (pre ++ spec.puzzle_of pk prev :: map (spec.puzzle_of pk) rest)
      (len pre + 1) qs = Ok true.
Proof.
  induction rest as [|s rest IH]; intros [|q qs] pre prev HN Hprev H;
    simpl in H; try contradiction; [reflexivity|].
  destruct H as [Hs Hrest].
  cbn [map puzzle.VerifyQuotients_from].
  replace (len pre + 1 - 1) with (len pre) by lia.
  rewrite index_app_len. cbn [bind].
  replace (pre ++ spec.puzzle_of pk prev
               :: spec.puzzle_of pk s :: map (spec.puzzle_of pk) rest)
    with ((pre ++ [spec.puzzle_of pk prev])
            ++ spec.puzzle_of pk s :: map (spec.puzzle_of pk) rest)
    by (now rewrite <- app_assoc).
  replace (len pre + 1) with (len (pre ++ [spec.puzzle_of pk prev]))
    by (rewrite len_app; reflexivity).
  rewrite index_app_len. cbn [bind].
  assert (Heq : puzzle.Mod
                  (puzzle.SetBytes (spec.puzzle_of pk prev) *
                   puzzle.Exp (puzzle.SetBytes q) (puzzle.E pk)
                     (puzzle.N pk)) (puzzle.N pk)
                = s ^ E mod N).
  { fold N E. rewrite Mod_pos, Exp_pos by lia.
    unfold spec.puzzle_of. fold N E.
    rewrite SetBytes_Bytes by (apply Z.mod_pos_bound; lia).
    rewrite <- Z.mul_mod by lia.
    rewrite <- Z.pow_mul_l, <- Hs. now rewrite Z.mod_pow_l. }
  rewrite Heq. unfold spec.puzzle_of at 2. fold N E.
  rewrite ConstantTimeCompare_same. cbn [Z.eqb Pos.eqb negb].
  apply IH; [exact HN | | exact Hrest].
  rewrite <- Hs. apply Z.mod_pos_bound. lia.
Qed.

(** C5. For a non-empty list of secrets that are the encodings of
    integers in (0, N) coprime to N, [Quotients] succeeds with a list
    that starts with the encoding of 1, and both verifiers accept it:
    [VerifyQuotientsWithSecrets] on the secrets, and [VerifyQuotients],
    which checks from index 1, on the puzzles s^e mod N. *)
Theorem quotient_chain (s0 : Z) (ss : list Z) :
  0 < E ->
  Forall (spec.unit_mod N) (s0 :: ss) ->
  let secrets := map puzzle.Bytes (s0 :: ss) in
  let puzzles := map (spec.puzzle_of pk) (s0 :: ss) in
  exists qs,
    puzzle.Quotients GCD pk secrets = Ok (puzzle.Bytes 1 :: qs) /\
    puzzle.VerifyQuotientsWithSecrets pk (puzzle.Bytes 1 :: qs) secrets
    = Ok true /\
    puzzle.VerifyQuotients pk (puzzle.Bytes 1 :: qs) puzzles = Ok true.
Proof.
  intros HE Hall. inversion Hall as [|? ? H0 Hss]; subst.
  pose proof (unit_mod_modulus _ H0) as HN.
  destruct (Quotients_from_chained ss s0 [puzzle.Bytes 1] H0 Hss)
    as (qs & Hq & Hch).
  exists qs. cbn zeta. split; [exact Hq | split].
  - unfold puzzle.VerifyQuotientsWithSecrets.
    change (index (map puzzle.Bytes (s0 :: ss)) 0) with (Ok (puzzle.Bytes s0)).
    cbn [bind puzzle.VerifyQuotientsWithSecrets_from].
    rewrite !SetBytes_Bytes by (unfold spec.unit_mod in H0; lia).
    fold N. rewrite Mod_pos, Z.mul_1_r by lia.
    rewrite Z.mod_small by (unfold spec.unit_mod in H0; lia).
    change (index (map puzzle.Bytes (s0 :: ss)) 0) with (Ok (puzzle.Bytes s0)).
    cbn [bind]. rewrite ConstantTimeCompare_same. cbn [Z.eqb Pos.eqb negb].
    apply (verify_secrets_from ss qs [puzzle.Bytes s0] s0); [lia | exact Hch].
  - unfold puzzle.VerifyQuotients. cbn [tl].
    apply (verify_puzzles_from ss qs [] s0); [lia | | exact Hch].
    unfold spec.unit_mod in H0. lia.
Qed.

End QuotientChain.

Lemma quotient_chain_witness :
  let pk := puzzle.PublicKey sample.key in
  exists qs,
    puzzle.Quotients sample.GCD pk (map puzzle.Bytes [2; 11; 4; 104])
    = Ok (puzzle.Bytes 1 :: qs) /\
    puzzle.VerifyQuotientsWithSecrets pk (puzzle.Bytes 1 :: qs)
      (map puzzle.Bytes [2; 11; 4; 104]) = Ok true /\
    puzzle.VerifyQuotients pk (puzzle.Bytes 1 :: qs)
      (map (spec.puzzle_of pk) [2; 11; 4; 104]) = Ok true.
Proof.
  intros pk.
  apply (quotient_chain sample.GCD sample_GCD_contract pk 2 [11; 4; 104]).
  - reflexivity.
  - repeat constructor; try reflexivity.
Defined.

(** ** RSA puzzles *)

(** Fermat: an exponent that is 1 modulo p - 1 acts as the identity
    modulo the prime p. *)
Lemma pow_one_mod_pred (p k x : Z) :
  Z.prime p -> 0 <= k -> k mod (p - 1) = 1 -> x ^ k mod p = x mod p.
Proof.
  intros Hp Hk Hk1. pose proof (Z.prime_ge_2 p Hp) as Hp2.
  assert (Hp3 : 2 <= p - 1).
  { destruct (Z.eq_dec p 2) as [->|]; [|lia].
    change (2 - 1) with 1 in Hk1. rewrite Z.mod_1_r in Hk1. discriminate. }
  pose proof (Z.div_mod k (p - 1) ltac:(lia)) as Hdiv. rewrite Hk1 in Hdiv.
  assert (Ht : 0 <= k / (p - 1)) by (apply Z.div_pos; lia).
  set (t := k / (p - 1)) in *.
  assert (Hkpos : 0 < k) by nia.
  destruct (Z.eq_dec (x mod p) 0) as [Hz|Hnz].
  - rewrite <- Z.mod_pow_l, Hz, Z.pow_0_l by exact Hkpos.
    apply Zmod_0_l.
  - rewrite Hdiv, Z.pow_add_r, Z.pow_1_r, Z.pow_mul_r by lia.
    rewrite Z.mul_mod, <- (Z.mod_pow_l (x ^ (p - 1))) by lia.
    rewrite (Z.fermat_nz p x Hp Hnz), Z.pow_1_l by lia.
    rewrite (Z.mod_small 1) by lia.
    now rewrite Z.mul_1_l, Z.mod_mod by lia.
Qed.

(** Decrypting modulo a prime factor: with [e*d = 1 mod (p-1)] and an
    exponent [d'] congruent to [d], the power [d'] of [y^e mod n] is
    [y] modulo [p]. *)
Lemma rsa_mod_prime (p n e d d' y : Z) :
  Z.prime p -> (p | n) -> 0 < n -> 0 < e -> 0 <= d' ->
  (e * d) mod (p - 1) = 1 -> d' mod (p - 1) = d mod (p - 1) ->
  (y ^ e mod n) ^ d' mod p = y mod p.
Proof.
  intros Hp Hdiv Hn He Hd' Hed Hdd. pose proof (Z.prime_ge_2 p Hp).
  rewrite <- Z.mod_pow_l, Z.mod_mod_divide by exact Hdiv.
  rewrite Z.mod_pow_l, <- Z.pow_mul_r by lia.
  apply pow_one_mod_pred; [exact Hp | nia |].
  rewrite <- Z.mul_mod_idemp_r, Hdd, Z.mul_mod_idemp_r; [exact Hed | |].
  all: destruct (Z.eq_dec p 2) as [->|]; [|lia];
    change (2 - 1) with 1 in Hed; rewrite Z.mod_1_r in Hed; discriminate.
Qed.

Lemma coprime_divide_mul (a b z : Z) :
  Z.gcd a b = 1 -> (a | z) -> (b | z) -> (a * b | z).
Proof.
  intros Hg Ha [k ->]. rewrite (Z.mul_comm a b).
  rewrite (Z.mul_comm k b). apply Z.mul_divide_mono_l.
  apply (Z.gauss a b k); [|exact Hg]. now rewrite Z.mul_comm.
Qed.

Lemma prime_divide_product (p : Z) (l : list Z) :
  Z.prime p -> Forall Z.prime l -> (p | spec.product l) -> In p l.
Proof.
  intros Hp Hl. induction Hl as [|q l Hq _ IH]; simpl; intros Hd.
  - exfalso. pose proof (Z.prime_ge_2 p Hp).
    apply Z.divide_1_r in Hd. lia.
  - apply Z.divide_prime_mul in Hd; [|exact Hp]. destruct Hd as [Hd|Hd].
    + left. symmetry. now apply Z.divide_prime_prime.
    + right. now apply IH.
Qed.

Lemma in_divide_product (p : Z) (l : list Z) :
  In p l -> (p | spec.product l).
Proof.
  induction l as [|q l IH]; simpl; [contradiction|].
  intros [-> | H]; [apply Z.divide_factor_l|].
  apply Z.divide_mul_r. now apply IH.
Qed.

Lemma product_pos (l : list Z) : Forall Z.prime l -> 0 < spec.product l.
Proof.
  induction 1 as [|p l Hp _ IH]; simpl; [lia|].
  pose proof (Z.prime_ge_2 p Hp). nia.
Qed.

(** Chinese remainders: what every one of the distinct primes divides,
    their product divides. *)
Lemma primes_divide_product (l : list Z) (z : Z) :
  Forall Z.prime l -> NoDup l -> (forall p, In p l -> (p | z)) ->
  (spec.product l | z).
Proof.
  intros Hl Hnd. induction Hl as [|p l Hp Hl IH]; intros Hz; simpl.
  - apply Z.divide_1_l.
  - inversion Hnd as [|? ? Hnin Hnd']; subst.
    apply coprime_divide_mul.
    + apply Z.coprime_prime_l; [exact Hp|].
      intros Hd. apply Hnin. now apply prime_divide_product.
    + apply Hz. now left.
    + apply IH; [exact Hnd'|]. intros q Hq. apply Hz. now right.
Qed.

Lemma congruent_mod_product (l : list Z) (a b : Z) :
  Forall Z.prime l -> NoDup l ->
  (forall p, In p l -> a mod p = b mod p) ->
  a mod spec.product l = b mod spec.product l.
Proof.
  intros Hl Hnd H. pose proof (product_pos l Hl).
  apply Z.cong_iff_0. apply Z.mod_divide; [lia|].
  apply primes_divide_product; [exact Hl | exact Hnd |].
  intros p Hp. rewrite Forall_forall in Hl.
  pose proof (Z.prime_ge_2 p (Hl p Hp)).
  apply Z.mod_divide; [lia|]. apply Z.cong_iff_0. now apply H.
Qed.

Lemma garner_step (P m m2 coeff r : Z) :
  0 < P -> (coeff * r) mod P = 1 ->
  (m + ((m2 - m) * coeff) mod P * r) mod P = m2 mod P.
Proof.
  intros HP Hc. apply Z.cong_iff_ex.
  pose proof (Z.div_mod ((m2 - m) * coeff) P ltac:(lia)) as Hx.
  pose proof (Z.div_mod (coeff * r) P ltac:(lia)) as Hcr. rewrite Hc in Hcr.
  set (a := ((m2 - m) * coeff) / P) in *.
  set (b := (coeff * r) / P) in *.
  exists ((m2 - m) * b - a * r).
  replace (((m2 - m) * coeff) mod P) with ((m2 - m) * coeff - P * a) by lia.
  replace ((m2 - m) * coeff - P * a) with ((m2 - m) * coeff - P * a) by lia.
  transitivity ((m2 - m) * (coeff * r) - P * a * r - (m2 - m)); [ring|].
  rewrite Hcr. ring.
Qed.

Lemma add_multiple_mod (p m t r : Z) :
  (p | r) -> (m + t * r) mod p = m mod p.
Proof.
  intros [k ->]. replace (m + t * (k * p)) with (m + (t * k) * p) by ring.
  destruct (Z.eq_dec p 0) as [->|]; [now rewrite Z.mul_0_r, Z.add_0_r|].
  now apply Z.mod_add.
Qed.

Section RSAKey.

Variable pk : puzzle.PuzzleKey.
Hypothesis pk_valid : spec.valid_key pk.

Let priv := puzzle.rsakey pk.
Let N := puzzle.N (puzzle.PublicKey_ priv).
Let E := puzzle.E (puzzle.PublicKey_ priv).
Let D := puzzle.D priv.
Let primes := puzzle.Primes priv.

Lemma key_primes : Forall Z.prime primes.
Proof. apply pk_valid. Qed.

Lemma key_modulus : N = spec.product primes.
Proof. apply pk_valid. Qed.

Lemma key_N_pos : 0 < N.
Proof. rewrite key_modulus. apply product_pos, key_primes. Qed.

Lemma key_E_pos : 0 < E.
Proof. apply pk_valid. Qed.

Lemma key_D_pos : 0 < D.
Proof. apply pk_valid. Qed.

Lemma key_prime_facts (p : Z) :
  In p primes ->
  Z.prime p /\ (p | N) /\ (E * D) mod (p - 1) = 1 /\ 2 <= p - 1.
Proof.
  intros Hin. pose proof key_primes as Hpr.
  assert (Hed : Forall (fun p => (E * D) mod (p - 1) = 1) primes)
    by apply pk_valid.
  rewrite Forall_forall in Hpr, Hed.
  pose proof (Hpr p Hin) as Hp. pose proof (Hed p Hin) as He.
  pose proof (Z.prime_ge_2 p Hp).
  split; [exact Hp | split; [|split; [exact He|]]].
  - rewrite key_modulus. now apply in_divide_product.
  - destruct (Z.eq_dec p 2) as [->|]; [|lia].
    change (2 - 1) with 1 in He. rewrite Z.mod_1_r in He. discriminate.
Qed.

(** The power [D mod (p-1)] of a ciphertext is the plaintext modulo
    the prime [p] of the key. *)
Lemma decrypt_mod_prime (p y : Z) :
  In p primes ->
  puzzle.Exp (y ^ E mod N) (D mod (p - 1)) p = y mod p.
Proof.
  intros Hin. destruct (key_prime_facts p Hin) as (Hp & Hdiv & Hed & Hp1).
  rewrite Exp_pos by lia.
  apply (rsa_mod_prime p N E D); try assumption.
  - apply key_N_pos.
  - apply key_E_pos.
  - apply Z.mod_pos_bound. lia.
  - apply Z.mod_mod. lia.
Qed.

Lemma crt_loop_correct (y : Z) (rest : list Z) :
  forall values processed m i,
    primes = processed ++ rest -> len processed = 2 + i ->
    spec.crt_values_ok D (spec.product processed) rest values ->
    (forall p, In p processed -> m mod p = y mod p) ->
    exists m',
      puzzle.crt_loop (y ^ E mod N) primes i values m = Ok m' /\
      forall p, In p primes -> m' mod p = y mod p.
Proof.
  induction rest as [|P rest IH]; intros [|v values] processed m i
    Hsplit Hlen Hvals Hm; simpl in Hvals; try contradiction.
  - exists m. split; [reflexivity|]. rewrite Hsplit, app_nil_r. exact Hm.
  - destruct Hvals as (Hexp & HR & Hcoeff & Hvals).
    assert (HinP : In P primes).
    { rewrite Hsplit. apply in_or_app. right. now left. }
    destruct (key_prime_facts P HinP) as (HP & _ & _ & HP1).
    cbn [puzzle.crt_loop].
    assert (Hidx : index primes (2 + i) = Ok P).
    { rewrite Hsplit, <- Hlen. apply index_app_len. }
    rewrite Hidx. cbn [bind].
    rewrite Hexp, HR, (decrypt_mod_prime P y HinP).
    rewrite Mod_pos by lia.
    destruct (Z.ltb_spec (((y mod P - m) * puzzle.Coeff v) mod P) 0) as [Hneg|_].
    { pose proof (Z.mod_pos_bound ((y mod P - m) * puzzle.Coeff v) P
                    ltac:(lia)). lia. }
    apply (IH values (processed ++ [P])).
    + rewrite Hsplit, <- app_assoc. reflexivity.
    + rewrite len_app. change (len [P]) with 1. lia.
    + replace (spec.product (processed ++ [P]))
        with (spec.product processed * P); [exact Hvals|].
      clear. unfold spec.product.
      induction processed as [|a l IHl]; cbn [fold_right app]; [lia|].
      rewrite <- IHl. ring.
    + intros p Hin. apply in_app_or in Hin. destruct Hin as [Hin | [<- | []]].
      * rewrite add_multiple_mod; [now apply Hm|].
        now apply in_divide_product.
      * rewrite garner_step by (try exact Hcoeff; lia).
        apply Z.mod_mod. lia.
Qed.

(** The decryption proper, before unblinding: on the encryption of [y]
    it gives an integer congruent to [y] modulo N. *)
Lemma decrypt_core (y : Z) :
  exists m,
    match puzzle.Dp (puzzle.Precomputed priv) with
    | None => Ok (puzzle.Exp (y ^ E mod N) (puzzle.D priv)
                    (puzzle.N (puzzle.PublicKey_ priv)))
    | Some dp =>
        p0 <- index (puzzle.Primes priv) 0 ;;
        let m := puzzle.Exp (y ^ E mod N) dp p0 in
        p1 <- index (puzzle.Primes priv) 1 ;;
        let m2 := puzzle.Exp (y ^ E mod N)
                    (puzzle.Dq (puzzle.Precomputed priv)) p1 in
        let m := m - m2 in
        let m := if m <? 0 then m + p0 else m in
        let m := m * puzzle.Qinv (puzzle.Precomputed priv) in
        let m := puzzle.Mod m p0 in
        let m := m * p1 in
        let m := m + m2 in
        puzzle.crt_loop (y ^ E mod N) (puzzle.Primes priv) 0
          (puzzle.CRTValues (puzzle.Precomputed priv)) m
    end = Ok m /\
    m mod N = y mod N.
Proof.
  pose proof key_primes as Hpr. pose proof key_N_pos as HN.
  assert (Hnd : NoDup primes) by apply pk_valid.
  assert (Hcong : forall m, (forall p, In p primes -> m mod p = y mod p) ->
                            m mod N = y mod N).
  { intros m H. rewrite key_modulus.
    now apply congruent_mod_product. }
  assert (Hpre : spec.precomputed_ok priv) by apply pk_valid.
  unfold spec.precomputed_ok in Hpre.
  change (puzzle.Primes priv) with primes in Hpre |- *.
  change (puzzle.D priv) with D in Hpre |- *.
  change (puzzle.N (puzzle.PublicKey_ priv)) with N.
  destruct (puzzle.Dp (puzzle.Precomputed priv)) as [dp|].
  - destruct primes as [|p [|q rest]] eqn:Eprimes; try contradiction.
    destruct Hpre as (Hdp & Hdq & Hqinv & Hvals).
    assert (Hinp : In p primes) by (rewrite Eprimes; now left).
    assert (Hinq : In q primes) by (rewrite Eprimes; right; now left).
    destruct (key_prime_facts p Hinp) as (Hp & _ & _ & Hp1).
    destruct (key_prime_facts q Hinq) as (Hq & _ & _ & Hq1).
    rewrite (index_app_len [] p (q :: rest) : index (p :: q :: rest) 0 = _).
    rewrite (index_app_len [p] q rest : index (p :: q :: rest) 1 = _).
    cbn [bind]. cbv zeta.
    rewrite Hdp, Hdq, (decrypt_mod_prime p y Hinp),
      (decrypt_mod_prime q y Hinq).
    rewrite Mod_pos by lia.
    rewrite <- Eprimes.
    destruct (crt_loop_correct y rest
                (puzzle.CRTValues (puzzle.Precomputed priv)) [p; q]
                (((if y mod p - y mod q <? 0
                   then y mod p - y mod q + p
                   else y mod p - y mod q) *
                  puzzle.Qinv (puzzle.Precomputed priv)) mod p * q
                 + y mod q) 0)
      as (m' & Hloop & Hm').
    + exact Eprimes.
    + reflexivity.
    + simpl. rewrite Z.mul_1_r. exact Hvals.
    + intros r [<- | [<- | []]].
      * rewrite Z.add_comm.
        replace (y mod q +
                 ((if y mod p - y mod q <? 0
                   then y mod p - y mod q + p
                   else y mod p - y mod q) *
                  puzzle.Qinv (puzzle.Precomputed priv)) mod p * q)
          with (y mod q +
                ((y mod p + (if y mod p - y mod q <? 0 then p else 0)
                  - y mod q) *
                 puzzle.Qinv (puzzle.Precomputed priv)) mod p * q)
          by (destruct (y mod p - y mod q <? 0); do 3 f_equal; lia).
        rewrite garner_step by (try exact Hqinv; lia).
        destruct (y mod p - y mod q <? 0).
        -- replace (y mod p + p) with (y mod p + 1 * p) by lia.
           rewrite Z.mod_add by lia. apply Z.mod_mod. lia.
        -- rewrite Z.add_0_r. apply Z.mod_mod. lia.
      * rewrite Z.add_comm, add_multiple_mod by apply Z.divide_refl.
        apply Z.mod_mod. lia.
    + exists m'. split; [exact Hloop|]. apply Hcong.
      intros r Hr. apply Hm'. rewrite Eprimes. exact Hr.
  - eexists. split; [reflexivity|]. apply Hcong. intros p Hin.
    destruct (key_prime_facts p Hin) as (Hp & Hdiv & Hed & Hp1).
    rewrite Exp_pos by lia.
    rewrite Z.mod_mod_divide by exact Hdiv.
    apply (rsa_mod_prime p N E D); try assumption.
    + apply key_E_pos.
    + pose proof key_D_pos. lia.
    + reflexivity.
Qed.

End RSAKey.

(** C6. For an RSA puzzle key and a secret [s] in [0, N), on the puzzle
    that encodes s^e mod N: [SolvePuzzle] returns the encoding of [s]
    (the blinding with the key's factor is undone by its inverse), and
    [ValidatePuzzle] accepts the secret; [ValidatePuzzle] rejects every
    candidate secret that is N or more. *)
Theorem puzzle_solving (pk : puzzle.PuzzleKey) (s : Z) :
  spec.valid_key pk ->
  0 <= s < puzzle.N (puzzle.PublicKey pk) ->
  let pub := puzzle.PublicKey pk in
  let pz := spec.puzzle_of pub s in
  puzzle.SolvePuzzle pk pz = Ok (puzzle.Bytes s) /\
  puzzle.ValidatePuzzle pub pz (puzzle.Bytes s) = true /\
  (forall pz' secret,
     puzzle.N pub <= puzzle.SetBytes secret ->
     puzzle.ValidatePuzzle pub pz' secret = false).
Proof.
  intros Hvalid Hs pub pz.
  pose proof (key_N_pos pk Hvalid) as HN.
  pose proof (key_E_pos pk Hvalid) as HE.
  assert (Hf : (puzzle.factor pk * puzzle.inverse pk)
               mod puzzle.N (puzzle.PublicKey_ (puzzle.rsakey pk)) = 1)
    by apply Hvalid.
  set (N := puzzle.N (puzzle.PublicKey_ (puzzle.rsakey pk))) in *.
  set (E := puzzle.E (puzzle.PublicKey_ (puzzle.rsakey pk))) in *.
  change (puzzle.N (puzzle.PublicKey pk)) with N in Hs.
  assert (Hpz : puzzle.SetBytes pz = s ^ E mod N).
  { unfold pz, spec.puzzle_of. apply SetBytes_Bytes.
    apply Z.mod_pos_bound. exact HN. }
  assert (Hcreate : puzzle.createPuzzle pub s = pz).
  { unfold puzzle.createPuzzle, pz, spec.puzzle_of.
    change (puzzle.N pub) with N. change (puzzle.E pub) with E.
    now rewrite Exp_pos by exact HN. }
  split; [|split].
  - unfold puzzle.SolvePuzzle, puzzle.decryptPuzzle. cbv zeta.
    fold N E. rewrite Hpz.
    pose proof (Z.mod_pos_bound (s ^ E) N HN) as Hc.
    destruct (Z.gtb_spec (s ^ E mod N) N) as [Hgt|_]; [lia|].
    rewrite Mod_pos, Exp_pos by exact HN.
    rewrite <- Z.mul_mod, <- Z.pow_mul_l by lia.
    destruct (decrypt_core pk Hvalid (s * puzzle.factor pk))
      as (m & Hm & Hcong).
    cbv zeta in Hm. fold N E in Hm, Hcong. rewrite Hm. cbn [bind].
    assert (Hfinal : (m * puzzle.inverse pk) mod N = s).
    { rewrite <- Z.mul_mod_idemp_l, Hcong, Z.mul_mod_idemp_l by lia.
      rewrite <- Z.mul_assoc, <- Z.mul_mod_idemp_r, Hf, Z.mul_1_r by lia.
      apply Z.mod_small. exact Hs. }
    rewrite Mod_pos, Hfinal by exact HN.
    fold pub. rewrite Hcreate, ConstantTimeCompare_same. reflexivity.
  - unfold puzzle.ValidatePuzzle.
    rewrite SetBytes_Bytes by lia. change (puzzle.N pub) with N.
    destruct (Z.geb_spec s N) as [Hge|_]; [lia|].
    rewrite Hcreate, ConstantTimeCompare_same. reflexivity.
  - intros pz' secret Hge. unfold puzzle.ValidatePuzzle.
    destruct (Z.geb_spec (puzzle.SetBytes secret) (puzzle.N pub));
      [reflexivity | lia].
Qed.

Lemma sample_key_valid : spec.valid_key sample.key.
Proof.
  unfold spec.valid_key. cbn.
  repeat match goal with |- _ /\ _ => split end;
    try reflexivity; try lia.
  - constructor; [apply Z.prime_3|].
    constructor; [|constructor; [|constructor]].
    + split; [lia|]. intros n Hn [k Hk].
      assert (n = 2 \/ n = 3 \/ n = 4) as [-> | [-> | ->]] by lia; lia.
    + split; [lia|]. intros n Hn [k Hk].
      assert (n = 2 \/ n = 3 \/ n = 4 \/ n = 5 \/ n = 6)
        as [-> | [-> | [-> | [-> | ->]]]] by lia; lia.
  - repeat constructor; simpl; intuition lia.
  - repeat constructor.
Qed.

Lemma puzzle_solving_witness :
  let pub := puzzle.PublicKey sample.key in
  let pz := spec.puzzle_of pub 52 in
  puzzle.SolvePuzzle sample.key pz = Ok (puzzle.Bytes 52) /\
  puzzle.ValidatePuzzle pub pz (puzzle.Bytes 52) = true /\
  (forall pz' secret,
     puzzle.N pub <= puzzle.SetBytes secret ->
     puzzle.ValidatePuzzle pub pz' secret = false).
Proof.
  apply (puzzle_solving sample.key 52 sample_key_valid).
  simpl. lia.
Defined.

(** ** The shuffle *)

Lemma set_nth_length {A} (l : list A) (n : nat) (x : A) :
  List.length (set_nth l n x) = List.length l.
Proof.
  revert n. induction l as [|a l IH]; intros [|n]; simpl; auto.
Qed.

Lemma nth_set_nth_same {A} (l : list A) (n : nat) (x d : A) :
  (n < List.length l)%nat -> nth n (set_nth l n x) d = x.
Proof.
  revert n. induction l as [|a l IH]; intros [|n] H; simpl in *;
    try lia; auto. apply IH. lia.
Qed.

Lemma nth_set_nth_other {A} (l : list A) (n p : nat) (x d : A) :
  p <> n -> nth p (set_nth l n x) d = nth p l d.
Proof.
  revert n p. induction l as [|a l IH]; intros [|n] [|p] H; simpl;
    try reflexivity; try contradiction. apply IH. lia.
Qed.

Lemma index_nat {A} (l : list A) (p : nat) (d : A) :
  (p < List.length l)%nat -> index l (Z.of_nat p) = Ok (nth p l d).
Proof.
  intros H. unfold index, len.
  destruct (Z.ltb_spec (Z.of_nat p) 0); [lia|].
  destruct (Z.leb_spec (Z.of_nat (List.length l)) (Z.of_nat p)); [lia|].
  simpl. rewrite Nat2Z.id.
  destruct (nth_error l p) eqn:E.
  - now rewrite (nth_error_nth _ _ d E).
  - apply nth_error_None in E. lia.
Qed.

Lemma store_nat (l : list Z) (p : nat) (x : Z) :
  (p < List.length l)%nat ->
  shuffle.store l (Z.of_nat p) x = Ok (set_nth l p x).
Proof.
  intros H. unfold shuffle.store, len.
  destruct (Z.ltb_spec (Z.of_nat p) 0); [lia|].
  destruct (Z.leb_spec (Z.of_nat (List.length l)) (Z.of_nat p)); [lia|].
  simpl. now rewrite Nat2Z.id.
Qed.

Lemma store_Z (l : list Z) (z x : Z) :
  0 <= z < Z.of_nat (List.length l) ->
  shuffle.store l z x = Ok (set_nth l (Z.to_nat z) x).
Proof.
  intros H. rewrite <- (Z2Nat.id z) at 1 by lia. apply store_nat. lia.
Qed.

(** *** The random index *)

Lemma u64_small (z : Z) : 0 <= z < 2 ^ 64 -> shuffle.u64 z = z.
Proof. intros H. unfold shuffle.u64. now apply Z.mod_small. Qed.

Lemma read_u32_range random pos v :
  0 <= v < 2 ^ 32 -> 0 <= fst (shuffle.read_u32 random pos v) < 2 ^ 32.
Proof.
  intros Hv. unfold shuffle.read_u32. destruct (random pos); simpl;
    [apply Z.mod_pos_bound; lia | exact Hv].
Qed.

(** The product that the rejection loop returns is that of a 32-bit
    value with the bound. *)
Lemma reject_loop_product (fuel : nat) random n thresh :
  forall pos v prod low r pos',
    0 <= v < 2 ^ 32 -> prod = shuffle.u64 (shuffle.u64 v * shuffle.u64 n) ->
    shuffle.reject_loop fuel random pos v n thresh prod low = Some (r, pos') ->
    exists v', 0 <= v' < 2 ^ 32 /\
               r = shuffle.u64 (shuffle.u64 v' * shuffle.u64 n).
Proof.
  induction fuel as [|fuel IH]; intros pos v prod low r pos' Hv Hprod H;
    simpl in H.
  - destruct (low <? thresh); [discriminate|]. injection H as <- _. eauto.
  - destruct (low <? thresh); [|injection H as <- _; eauto].
    pose proof (read_u32_range random pos v Hv) as Hr.
    destruct (shuffle.read_u32 random pos v) as [v1 pos1]. simpl in Hr.
    eapply IH; [exact Hr | reflexivity | exact H].
Qed.

Lemma uniformRandom31_range fuel random pos n j pos' :
  1 <= n <= 2 ^ 31 - 1 ->
  shuffle.uniformRandom31 fuel random pos n = Some (j, pos') ->
  0 <= j < n.
Proof.
  intros Hn H. unfold shuffle.uniformRandom31 in H.
  pose proof (read_u32_range random pos 0 ltac:(lia)) as Hr.
  destruct (shuffle.read_u32 random pos 0) as [v pos1]. simpl in Hr.
  assert (Hprod : exists v' pos2, 0 <= v' < 2 ^ 32 /\
            (if u32 (shuffle.u64 (shuffle.u64 v * shuffle.u64 n)) <? u32 n
             then shuffle.reject_loop fuel random pos1 v n
                    (u32 (wrap32 (- n)) mod u32 n)
                    (shuffle.u64 (shuffle.u64 v * shuffle.u64 n))
                    (u32 (shuffle.u64 (shuffle.u64 v * shuffle.u64 n)))
             else Some (shuffle.u64 (shuffle.u64 v * shuffle.u64 n), pos1))
            = Some (shuffle.u64 (shuffle.u64 v' * shuffle.u64 n), pos2)).
  { destruct (u32 (shuffle.u64 (shuffle.u64 v * shuffle.u64 n)) <? u32 n).
    - destruct (shuffle.reject_loop fuel random pos1 v n _ _ _)
        as [[r p2]|] eqn:E; [|discriminate].
      destruct (reject_loop_product _ _ _ _ _ _ _ _ _ _ Hr eq_refl E)
        as (v' & Hv' & ->). eauto.
    - eauto. }
  destruct Hprod as (v' & pos2 & Hv' & Heq). rewrite Heq in H.
  injection H as <- _.
  rewrite (u64_small v'), (u64_small n) by lia.
  rewrite u64_small by nia.
  rewrite Z.shiftr_div_pow2 by lia.
  assert (0 <= v' * n / 2 ^ 32 < n).
  { split; [apply Z.div_pos; nia|]. apply Z.div_lt_upper_bound; nia. }
  unfold wrap32. rewrite Z.mod_small; lia.
Qed.

(** *** The loop invariant *)

(** Exchange of the positions [i] and [j]. *)
Definition transpose (i j p : nat) : nat :=
  if Nat.eqb p j then i else if Nat.eqb p i then j else p.

Lemma transpose_involutive i j p : transpose i j (transpose i j p) = p.
Proof.
  unfold transpose. destruct (Nat.eqb_spec p j) as [->|H1].
  - destruct (Nat.eqb_spec i j); [lia|]. now rewrite Nat.eqb_refl.
  - destruct (Nat.eqb_spec p i) as [->|H2].
    + now rewrite Nat.eqb_refl.
    + destruct (Nat.eqb_spec p j); [contradiction|].
      destruct (Nat.eqb_spec p i); [contradiction | reflexivity].
Qed.

Lemma transpose_lt i j p n :
  (i < n)%nat -> (j < n)%nat -> (p < n)%nat -> (transpose i j p < n)%nat.
Proof.
  unfold transpose. intros.
  repeat match goal with
         | |- context [Nat.eqb ?a ?b] => destruct (Nat.eqb_spec a b)
         end; lia.
Qed.

Lemma nth_swapped (l : list Z) (i j p : nat) :
  (i < List.length l)%nat -> (j < List.length l)%nat ->
  nth p (set_nth (set_nth l i (nth j l 0)) j (nth i l 0)) 0 =
  nth (transpose i j p) l 0.
Proof.
  intros Hi Hj. unfold transpose.
  destruct (Nat.eqb_spec p j) as [->|Hpj].
  - apply nth_set_nth_same. now rewrite set_nth_length.
  - rewrite nth_set_nth_other by exact Hpj.
    destruct (Nat.eqb_spec p i) as [->|Hpi].
    + now apply nth_set_nth_same.
    + now apply nth_set_nth_other.
Qed.

(** The state of the Fisher-Yates loop before the iteration for [k],
    on [n] elements: the array [a] and the index array agree and hold
    each of [0 .. n-1] once; [perm] maps the element at every position
    above [k] to that position, and is still zero at the elements at
    the positions up to [k]. *)
Definition shuffled (n k : nat) (idx perm a : list Z) : Prop :=
  List.length idx = n /\ List.length perm = n /\ a = idx /\
  (forall p, (p < n)%nat -> 0 <= nth p idx 0 < Z.of_nat n) /\
  (forall p q, (p < n)%nat -> (q < n)%nat ->
               nth p idx 0 = nth q idx 0 -> p = q) /\
  (forall x, (x < n)%nat -> exists p, (p < n)%nat /\ nth p idx 0 = Z.of_nat x) /\
  (forall p, (k < p < n)%nat ->
             nth (Z.to_nat (nth p idx 0)) perm 0 = Z.of_nat p) /\
  (forall p, (p <= k)%nat -> (p < n)%nat ->
             nth (Z.to_nat (nth p idx 0)) perm 0 = 0).

Lemma Shuffle_step_shuffled (n k : nat) (j : Z) (idx perm a : list Z) :
  shuffled n (S k) idx perm a -> (S k < n)%nat -> 0 <= j <= Z.of_nat (S k) ->
  exists a' idx' perm',
    shuffle.Shuffle_step (list Z) shuffle.swap_elems (Z.of_nat (S k)) j
      a idx perm = Ok (a', idx', perm') /\
    shuffled n k idx' perm' a'.
Proof.
  intros (Hli & Hlp & Ha & Hrange & Hinj & Hsurj & Habove & Hbelow) Hk Hj.
  set (i := S k) in *. set (jn := Z.to_nat j).
  assert (Hjn : (jn <= i)%nat) by (unfold jn; lia).
  assert (Hjeq : j = Z.of_nat jn) by (unfold jn; lia).
  clearbody jn. clear Hj. subst a j. unfold shuffle.Shuffle_step.
  rewrite (index_nat idx jn 0), (index_nat idx i 0) by lia. cbn [bind].
  rewrite (store_nat idx i) by lia. cbn [bind].
  rewrite store_nat by (rewrite set_nth_length; lia). cbn [bind].
  set (idx' := set_nth (set_nth idx i (nth jn idx 0)) jn (nth i idx 0)).
  assert (Hli' : List.length idx' = n)
    by (unfold idx'; now rewrite !set_nth_length).
  assert (Hnth : forall p, nth p idx' 0 = nth (transpose i jn p) idx 0).
  { intros p. unfold idx'. apply nth_swapped; lia. }
  assert (Hrange' : forall p, (p < n)%nat -> 0 <= nth p idx' 0 < Z.of_nat n).
  { intros p Hp. rewrite Hnth. apply Hrange. apply transpose_lt; lia. }
  assert (Hinj' : forall p q, (p < n)%nat -> (q < n)%nat ->
                              nth p idx' 0 = nth q idx' 0 -> p = q).
  { intros p q Hp Hq Heq. rewrite !Hnth in Heq.
    apply Hinj in Heq; try (apply transpose_lt; lia).
    rewrite <- (transpose_involutive i jn p),
            <- (transpose_involutive i jn q). now rewrite Heq. }
  rewrite (index_nat idx' i 0) by lia. cbn [bind].
  pose proof (Hrange' i ltac:(lia)) as Hri.
  rewrite (store_Z perm (nth i idx' 0)) by lia. cbn [bind].
  exists (shuffle.swap_elems (Z.of_nat i) (Z.of_nat jn) idx), idx',
    (set_nth perm (Z.to_nat (nth i idx' 0)) (Z.of_nat i)).
  split; [reflexivity|].
  assert (Hperm : forall p, (p < n)%nat ->
            nth (Z.to_nat (nth p idx' 0))
              (set_nth perm (Z.to_nat (nth i idx' 0)) (Z.of_nat i)) 0 =
            if Nat.eqb p i then Z.of_nat i
            else nth (Z.to_nat (nth (transpose i jn p) idx 0)) perm 0).
  { intros p Hp. destruct (Nat.eqb_spec p i) as [->|Hne].
    - apply nth_set_nth_same. lia.
    - rewrite nth_set_nth_other; [now rewrite Hnth|].
      intros Heq. apply Hne. apply Hinj'; try lia.
      pose proof (Hrange' p Hp). lia. }
  repeat split.
  - exact Hli'.
  - now rewrite set_nth_length.
  - unfold shuffle.swap_elems, idx'. now rewrite !Nat2Z.id.
  - apply Hrange'. assumption.
  - apply Hrange'. assumption.
  - exact Hinj'.
  - intros x Hx. destruct (Hsurj x Hx) as (p0 & Hp0 & Hx0).
    exists (transpose i jn p0). split; [apply transpose_lt; lia|].
    now rewrite Hnth, transpose_involutive.
  - intros p Hp. rewrite Hperm by lia.
    destruct (Nat.eqb_spec p i) as [->|Hne]; [reflexivity|].
    assert (Ht : transpose i jn p = p).
    { unfold transpose. destruct (Nat.eqb_spec p jn); [lia|].
      destruct (Nat.eqb_spec p i); [lia | reflexivity]. }
    rewrite Ht. apply Habove. lia.
  - intros p Hpk Hp. rewrite Hperm by lia.
    destruct (Nat.eqb_spec p i) as [->|Hne]; [lia|].
    apply Hbelow; [|apply transpose_lt; lia].
    unfold transpose. destruct (Nat.eqb_spec p jn); [lia|].
    destruct (Nat.eqb_spec p i); lia.
Qed.

Lemma wrap32_small (z : Z) : - 2 ^ 31 <= z <= 2 ^ 31 - 1 -> wrap32 z = z.
Proof. intros H. unfold wrap32. rewrite Z.mod_small; lia. Qed.

(** Whenever the loop returns, it returns normally and leaves the
    arrays in the final state of the invariant. *)
Lemma Shuffle_loop_shuffled (n : nat) (fuel : nat) (random : shuffle.Reader) :
  Z.of_nat n <= 2 ^ 31 - 2 ->
  forall k pos a idx perm r,
    (k < n)%nat -> shuffled n k idx perm a ->
    shuffle.Shuffle_loop (list Z) shuffle.swap_elems fuel random k pos
      a idx perm = Some r ->
    exists a' perm' pos' idx',
      r = Ok (a', perm', pos') /\ shuffled n 0 idx' perm' a'.
Proof.
  intros Hn. induction k as [|k IH]; intros pos a idx perm r Hk Hinv H.
  - simpl in H. injection H as <-. exists a, perm, pos, idx. now split.
  - cbn [shuffle.Shuffle_loop] in H.
    rewrite wrap32_small in H by lia.
    destruct (shuffle.uniformRandom31 fuel random pos (Z.of_nat (S k) + 1))
      as [[j pos1]|] eqn:Hu; [|discriminate].
    apply uniformRandom31_range in Hu; [|lia].
    destruct (Shuffle_step_shuffled n k j idx perm a Hinv Hk ltac:(lia))
      as (a1 & idx1 & perm1 & Hstep & Hinv1).
    rewrite Hstep in H.
    apply (IH pos1 a1 idx1 perm1 r); [lia | exact Hinv1 | exact H].
Qed.

Lemma nth_identity (n p : nat) :
  (p < n)%nat -> nth p (map Z.of_nat (seq 0 n)) 0 = Z.of_nat p.
Proof.
  intros H.
  change (nth p (map Z.of_nat (seq 0 n)) (Z.of_nat 0) = Z.of_nat p).
  rewrite map_nth.
  now rewrite seq_nth by exact H.
Qed.

Lemma shuffled_initial (n : nat) :
  shuffled n (n - 1) (map Z.of_nat (seq 0 n)) (repeat 0 n)
    (map Z.of_nat (seq 0 n)).
Proof.
  unfold shuffled. rewrite length_map, length_seq, repeat_length.
  repeat split; try reflexivity.
  - rewrite nth_identity by assumption. lia.
  - rewrite nth_identity by assumption. lia.
  - intros p q Hp Hq. rewrite !nth_identity by assumption. lia.
  - intros x Hx. exists x. split; [exact Hx | now apply nth_identity].
  - intros p Hp. lia.
  - intros p _ Hp. apply nth_repeat.
Qed.

(** In the final state, [perm] sends every element to the position
    that holds it. *)
Lemma shuffled_final (n : nat) (idx perm a : list Z) (x : nat) :
  shuffled n 0 idx perm a -> (x < n)%nat ->
  exists j, shuffle.Get {| shuffle.perm := perm |} (Z.of_nat x) = Ok j /\
            index a j = Ok (Z.of_nat x).
Proof.
  intros (Hli & Hlp & Ha & Hrange & Hinj & Hsurj & Habove & Hbelow) Hx.
  destruct (Hsurj x Hx) as (p & Hp & Hpx). subst a.
  exists (Z.of_nat p). unfold shuffle.Get. cbn [shuffle.perm].
  rewrite (index_nat perm x 0), (index_nat idx p 0) by lia.
  rewrite Hpx. split; [|reflexivity]. f_equal.
  replace x with (Z.to_nat (nth p idx 0)) by lia.
  destruct p as [|p].
  - apply Hbelow; lia.
  - apply Habove. lia.
Qed.

(** *** Termination on sources that deliver *)

Lemma reject_loop_more_fuel (fuel : nat) random n thresh :
  forall pos v prod low r extra,
    shuffle.reject_loop fuel random pos v n thresh prod low = Some r ->
    shuffle.reject_loop (fuel + extra) random pos v n thresh prod low
    = Some r.
Proof.
  induction fuel as [|fuel IH]; intros pos v prod low r extra H.
  - simpl in H. destruct (low <? thresh) eqn:E; [discriminate|].
    destruct extra; simpl; now rewrite E.
  - simpl in *. destruct (low <? thresh); [|exact H].
    destruct (shuffle.read_u32 random pos v) as [v1 pos1].
    now apply IH.
Qed.

Lemma uniformRandom31_more_fuel fuel extra random pos n r :
  shuffle.uniformRandom31 fuel random pos n = Some r ->
  shuffle.uniformRandom31 (fuel + extra) random pos n = Some r.
Proof.
  unfold shuffle.uniformRandom31.
  destruct (shuffle.read_u32 random pos 0) as [v pos1].
  destruct (u32 (shuffle.u64 (shuffle.u64 v * shuffle.u64 n)) <? u32 n);
    [|auto].
  destruct (shuffle.reject_loop fuel random pos1 v n _ _ _) as [[p q]|] eqn:E;
    [|discriminate].
  now rewrite (reject_loop_more_fuel _ _ _ _ _ _ _ _ _ extra E).
Qed.

Lemma Shuffle_loop_more_fuel {St} (swap : Z -> Z -> St -> St) fuel extra
  random :
  forall k pos st idx perm r,
    shuffle.Shuffle_loop St swap fuel random k pos st idx perm = Some r ->
    shuffle.Shuffle_loop St swap (fuel + extra) random k pos st idx perm
    = Some r.
Proof.
  induction k as [|k IH]; intros pos st idx perm r H; [exact H|].
  cbn [shuffle.Shuffle_loop] in *.
  destruct (shuffle.uniformRandom31 fuel random pos _) as [[j pos1]|] eqn:E;
    [|discriminate].
  rewrite (uniformRandom31_more_fuel _ extra _ _ _ _ E).
  destruct (shuffle.Shuffle_step St swap _ j st idx perm) as [[[s1 i1] p1]| |];
    [now apply IH | exact H | exact H].
Qed.

(** The rejection loop ends once an accepted value is read. *)
Lemma reject_loop_ends random n (k : nat) :
  forall pos v prod low x,
    random (pos + k)%nat = Some x ->
    spec.threshold n <= spec.low_word x n ->
    exists r, shuffle.reject_loop (S k) random pos v n (spec.threshold n)
                prod low = Some r.
Proof.
  induction k as [|k IH]; intros pos v prod low x Hx Hacc.
  - rewrite Nat.add_0_r in Hx. cbn [shuffle.reject_loop].
    destruct (low <? spec.threshold n); [|eauto].
    unfold shuffle.read_u32. rewrite Hx.
    fold (spec.low_word x n).
    destruct (Z.ltb_spec (spec.low_word x n) (spec.threshold n));
      [lia | eauto].
  - cbn [shuffle.reject_loop].
    destruct (low <? spec.threshold n); [|eauto].
    destruct (shuffle.read_u32 random pos v) as [v1 pos1] eqn:Er.
    assert (pos1 = S pos).
    { unfold shuffle.read_u32 in Er. destruct (random pos);
        now injection Er as _ <-. }
    subst pos1. apply (IH (S pos) _ _ _ x); [|exact Hacc].
    now rewrite Nat.add_succ_comm.
Qed.

Lemma uniformRandom31_ends random pos n :
  spec.delivers random -> 2 <= n <= 2 ^ 31 - 1 ->
  exists fuel r, shuffle.uniformRandom31 fuel random pos n = Some r.
Proof.
  intros Hd Hn. unfold shuffle.uniformRandom31.
  destruct (shuffle.read_u32 random pos 0) as [v pos1].
  destruct (Hd pos1 n Hn) as (k & x & Hx & Hacc).
  exists (S k).
  destruct (u32 (shuffle.u64 (shuffle.u64 v * shuffle.u64 n)) <? u32 n);
    [|eauto].
  fold (spec.threshold n).
  destruct (reject_loop_ends random n k pos1 v
              (shuffle.u64 (shuffle.u64 v * shuffle.u64 n))
              (u32 (shuffle.u64 (shuffle.u64 v * shuffle.u64 n))) x Hx Hacc)
    as [[p q] ->].
  eauto.
Qed.

Lemma Shuffle_loop_ends {St} (swap : Z -> Z -> St -> St) random :
  spec.delivers random ->
  forall k pos st idx perm,
    Z.of_nat k + 1 <= 2 ^ 31 - 1 ->
    exists fuel r,
      shuffle.Shuffle_loop St swap fuel random k pos st idx perm = Some r.
Proof.
  intros Hd. induction k as [|k IH]; intros pos st idx perm Hk.
  - exists 0%nat. eexists. reflexivity.
  - destruct (uniformRandom31_ends random pos (wrap32 (Z.of_nat (S k) + 1)) Hd)
      as (fuel1 & [j pos1] & Hu).
    { rewrite wrap32_small; lia. }
    destruct (shuffle.Shuffle_step St swap (Z.of_nat (S k)) j st idx perm)
      as [[[s1 i1] p1]| |] eqn:Hs.
    + destruct (IH pos1 s1 i1 p1 ltac:(lia)) as (fuel2 & r & Hr).
      exists (fuel1 + fuel2)%nat, r. cbn [shuffle.Shuffle_loop].
      rewrite (uniformRandom31_more_fuel _ fuel2 _ _ _ _ Hu), Hs.
      rewrite Nat.add_comm. now apply Shuffle_loop_more_fuel.
    + exists fuel1. eexists. cbn [shuffle.Shuffle_loop]. now rewrite Hu, Hs.
    + exists fuel1. eexists. cbn [shuffle.Shuffle_loop]. now rewrite Hu, Hs.
Qed.

Lemma ones_delivers : spec.delivers spec.ones.
Proof.
  intros pos n Hn. exists 0%nat, (2 ^ 32 - 1). split; [reflexivity|].
  assert (Hu : u32 n = n) by (unfold u32; apply Z.mod_small; lia).
  assert (Ht : spec.threshold n < n).
  { unfold spec.threshold. rewrite Hu. apply Z.mod_pos_bound. lia. }
  assert (Hl : spec.low_word (2 ^ 32 - 1) n = 2 ^ 32 - n).
  { unfold spec.low_word.
    assert (Hv : u32 (2 ^ 32 - 1) = 2 ^ 32 - 1) by reflexivity.
    rewrite Hv, (u64_small (2 ^ 32 - 1)), (u64_small n), u64_small by lia.
    unfold u32.
    replace ((2 ^ 32 - 1) * n) with (2 ^ 32 - n + (n - 1) * 2 ^ 32) by ring.
    rewrite Z.mod_add by lia. apply Z.mod_small. lia. }
  lia.
Qed.

Lemma reject_loop_zeros (fuel : nat) :
  forall pos, shuffle.reject_loop fuel spec.zeros pos 0 3 1 0 0 = None.
Proof.
  induction fuel as [|fuel IH]; intros pos; [reflexivity|].
  cbn [shuffle.reject_loop]. change (0 <? 1) with true. cbv iota.
  change (shuffle.read_u32 spec.zeros pos 0) with (0, S pos).
  cbv iota beta. apply IH.
Qed.

(** C9, as the code has it.  [Shuffle] panics for [n] below 0 or above
    2^31 - 2; for [n = 0] and [n = 1] it returns without a swap and
    without a read, whatever the source; on the array 0 .. n-1 with
    the callback that exchanges two elements, whenever it returns it
    returns a map [m] with [a[m.Get(i)] = i] for every [i] in [0, n);
    and it does return on every source that keeps delivering values
    which the rejection loop accepts. *)
Theorem Shuffle_map :
  (forall St (swap : Z -> Z -> St -> St) fuel random n st,
     n < 0 \/ 2 ^ 31 - 2 < n ->
     shuffle.Shuffle St swap fuel random n st =
     Some (Panic "invalid argument to Shuffle")) /\
  (forall St (swap : Z -> Z -> St -> St) fuel random st,
     shuffle.Shuffle St swap fuel random 0 st =
     Some (Ok ({| shuffle.perm := [] |}, st, 0%nat)) /\
     shuffle.Shuffle St swap fuel random 1 st =
     Some (Ok ({| shuffle.perm := [0] |}, st, 0%nat))) /\
  (forall fuel random n r,
     0 <= n <= 2 ^ 31 - 2 ->
     shuffle.Shuffle (list Z) shuffle.swap_elems fuel random n
       (spec.identity n) = Some r ->
     exists m a pos,
       r = Ok (m, a, pos) /\
       forall i, 0 <= i < n ->
         exists j, shuffle.Get m i = Ok j /\ index a j = Ok i) /\
  (forall random n,
     spec.delivers random -> 0 <= n <= 2 ^ 31 - 2 ->
     exists fuel m a pos,
       shuffle.Shuffle (list Z) shuffle.swap_elems fuel random n
         (spec.identity n) = Some (Ok (m, a, pos)) /\
       forall i, 0 <= i < n ->
         exists j, shuffle.Get m i = Ok j /\ index a j = Ok i).
Proof.
  assert (Hpartial : forall fuel random n r,
     0 <= n <= 2 ^ 31 - 2 ->
     shuffle.Shuffle (list Z) shuffle.swap_elems fuel random n
       (spec.identity n) = Some r ->
     exists m a pos,
       r = Ok (m, a, pos) /\
       forall i, 0 <= i < n ->
         exists j, shuffle.Get m i = Ok j /\ index a j = Ok i).
  { intros fuel random n r Hn H. unfold shuffle.Shuffle in H.
    destruct (Z.ltb_spec n 0); [lia|].
    destruct (Z.gtb_spec n (2 ^ 31 - 1 - 1)); [lia|]. cbn [orb] in H.
    cbv zeta in H.
    destruct (shuffle.Shuffle_loop _ _ fuel random _ 0 _ _ _) as [r0|] eqn:E;
      [|discriminate].
    injection H as <-.
    destruct (Z.eq_dec n 0) as [->|Hnz].
    - simpl in E. injection E as <-.
      do 3 eexists. split; [reflexivity|]. intros i Hi. lia.
    - unfold spec.identity in E.
      replace (Z.to_nat (n - 1)) with (Z.to_nat n - 1)%nat in E by lia.
      assert (Hlt : (Z.to_nat n - 1 < Z.to_nat n)%nat) by lia.
      assert (Hle : Z.of_nat (Z.to_nat n) <= 2 ^ 31 - 2) by lia.
      destruct (Shuffle_loop_shuffled (Z.to_nat n) fuel random Hle
                  _ _ _ _ _ _ Hlt (shuffled_initial (Z.to_nat n)) E)
        as (a' & perm' & pos' & idx' & -> & Hfin).
      do 3 eexists. split; [reflexivity|]. intros i Hi.
      destruct (shuffled_final _ _ _ _ (Z.to_nat i) Hfin ltac:(lia))
        as (j & Hj1 & Hj2).
      rewrite Z2Nat.id in Hj1, Hj2 by lia. eauto. }
  split; [|split; [|split; [exact Hpartial|]]].
  - intros St swap fuel random n st Hn. unfold shuffle.Shuffle.
    destruct (Z.ltb_spec n 0); [reflexivity|].
    destruct (Z.gtb_spec n (2 ^ 31 - 1 - 1)); [reflexivity | lia].
  - intros St swap fuel random st. split; reflexivity.
  - intros random n Hd Hn.
    destruct (Shuffle_loop_ends shuffle.swap_elems random Hd
                (Z.to_nat (n - 1)) 0%nat (spec.identity n)
                (spec.identity n) (repeat 0 (Z.to_nat n)) ltac:(lia))
      as (fuel & r0 & Hr0).
    assert (Hs : exists r,
               shuffle.Shuffle (list Z) shuffle.swap_elems fuel random n
                 (spec.identity n) = Some r).
    { unfold shuffle.Shuffle.
      destruct (Z.ltb_spec n 0); [lia|].
      destruct (Z.gtb_spec n (2 ^ 31 - 1 - 1)); [lia|]. cbn [orb]. cbv zeta.
      unfold spec.identity in Hr0 |- *. rewrite Hr0. eauto. }
    destruct Hs as [r Hr].
    destruct (Hpartial fuel random n r Hn Hr) as (m & a & pos & -> & Hall).
    exists fuel, m, a, pos. now split.
Qed.

Lemma Shuffle_map_witness :
  exists fuel m a pos,
    shuffle.Shuffle (list Z) shuffle.swap_elems fuel spec.ones 5
      (spec.identity 5) = Some (Ok (m, a, pos)) /\
    forall i, 0 <= i < 5 ->
      exists j, shuffle.Get m i = Ok j /\ index a j = Ok i.
Proof.
  apply (proj2 (proj2 (proj2 Shuffle_map)) spec.ones 5 ones_delivers).
  lia.
Defined.

(** The claim C9 as worded, a result for every random source, fails
    on a source that reads zeros for ever: for three elements the
    rejection loop of the first random index never ends. *)
Lemma Shuffle_hangs_on_zeros :
  ~ exists fuel r,
      shuffle.Shuffle (list Z) shuffle.swap_elems fuel spec.zeros 3
        (spec.identity 3) = Some r.
Proof.
  intros (fuel & r & H). unfold shuffle.Shuffle in H.
  change ((3 <? 0) || (3 >? 2 ^ 31 - 1 - 1)) with false in H.
  cbv iota zeta in H.
  change (Z.to_nat (3 - 1)) with 2%nat in H.
  cbn [shuffle.Shuffle_loop] in H.
  assert (Hu : shuffle.uniformRandom31 fuel spec.zeros 0
                 (wrap32 (Z.of_nat 2 + 1)) = None).
  { unfold shuffle.uniformRandom31.
    change (shuffle.read_u32 spec.zeros 0 0) with (0, 1%nat).
    cbv iota beta zeta.
    change (wrap32 (Z.of_nat 2 + 1)) with 3.
    change (u32 (shuffle.u64 (shuffle.u64 0 * shuffle.u64 3)) <? u32 3)
      with true.
    cbv iota.
    change (u32 (wrap32 (- 3)) mod u32 3) with 1.
    change (shuffle.u64 (shuffle.u64 0 * shuffle.u64 3)) with 0.
    change (u32 0) with 0.
    now rewrite reject_loop_zeros. }
  rewrite Hu in H. discriminate H.
Qed.

(** * Further properties *)

(** ** Solving puzzles: any key, and valid keys *)

Lemma ConstantTimeCompare_eq (x y : list byte) :
  puzzle.ConstantTimeCompare x y = 1 -> x = y.
Proof.
  unfold puzzle.ConstantTimeCompare.
  destruct (puzzle.bytes_eqb x y) eqn:E; [|discriminate].
  intros _. now apply bytes_eqb_eq.
Qed.

Lemma ConstantTimeCompare_neq (x y : list byte) :
  x <> y -> puzzle.ConstantTimeCompare x y = 0.
Proof.
  intros H. unfold puzzle.ConstantTimeCompare.
  destruct (puzzle.bytes_eqb x y) eqn:E; [|reflexivity].
  apply bytes_eqb_eq in E. contradiction.
Qed.

Lemma decryptPuzzle_range (pk : puzzle.PuzzleKey) (c m : Z) :
  0 < puzzle.N (puzzle.PublicKey pk) ->
  puzzle.decryptPuzzle pk c = Ok m ->
  0 <= m < puzzle.N (puzzle.PublicKey pk).
Proof.
  intros HN H. unfold puzzle.decryptPuzzle in H. cbv zeta in H.
  change (puzzle.N (puzzle.PublicKey pk))
    with (puzzle.N (puzzle.PublicKey_ (puzzle.rsakey pk))) in HN |- *.
  destruct (c >? _); [discriminate|].
  match type of H with bind ?r _ = _ => destruct r as [m0| |] end;
    try discriminate.
  cbn [bind] in H. injection H as <-.
  rewrite Mod_pos by exact HN. now apply Z.mod_pos_bound.
Qed.

Lemma solution_validates (pk : puzzle.PuzzleKey) (p m : list byte) :
  0 < puzzle.N (puzzle.PublicKey pk) ->
  puzzle.SolvePuzzle pk p = Ok m ->
  puzzle.ValidatePuzzle (puzzle.PublicKey pk) p m = true.
Proof.
  intros HN H. unfold puzzle.SolvePuzzle in H.
  destruct (puzzle.decryptPuzzle pk (puzzle.SetBytes p)) as [mv| |] eqn:Hd;
    try discriminate.
  cbn [bind] in H. cbv zeta in H.
  destruct (Z.eqb_spec
              (puzzle.ConstantTimeCompare
                 (puzzle.createPuzzle (puzzle.PublicKey pk) mv) p) 1)
    as [Hc|Hc]; [|discriminate].
  cbn [negb] in H. injection H as <-.
  pose proof (decryptPuzzle_range pk _ _ HN Hd) as Hr.
  unfold puzzle.ValidatePuzzle. rewrite SetBytes_Bytes by lia.
  destruct (Z.geb_spec mv (puzzle.N (puzzle.PublicKey pk))); [lia|].
  now rewrite Hc.
Qed.

(** X1. Whatever the key, a solution that [SolvePuzzle] returns is one
    that [ValidatePuzzle] accepts for the puzzle, and it encodes an
    integer below N: the check after the decryption lets no wrong
    solution through. *)
Theorem SolvePuzzle_sound (pk : puzzle.PuzzleKey) (p m : list byte) :
  0 < puzzle.N (puzzle.PublicKey pk) ->
  puzzle.SolvePuzzle pk p = Ok m ->
  puzzle.ValidatePuzzle (puzzle.PublicKey pk) p m = true /\
  puzzle.SetBytes m < puzzle.N (puzzle.PublicKey pk).
Proof.
  intros HN H. pose proof (solution_validates pk p m HN H) as Hv.
  split; [exact Hv|].
  unfold puzzle.ValidatePuzzle in Hv.
  destruct (Z.geb_spec (puzzle.SetBytes m) (puzzle.N (puzzle.PublicKey pk)));
    [discriminate | lia].
Qed.

Lemma SolvePuzzle_sound_witness :
  puzzle.ValidatePuzzle (puzzle.PublicKey sample.key)
    (spec.puzzle_of (puzzle.PublicKey sample.key) 52) (puzzle.Bytes 52)
  = true /\
  puzzle.SetBytes (puzzle.Bytes 52) < puzzle.N (puzzle.PublicKey sample.key).
Proof.
  apply (SolvePuzzle_sound sample.key); [simpl; lia | reflexivity].
Defined.

Section ValidKey.

Variable pk : puzzle.PuzzleKey.
Hypothesis pk_valid : spec.valid_key pk.

Let N := puzzle.N (puzzle.PublicKey_ (puzzle.rsakey pk)).
Let E := puzzle.E (puzzle.PublicKey_ (puzzle.rsakey pk)).
Let D := puzzle.D (puzzle.rsakey pk).

(** Decrypting the encryption of [s] gives [s]. *)
Lemma decryptPuzzle_encrypted (s : Z) :
  0 <= s < N -> puzzle.decryptPuzzle pk (s ^ E mod N) = Ok s.
Proof.
  intros Hs.
  pose proof (key_N_pos pk pk_valid) as HN.
  pose proof (key_E_pos pk pk_valid) as HE.
  assert (Hf : (puzzle.factor pk * puzzle.inverse pk) mod N = 1)
    by apply pk_valid.
  fold N in HN. fold E in HE.
  unfold puzzle.decryptPuzzle. cbv zeta. fold N E.
  pose proof (Z.mod_pos_bound (s ^ E) N HN) as Hc.
  destruct (Z.gtb_spec (s ^ E mod N) N) as [Hgt|_]; [lia|].
  rewrite Mod_pos, Exp_pos by exact HN.
  rewrite <- Z.mul_mod, <- Z.pow_mul_l by lia.
  destruct (decrypt_core pk pk_valid (s * puzzle.factor pk))
    as (m & Hm & Hcong).
  cbv zeta in Hm. fold N E in Hm, Hcong. rewrite Hm. cbn [bind].
  rewrite Mod_pos by exact HN. f_equal.
  rewrite <- Z.mul_mod_idemp_l, Hcong, Z.mul_mod_idemp_l by lia.
  rewrite <- Z.mul_assoc, <- Z.mul_mod_idemp_r, Hf, Z.mul_1_r by lia.
  apply Z.mod_small. exact Hs.
Qed.

(** Encrypting the power [D] of [c] gives [c] back: on [0, N) the
    encryption is onto. *)
Lemma encrypt_decrypted (c : Z) :
  0 <= c < N -> (c ^ D mod N) ^ E mod N = c.
Proof.
  intros Hc.
  pose proof (key_N_pos pk pk_valid) as HN. fold N in HN.
  pose proof (key_E_pos pk pk_valid) as HE. fold E in HE.
  pose proof (key_D_pos pk pk_valid) as HD. fold D in HD.
  assert (Hcong : forall a b,
             (forall p, In p (puzzle.Primes (puzzle.rsakey pk)) ->
                        a mod p = b mod p) ->
             a mod N = b mod N).
  { intros a b H. unfold N. rewrite (key_modulus pk pk_valid).
    apply congruent_mod_product;
      [apply (key_primes pk pk_valid) | apply pk_valid | exact H]. }
  transitivity (c mod N); [|now apply Z.mod_small].
  apply Hcong. intros p Hin.
  destruct (key_prime_facts pk pk_valid p Hin) as (Hp & Hdiv & Hed & Hp1).
  fold N in Hdiv. fold E D in Hed.
  apply (rsa_mod_prime p N D E E c); try assumption; try lia.
  now rewrite Z.mul_comm.
Qed.

Lemma decryptPuzzle_any (c : Z) :
  0 <= c < N -> puzzle.decryptPuzzle pk c = Ok (c ^ D mod N).
Proof.
  intros Hc.
  pose proof (key_N_pos pk pk_valid) as HN. fold N in HN.
  rewrite <- (encrypt_decrypted c Hc) at 1.
  apply decryptPuzzle_encrypted. now apply Z.mod_pos_bound.
Qed.

(** The guard of [decryptPuzzle] lets the modulus itself through; it
    decrypts as zero does. *)
Lemma decryptPuzzle_modulus : puzzle.decryptPuzzle pk N = Ok 0.
Proof.
  pose proof (key_N_pos pk pk_valid) as HN. fold N in HN.
  pose proof (key_D_pos pk pk_valid) as HD. fold D in HD.
  assert (H0 : puzzle.decryptPuzzle pk 0 = Ok 0).
  { rewrite decryptPuzzle_any by lia.
    now rewrite Z.pow_0_l, Zmod_0_l by lia. }
  rewrite <- H0. unfold puzzle.decryptPuzzle. cbv zeta. fold N.
  destruct (Z.gtb_spec N N); [lia|].
  destruct (Z.gtb_spec 0 N); [lia|].
  rewrite !Mod_pos by exact HN.
  now rewrite Z.mul_0_l, Zmod_0_l, Z.mul_comm, Z.mod_mul by lia.
Qed.

Lemma createPuzzle_power (s : Z) :
  puzzle.createPuzzle (puzzle.PublicKey pk) s = puzzle.Bytes (s ^ E mod N).
Proof.
  pose proof (key_N_pos pk pk_valid) as HN. fold N in HN.
  unfold puzzle.createPuzzle. cbv zeta.
  change (puzzle.N (puzzle.PublicKey pk)) with N.
  change (puzzle.E (puzzle.PublicKey pk)) with E.
  now rewrite Exp_pos by exact HN.
Qed.

Lemma SolvePuzzle_canonical (c : Z) :
  0 <= c < N ->
  puzzle.SolvePuzzle pk (puzzle.Bytes c) = Ok (puzzle.Bytes (c ^ D mod N)).
Proof.
  intros Hc. unfold puzzle.SolvePuzzle.
  rewrite SetBytes_Bytes, decryptPuzzle_any by lia. cbn [bind]. cbv zeta.
  rewrite createPuzzle_power, encrypt_decrypted by exact Hc.
  now rewrite ConstantTimeCompare_same.
Qed.

End ValidKey.

(** X2. The outcomes of [SolvePuzzle] under a valid key, by the
    integer [c] that the puzzle encodes: above N the puzzle is refused
    as too large; the encoding without leading zero bytes of a [c]
    below N is solved, by the encoding of [c^D mod N]; every other
    puzzle, that is N itself or an encoding with leading zero bytes,
    fails the check after the decryption. *)
Theorem SolvePuzzle_outcomes (pk : puzzle.PuzzleKey) (p : list byte) :
  spec.valid_key pk ->
  let N := puzzle.N (puzzle.PublicKey pk) in
  let D := puzzle.D (puzzle.rsakey pk) in
  let c := puzzle.SetBytes p in
  (N < c -> puzzle.SolvePuzzle pk p = Err "value too large") /\
  (c < N -> p = puzzle.Bytes c ->
   puzzle.SolvePuzzle pk p = Ok (puzzle.Bytes (c ^ D mod N))) /\
  (c <= N -> c = N \/ p <> puzzle.Bytes c ->
   puzzle.SolvePuzzle pk p = Err "error in the CRT computation").
Proof.
  intros Hvalid N D c.
  pose proof (key_N_pos pk Hvalid) as HN.
  pose proof (key_E_pos pk Hvalid) as HE.
  pose proof (SetBytes_nonneg p) as Hc0. fold c in Hc0.
  change (puzzle.N (puzzle.PublicKey_ (puzzle.rsakey pk))) with N in HN.
  split; [|split].
  - intros Hgt. unfold puzzle.SolvePuzzle, puzzle.decryptPuzzle. cbv zeta.
    fold c. change (puzzle.N (puzzle.PublicKey_ (puzzle.rsakey pk))) with N.
    destruct (Z.gtb_spec c N); [reflexivity | lia].
  - intros Hlt Hp. rewrite Hp at 1.
    apply (SolvePuzzle_canonical pk Hvalid c). change (0 <= c < N). lia.
  - intros Hle Hbad. unfold puzzle.SolvePuzzle. fold c.
    assert (Hcase : c = N \/ c < N) by lia.
    destruct Hcase as [HcN | Hlt].
    + rewrite HcN.
      change N with (puzzle.N (puzzle.PublicKey_ (puzzle.rsakey pk))).
      rewrite (decryptPuzzle_modulus pk Hvalid). cbn [bind]. cbv zeta.
      rewrite (createPuzzle_power pk Hvalid).
      rewrite Z.pow_0_l, Zmod_0_l by exact HE.
      rewrite ConstantTimeCompare_neq; [reflexivity|].
      intros Hp.
      assert (c = 0) by (unfold c; rewrite <- Hp; reflexivity). lia.
    + destruct Hbad as [HcN | Hp]; [lia|].
      rewrite (decryptPuzzle_any pk Hvalid c) by (change (0 <= c < N); lia).
      cbn [bind]. cbv zeta.
      rewrite (createPuzzle_power pk Hvalid).
      rewrite (encrypt_decrypted pk Hvalid c) by (change (0 <= c < N); lia).
      rewrite ConstantTimeCompare_neq; [reflexivity|]. congruence.
Qed.

Lemma SolvePuzzle_outcomes_witness :
  puzzle.SolvePuzzle sample.key ["000"; "004"]%byte
  = Err "error in the CRT computation".
Proof.
  apply (proj2 (proj2 (SolvePuzzle_outcomes sample.key ["000"; "004"]%byte
                         sample_key_valid))).
  - vm_compute. discriminate.
  - right. discriminate.
Defined.

(** ** Inverses and blinding *)

Section BlindingFacts.

Variable GCD : Z -> Z -> Z * Z * Z.
Hypothesis GCD_ok : spec.GCD_contract GCD.

Lemma modInverse_some (a n ai : Z) :
  0 < a -> 1 < n -> puzzle.modInverse GCD a n = Some ai ->
  Z.gcd a n = 1 /\ (a * ai) mod n = 1.
Proof.
  intros Ha Hn H. unfold puzzle.modInverse in H.
  pose proof (GCD_ok a n ltac:(lia) ltac:(lia)) as Hc.
  destruct (GCD a n) as [[g x] y]. destruct Hc as [Hgcd Hbez].
  destruct (Z.eqb_spec g 1) as [Hg|Hg]; [|discriminate].
  cbn [negb] in H. injection H as <-. split; [lia|].
  assert (Hx : (a * x) mod n = 1).
  { replace (a * x) with (1 + (- y) * n) by lia.
    rewrite Z.mod_add by lia. apply Z.mod_small. lia. }
  destruct (x <? 1); [|exact Hx].
  replace (a * (x + n)) with (a * x + a * n) by lia.
  now rewrite Z.mod_add by lia.
Qed.

Lemma modInverse_none (a n : Z) :
  0 < a -> 1 < n -> puzzle.modInverse GCD a n = None -> Z.gcd a n <> 1.
Proof.
  intros Ha Hn H. unfold puzzle.modInverse in H.
  pose proof (GCD_ok a n ltac:(lia) ltac:(lia)) as Hc.
  destruct (GCD a n) as [[g x] y]. destruct Hc as [Hgcd Hbez].
  destruct (Z.eqb_spec g 1) as [Hg|Hg]; [discriminate | lia].
Qed.

(** X3. [modInverse] on a positive [a] and a modulus above 1: it
    answers with a number exactly when [a] and [n] are coprime, and
    that number is then an inverse of [a] modulo [n]. *)
Theorem modInverse_correct (a n : Z) :
  0 < a -> 1 < n ->
  (Z.gcd a n = 1 <->
   exists ai, puzzle.modInverse GCD a n = Some ai) /\
  (forall ai, puzzle.modInverse GCD a n = Some ai -> (a * ai) mod n = 1).
Proof.
  intros Ha Hn. split; [split|].
  - intros Hg. destruct (puzzle.modInverse GCD a n) as [ai|] eqn:E;
      [now exists ai|].
    exfalso. now apply (modInverse_none a n Ha Hn E).
  - intros [ai H]. now apply (modInverse_some a n ai).
  - intros ai H. now apply (modInverse_some a n ai).
Qed.

Lemma newBlindingFactor_result (rand_Int : nat -> result Z) (n : Z) :
  1 < n -> spec.draws_below rand_Int n ->
  forall fuel pos r ir pos',
    puzzle.newBlindingFactor GCD fuel rand_Int pos n = Some (Ok (r, ir, pos')) ->
    0 < r < n /\ (r * ir) mod n = 1 /\
    (pos < pos')%nat /\ rand_Int (pos' - 1)%nat = Ok r.
Proof.
  intros Hn Hdraw. induction fuel as [|fuel IH]; intros pos r ir pos' H;
    [discriminate|].
  cbn [puzzle.newBlindingFactor] in H.
  destruct (rand_Int pos) as [x| |] eqn:Hx; try discriminate.
  pose proof (Hdraw pos x Hx) as Hrange.
  destruct (Z.eqb_spec x 0) as [Hz|Hnz].
  - destruct (IH _ _ _ _ H) as (H1 & H2 & H3 & H4).
    repeat split; try assumption; lia.
  - destruct (puzzle.modInverse GCD x n) as [ai|] eqn:Hinv.
    + injection H as <- <- <-.
      destruct (modInverse_some x n ai ltac:(lia) Hn Hinv) as [_ Hmul].
      repeat split; try lia; try assumption.
      now replace (S pos - 1)%nat with pos by lia.
    + destruct (IH _ _ _ _ H) as (H1 & H2 & H3 & H4).
      repeat split; try assumption; lia.
Qed.

Lemma newBlindingFactor_ends (rand_Int : nat -> result Z) (n : Z) :
  1 < n -> spec.draws_below rand_Int n ->
  forall k pos r,
    rand_Int (pos + k)%nat = Ok r -> r <> 0 -> Z.gcd r n = 1 ->
    (forall i, (i < k)%nat -> exists x, rand_Int (pos + i)%nat = Ok x) ->
    exists r' ir' pos',
      puzzle.newBlindingFactor GCD (S k) rand_Int pos n
      = Some (Ok (r', ir', pos')).
Proof.
  intros Hn Hdraw. induction k as [|k IH]; intros pos r Hr Hnz Hg Hok.
  - rewrite Nat.add_0_r in Hr. cbn [puzzle.newBlindingFactor].
    rewrite Hr. destruct (Z.eqb_spec r 0); [contradiction|].
    pose proof (Hdraw _ _ Hr).
    destruct (puzzle.modInverse GCD r n) as [ai|] eqn:Hinv;
      [now eauto|].
    exfalso. now apply (modInverse_none r n ltac:(lia) Hn Hinv).
  - destruct (Hok 0%nat ltac:(lia)) as [x Hx].
    rewrite Nat.add_0_r in Hx.
    assert (Hrest : exists r' ir' pos',
               puzzle.newBlindingFactor GCD (S k) rand_Int (S pos) n
               = Some (Ok (r', ir', pos'))).
    { apply (IH (S pos) r); try assumption.
      - now rewrite Nat.add_succ_comm.
      - intros i Hi. destruct (Hok (S i) ltac:(lia)) as [y Hy].
        exists y. now rewrite Nat.add_succ_comm. }
    change (puzzle.newBlindingFactor GCD (S (S k)) rand_Int pos n)
      with (match rand_Int pos with
            | Err e => Some (Err e)
            | Panic m => Some (Panic m)
            | Ok r0 =>
                if r0 =? 0
                then puzzle.newBlindingFactor GCD (S k) rand_Int (S pos) n
                else
                  match puzzle.modInverse GCD r0 n with
                  | Some ir => Some (Ok (r0, ir, S pos))
                  | None =>
                      puzzle.newBlindingFactor GCD (S k) rand_Int (S pos) n
                  end
            end).
    rewrite Hx. destruct (x =? 0); [exact Hrest|].
    destruct (puzzle.modInverse GCD x n) as [ai|]; [now eauto | exact Hrest].
Qed.

(** X4. [newBlindingFactor] on a modulus above 1 with draws in
    [0, n): a factor it returns is the last number drawn, lies in
    (0, n) and comes with an inverse modulo [n]; and the loop ends, with
    a factor, as soon as a draw is nonzero and coprime to [n]. *)
Theorem newBlindingFactor_spec (rand_Int : nat -> result Z) (n : Z) :
  1 < n -> spec.draws_below rand_Int n ->
  (forall fuel pos r ir pos',
     puzzle.newBlindingFactor GCD fuel rand_Int pos n
     = Some (Ok (r, ir, pos')) ->
     0 < r < n /\ (r * ir) mod n = 1 /\
     (pos < pos')%nat /\ rand_Int (pos' - 1)%nat = Ok r) /\
  (forall k pos r,
     rand_Int (pos + k)%nat = Ok r -> r <> 0 -> Z.gcd r n = 1 ->
     (forall i, (i < k)%nat -> exists x, rand_Int (pos + i)%nat = Ok x) ->
     exists r' ir' pos',
       puzzle.newBlindingFactor GCD (S k) rand_Int pos n
       = Some (Ok (r', ir', pos'))).
Proof.
  intros Hn Hdraw. split.
  - now apply newBlindingFactor_result.
  - now apply newBlindingFactor_ends.
Qed.

Lemma BlindPuzzle_form (rand_Int : nat -> result Z)
  (pk : puzzle.PuzzlePubKey) (p : list byte) fuel pos z r ir pos' :
  1 < puzzle.N pk -> spec.draws_below rand_Int (puzzle.N pk) ->
  puzzle.BlindPuzzle GCD fuel rand_Int pos pk p = Some (Ok (z, r, ir, pos')) ->
  exists rv iv,
    r = puzzle.Bytes rv /\ ir = puzzle.Bytes iv /\
    0 < rv < puzzle.N pk /\ (rv * iv) mod puzzle.N pk = 1 /\
    z = puzzle.Bytes
          ((puzzle.SetBytes p * (rv ^ puzzle.E pk mod puzzle.N pk))
           mod puzzle.N pk).
Proof.
  intros HN Hdraw H. unfold puzzle.BlindPuzzle in H.
  destruct (puzzle.newBlindingFactor GCD fuel rand_Int pos (puzzle.N pk))
    as [[[[rv iv] pos1]| |]|] eqn:Hf; try discriminate.
  cbv zeta in H. injection H as <- <- <- <-.
  destruct (newBlindingFactor_result rand_Int _ HN Hdraw _ _ _ _ _ Hf)
    as (Hr & Hmul & _ & _).
  exists rv, iv. repeat split; try assumption; try lia.
  now rewrite Mod_pos, Exp_pos by lia.
Qed.

(** X5. What [BlindPuzzle] returns for a puzzle [p], on a modulus
    above 1 with draws in [0, N): the blinded puzzle passes
    [ValidateBlindedPuzzle] against [p] with the factor returned, the
    inverse returned encodes an integer that multiplies with the factor
    to 1 modulo N, and the blinding of the puzzle 1 is a puzzle that
    [ValidatePuzzle] accepts with the factor as its solution. *)
Theorem BlindPuzzle_validates (rand_Int : nat -> result Z)
  (pk : puzzle.PuzzlePubKey) (p : list byte) fuel pos z r ir pos' :
  1 < puzzle.N pk -> spec.draws_below rand_Int (puzzle.N pk) ->
  puzzle.BlindPuzzle GCD fuel rand_Int pos pk p = Some (Ok (z, r, ir, pos')) ->
  puzzle.ValidateBlindedPuzzle pk z p r = true /\
  (exists iv, ir = puzzle.Bytes iv /\
              (puzzle.SetBytes r * iv) mod puzzle.N pk = 1) /\
  (p = puzzle.Bytes 1 -> puzzle.ValidatePuzzle pk z r = true).
Proof.
  intros HN Hdraw H.
  destruct (BlindPuzzle_form rand_Int pk p _ _ _ _ _ _ HN Hdraw H)
    as (rv & iv & -> & -> & Hr & Hmul & ->).
  rewrite !SetBytes_Bytes by lia.
  split; [|split; [now exists iv|]].
  - unfold puzzle.ValidateBlindedPuzzle, puzzle.UnblindPuzzle,
      puzzle.createPuzzle. cbv zeta.
    rewrite SetBytes_Bytes by lia.
    destruct (Z.geb_spec rv (puzzle.N pk)); [lia|].
    rewrite Exp_pos, Mod_pos by lia.
    rewrite SetBytes_Bytes by (apply Z.mod_pos_bound; lia).
    now rewrite ConstantTimeCompare_same.
  - intros ->. unfold puzzle.ValidatePuzzle, puzzle.createPuzzle. cbv zeta.
    rewrite SetBytes_Bytes by lia.
    destruct (Z.geb_spec rv (puzzle.N pk)); [lia|].
    rewrite Exp_pos by lia.
    change (puzzle.SetBytes (puzzle.Bytes 1)) with 1.
    rewrite Z.mul_1_l, Z.mod_mod by lia.
    now rewrite ConstantTimeCompare_same.
Qed.

End BlindingFacts.

Lemma sample_draws_below : spec.draws_below sample.draws 105.
Proof.
  intros k x H. destruct k as [|[|k]]; injection H as <-; lia.
Qed.

Lemma modInverse_correct_witness :
  (Z.gcd 2 105 = 1 <->
   exists ai, puzzle.modInverse sample.GCD 2 105 = Some ai) /\
  (forall ai, puzzle.modInverse sample.GCD 2 105 = Some ai ->
              (2 * ai) mod 105 = 1).
Proof.
  apply (modInverse_correct sample.GCD sample_GCD_contract 2 105); lia.
Defined.

Lemma newBlindingFactor_spec_witness :
  exists r' ir' pos',
    puzzle.newBlindingFactor sample.GCD 3 sample.draws 0 105
    = Some (Ok (r', ir', pos')).
Proof.
  apply (proj2 (newBlindingFactor_spec sample.GCD sample_GCD_contract
                  sample.draws 105 ltac:(lia) sample_draws_below)
           2%nat 0%nat 2).
  - reflexivity.
  - lia.
  - reflexivity.
  - intros i Hi. destruct i as [|[|i]]; [now exists 0 | now exists 3 | lia].
Defined.

Lemma BlindPuzzle_validates_witness :
  puzzle.ValidateBlindedPuzzle (puzzle.PublicKey sample.key)
    (puzzle.Bytes 23) (puzzle.Bytes 4) (puzzle.Bytes 2) = true.
Proof.
  apply (proj1 (BlindPuzzle_validates sample.GCD sample_GCD_contract
                  sample.draws (puzzle.PublicKey sample.key)
                  (puzzle.Bytes 4) 3 0 (puzzle.Bytes 23) (puzzle.Bytes 2)
                  (puzzle.Bytes 53) 3 ltac:(simpl; lia) sample_draws_below
                  eq_refl)).
Defined.

Lemma SolvePuzzle_encrypted (pk : puzzle.PuzzleKey) (y : Z) :
  spec.valid_key pk ->
  0 <= y < puzzle.N (puzzle.PublicKey pk) ->
  puzzle.SolvePuzzle pk (spec.puzzle_of (puzzle.PublicKey pk) y)
  = Ok (puzzle.Bytes y).
Proof.
  intros Hvalid Hy. pose proof (key_N_pos pk Hvalid) as HN.
  unfold spec.puzzle_of, puzzle.SolvePuzzle.
  change (puzzle.N (puzzle.PublicKey pk))
    with (puzzle.N (puzzle.PublicKey_ (puzzle.rsakey pk))) in Hy |- *.
  change (puzzle.E (puzzle.PublicKey pk))
    with (puzzle.E (puzzle.PublicKey_ (puzzle.rsakey pk))).
  rewrite SetBytes_Bytes by (apply Z.mod_pos_bound; lia).
  rewrite (decryptPuzzle_encrypted pk Hvalid y Hy). cbn [bind]. cbv zeta.
  rewrite (createPuzzle_power pk Hvalid).
  now rewrite ConstantTimeCompare_same.
Qed.

Section BlindedSolving.

Variable GCD : Z -> Z -> Z * Z * Z.
Hypothesis GCD_ok : spec.GCD_contract GCD.

(** X6. Solving through a blinding.  Under a valid key, for the puzzle
    of a secret [s] in [0, N): when [BlindPuzzle] returns a blinded
    puzzle with a factor and an inverse that multiply to 1 modulo N,
    [SolvePuzzle] solves the blinded puzzle, and [UnblindPuzzle] of
    that solution with the inverse is the encoding of [s]. *)
Theorem blinded_solution_unblinds (rand_Int : nat -> result Z)
  (pk : puzzle.PuzzleKey) (s : Z) fuel pos z r ir pos' :
  let pub := puzzle.PublicKey pk in
  spec.valid_key pk ->
  spec.draws_below rand_Int (puzzle.N pub) ->
  0 <= s < puzzle.N pub ->
  puzzle.BlindPuzzle GCD fuel rand_Int pos pub (spec.puzzle_of pub s)
  = Some (Ok (z, r, ir, pos')) ->
  (puzzle.SetBytes r * puzzle.SetBytes ir) mod puzzle.N pub = 1 ->
  exists sol,
    puzzle.SolvePuzzle pk z = Ok sol /\
    puzzle.UnblindPuzzle pub sol ir = puzzle.Bytes s.
Proof.
  intros pub Hvalid Hdraw Hs H Hinv.
  pose proof (key_N_pos pk Hvalid) as HN.
  pose proof (key_E_pos pk Hvalid) as HE.
  change (puzzle.N (puzzle.PublicKey_ (puzzle.rsakey pk)))
    with (puzzle.N pub) in HN.
  change (puzzle.E (puzzle.PublicKey_ (puzzle.rsakey pk)))
    with (puzzle.E pub) in HE.
  assert (HN1 : 1 < puzzle.N pub).
  { destruct (Z.eq_dec (puzzle.N pub) 1) as [H1|]; [|lia].
    rewrite H1, Z.mod_1_r in Hinv. discriminate. }
  destruct (BlindPuzzle_form GCD GCD_ok rand_Int pub _ _ _ _ _ _ _
              HN1 Hdraw H)
    as (rv & iv & -> & -> & Hr & _ & ->).
  rewrite SetBytes_Bytes in Hinv by lia.
  unfold spec.puzzle_of.
  rewrite SetBytes_Bytes by (apply Z.mod_pos_bound; lia).
  rewrite <- Z.mul_mod, <- Z.pow_mul_l by lia.
  rewrite <- Z.mod_pow_l.
  set (y := (s * rv) mod puzzle.N pub).
  assert (Hy : 0 <= y < puzzle.N pub) by (apply Z.mod_pos_bound; lia).
  exists (puzzle.Bytes y). split.
  - apply (SolvePuzzle_encrypted pk y Hvalid Hy).
  - unfold puzzle.UnblindPuzzle. cbv zeta.
    rewrite SetBytes_Bytes, Mod_pos by lia. f_equal.
    unfold y. rewrite Z.mul_mod_idemp_l by lia.
    rewrite <- Z.mul_assoc, <- Z.mul_mod_idemp_r, Hinv, Z.mul_1_r by lia.
    apply Z.mod_small. exact Hs.
Qed.

(** X7. A key that [GeneratePuzzleKey] returns is a valid puzzle key,
    when [rsa.GenerateMultiPrimeKey] returns valid RSA keys and the
    draws for the blinding factor are below the modulus; the RSA key
    was asked for with 2, 3, 4 or 5 primes by the difficulty: from
    1024, 4096 and 8192 bits on one prime more. *)
Theorem GeneratePuzzleKey_valid (fuel : nat)
  (GenerateMultiPrimeKey : Z -> Z -> result puzzle.PrivateKey)
  (rand_Int : nat -> result Z) (difficulty : Z) (pk : puzzle.PuzzleKey) :
  (forall nprimes priv,
     GenerateMultiPrimeKey nprimes difficulty = Ok priv ->
     spec.valid_private_key priv /\
     spec.draws_below rand_Int (puzzle.N (puzzle.PublicKey_ priv))) ->
  puzzle.GeneratePuzzleKey GCD fuel GenerateMultiPrimeKey rand_Int difficulty
  = Some (Ok pk) ->
  spec.valid_key pk /\
  exists nprimes,
    GenerateMultiPrimeKey nprimes difficulty = Ok (puzzle.rsakey pk) /\
    (nprimes = 2 /\ difficulty < 1024 \/
     nprimes = 3 /\ 1024 <= difficulty < 4096 \/
     nprimes = 4 /\ 4096 <= difficulty < 8192 \/
     nprimes = 5 /\ 8192 <= difficulty).
Proof.
  intros Hgen H. unfold puzzle.GeneratePuzzleKey in H. cbv zeta in H.
  set (np := if difficulty >=? 8192 then 5
             else if difficulty >=? 4096 then 4
             else if difficulty >=? 1024 then 3 else 2) in H.
  destruct (GenerateMultiPrimeKey np difficulty) as [priv| |] eqn:Hk;
    try discriminate.
  destruct (Hgen np priv Hk) as [Hpriv Hdraw].
  destruct (puzzle.newBlindingFactor GCD fuel rand_Int 0
              (puzzle.N (puzzle.PublicKey_ priv)))
    as [[[[r ir] pos]| |]|] eqn:Hf; try discriminate.
  injection H as <-.
  assert (HN : 1 < puzzle.N (puzzle.PublicKey_ priv)).
  { unfold spec.valid_private_key, spec.valid_key in Hpriv.
    cbn [puzzle.rsakey puzzle.factor puzzle.inverse] in Hpriv. lia. }
  destruct (newBlindingFactor_result GCD GCD_ok rand_Int _ HN Hdraw
              _ _ _ _ _ Hf) as (Hr & Hmul & _ & _).
  split.
  - unfold spec.valid_private_key, spec.valid_key in Hpriv |- *.
    cbn [puzzle.rsakey puzzle.factor puzzle.inverse] in Hpriv |- *.
    intuition.
  - exists np. split; [exact Hk|]. unfold np.
    destruct (Z.geb_spec difficulty 8192); [lia|].
    destruct (Z.geb_spec difficulty 4096); [lia|].
    destruct (Z.geb_spec difficulty 1024); lia.
Qed.

End BlindedSolving.

Lemma sample_private_key_valid :
  spec.valid_private_key (puzzle.rsakey sample.key).
Proof.
  pose proof sample_key_valid as H.
  unfold spec.valid_private_key, spec.valid_key in H |- *.
  cbn [puzzle.rsakey puzzle.factor puzzle.inverse] in H |- *.
  repeat match goal with H : _ /\ _ |- _ => destruct H end.
  repeat match goal with |- _ /\ _ => split end; try assumption;
    try reflexivity; simpl; lia.
Qed.

Lemma blinded_solution_unblinds_witness :
  exists sol,
    puzzle.SolvePuzzle sample.key (puzzle.Bytes 104) = Ok sol /\
    puzzle.UnblindPuzzle (puzzle.PublicKey sample.key) sol (puzzle.Bytes 53)
    = puzzle.Bytes 52.
Proof.
  apply (blinded_solution_unblinds sample.GCD sample_GCD_contract
           sample.draws sample.key 52 3 0 (puzzle.Bytes 104) (puzzle.Bytes 2)
           (puzzle.Bytes 53) 3 sample_key_valid sample_draws_below).
  - simpl. lia.
  - reflexivity.
  - reflexivity.
Defined.

Lemma GeneratePuzzleKey_valid_witness :
  spec.valid_key sample.key /\
  exists nprimes,
    sample.GenerateMultiPrimeKey nprimes 1024
    = Ok (puzzle.rsakey sample.key) /\
    (nprimes = 2 /\ 1024 < 1024 \/
     nprimes = 3 /\ 1024 <= 1024 < 4096 \/
     nprimes = 4 /\ 4096 <= 1024 < 8192 \/
     nprimes = 5 /\ 8192 <= 1024).
Proof.
  apply (GeneratePuzzleKey_valid sample.GCD sample_GCD_contract 3
           sample.GenerateMultiPrimeKey sample.draws 1024 sample.key).
  - intros nprimes priv H. injection H as <-. split.
    + exact sample_private_key_valid.
    + exact sample_draws_below.
  - reflexivity.
Defined.

(** ** Promises *)

Lemma lxor_byte_range (a b : Z) :
  0 <= a < 256 -> 0 <= b < 256 -> 0 <= Z.lxor a b < 256.
Proof.
  intros Ha Hb.
  assert (H0 : 0 <= Z.lxor a b) by (apply Z.lxor_nonneg; lia).
  split; [exact H0|].
  destruct (Z.eq_dec (Z.lxor a b) 0) as [->|Hnz]; [lia|].
  change 256 with (2 ^ 8). apply Z.log2_lt_pow2; [lia|].
  eapply Z.le_lt_trans; [apply Z.log2_lxor; lia|].
  apply Z.max_lub_lt.
  - destruct (Z.eq_dec a 0) as [->|]; [simpl; lia|].
    apply Z.log2_lt_pow2; lia.
  - destruct (Z.eq_dec b 0) as [->|]; [simpl; lia|].
    apply Z.log2_lt_pow2; lia.
Qed.

Lemma xor_byte_involutive (k x : byte) :
  puzzle.xor_byte k (puzzle.xor_byte k x) = x.
Proof.
  unfold puzzle.xor_byte. rewrite Z_of_byte_of_Z.
  pose proof (Z_of_byte_range k). pose proof (Z_of_byte_range x).
  rewrite Z.mod_small by now apply lxor_byte_range.
  rewrite <- Z.lxor_assoc, Z.lxor_nilpotent, Z.lxor_0_l.
  apply byte_of_Z_of_byte.
Qed.

Lemma xor_combine_involutive (ks : list byte) :
  forall input, List.length ks = List.length input ->
  map (fun kx => puzzle.xor_byte (fst kx) (snd kx))
    (combine ks
       (map (fun kx => puzzle.xor_byte (fst kx) (snd kx)) (combine ks input)))
  = input.
Proof.
  induction ks as [|k ks IH]; intros [|x input] H; try discriminate;
    [reflexivity|].
  cbn [combine map fst snd]. rewrite xor_byte_involutive. f_equal.
  apply IH. now injection H.
Qed.

Section Promises.

Variable XOF : Type.
Variable NewXOF : Z -> list byte -> result XOF.
Variable xof_Write : XOF -> list byte -> XOF.
Variable xof_Read : XOF -> nat -> list byte.

Let cryptWithXOF := puzzle.cryptWithXOF XOF NewXOF xof_Write xof_Read.

Lemma read_keystream_length (xof : XOF) (n : nat) :
  List.length (puzzle.read_keystream XOF xof_Read xof n) = n.
Proof.
  unfold puzzle.read_keystream. cbv zeta.
  rewrite length_app, repeat_length.
  pose proof (firstn_le_length n (xof_Read xof n)). lia.
Qed.

Lemma cryptWithXOF_involutive (input secret out : list byte) :
  cryptWithXOF input secret = Ok out ->
  len out = len input /\ cryptWithXOF out secret = Ok input.
Proof.
  unfold cryptWithXOF, puzzle.cryptWithXOF. cbv zeta. intros H.
  destruct (len input >? 65535) eqn:Hlen; [discriminate|].
  destruct (NewXOF (len input mod 2 ^ 16) _) as [xof| |] eqn:Hx;
    try discriminate.
  cbn [bind] in H. injection H as <-.
  set (ks := puzzle.read_keystream XOF xof_Read _ (List.length input)).
  assert (Hks : List.length ks = List.length input)
    by apply read_keystream_length.
  assert (Hout : List.length
                   (map (fun kx => puzzle.xor_byte (fst kx) (snd kx))
                      (combine ks input)) = List.length input).
  { rewrite length_map, length_combine. lia. }
  assert (Hlen' : len (map (fun kx => puzzle.xor_byte (fst kx) (snd kx))
                         (combine ks input)) = len input).
  { unfold len. now rewrite Hout. }
  split; [exact Hlen'|].
  rewrite Hlen', Hlen, Hx. cbn [bind]. rewrite Hout. fold ks.
  now rewrite xor_combine_involutive.
Qed.

(** X8. Promises open with their key.  When [createPromise] encrypts
    [data] under [secret], the promise is as long as the data and
    [RevealSolution] with the same secret gives the data back; data of
    more than 65535 bytes is refused. *)
Theorem promise_opens (data secret promise : list byte) :
  (puzzle.createPromise XOF NewXOF xof_Write xof_Read data secret
   = Ok promise ->
   len promise = len data /\
   puzzle.RevealSolution XOF NewXOF xof_Write xof_Read promise secret
   = Ok data) /\
  (65535 < len data ->
   puzzle.createPromise XOF NewXOF xof_Write xof_Read data secret
   = Err "input too long").
Proof.
  split.
  - apply cryptWithXOF_involutive.
  - intros H. unfold puzzle.createPromise, puzzle.cryptWithXOF.
    destruct (Z.gtb_spec (len data) 65535); [reflexivity | lia].
Qed.

(** X9. What [NewPuzzlePromise] hands out under a valid key, for a
    secret drawn in [0, N): a puzzle that [ValidatePuzzle] accepts with
    the secret, that [SolvePuzzle] solves to the secret, and a promise
    that [RevealSolution] opens with the secret to the signature. *)
Theorem NewPuzzlePromise_opens (pk : puzzle.PuzzleKey) (sig : list byte)
  (s : Z) (z c k : list byte) :
  spec.valid_key pk ->
  0 <= s < puzzle.N (puzzle.PublicKey pk) ->
  puzzle.NewPuzzlePromise XOF NewXOF xof_Write xof_Read pk sig (Ok s)
  = Ok (z, c, k) ->
  puzzle.ValidatePuzzle (puzzle.PublicKey pk) z k = true /\
  puzzle.SolvePuzzle pk z = Ok k /\
  puzzle.RevealSolution XOF NewXOF xof_Write xof_Read c k = Ok sig.
Proof.
  intros Hvalid Hs H. unfold puzzle.NewPuzzlePromise in H. cbv zeta in H.
  destruct (puzzle.createPromise XOF NewXOF xof_Write xof_Read sig
              (puzzle.Bytes s)) as [promise| |] eqn:Hp; try discriminate.
  injection H as <- <- <-.
  pose proof (key_N_pos pk Hvalid) as HN.
  assert (Hsolve : puzzle.SolvePuzzle pk
                     (puzzle.createPuzzle (puzzle.PublicKey pk) s)
                   = Ok (puzzle.Bytes s)).
  { rewrite (createPuzzle_power pk Hvalid).
    apply (SolvePuzzle_encrypted pk s Hvalid Hs). }
  split; [|split].
  - apply solution_validates; [exact HN | exact Hsolve].
  - exact Hsolve.
  - apply (cryptWithXOF_involutive _ _ _ Hp).
Qed.

(** X10. What [NewSolutionPromise] hands out, for a key with a
    positive modulus: the secret is the one that was drawn, the
    solution is one that [ValidatePuzzle] accepts for the puzzle, and
    the promise opens with the secret to the solution. *)
Theorem NewSolutionPromise_opens (pk : puzzle.PuzzleKey) (p : list byte)
  (rand_Read : result (list byte)) (sol promise k : list byte) :
  0 < puzzle.N (puzzle.PublicKey pk) ->
  puzzle.NewSolutionPromise XOF NewXOF xof_Write xof_Read pk p rand_Read
  = Ok (sol, promise, k) ->
  rand_Read = Ok k /\
  puzzle.ValidatePuzzle (puzzle.PublicKey pk) p sol = true /\
  puzzle.RevealSolution XOF NewXOF xof_Write xof_Read promise k = Ok sol.
Proof.
  intros HN H. unfold puzzle.NewSolutionPromise in H.
  destruct rand_Read as [secret| |]; try discriminate. cbn [bind] in H.
  destruct (puzzle.SolvePuzzle pk p) as [solution| |] eqn:Hsol;
    try discriminate.
  destruct (puzzle.createPromise XOF NewXOF xof_Write xof_Read solution
              secret) as [pr| |] eqn:Hp; try discriminate.
  injection H as <- <- <-.
  split; [reflexivity | split].
  - now apply solution_validates.
  - apply (cryptWithXOF_involutive _ _ _ Hp).
Qed.

End Promises.

Lemma promise_opens_witness :
  len ["002"; "007"]%byte = len ["003"; "004"]%byte /\
  puzzle.RevealSolution (list byte) sample.xof_new sample.xof_write
    sample.xof_read ["002"; "007"]%byte ["001"; "003"]%byte
  = Ok ["003"; "004"]%byte.
Proof.
  apply (proj1 (promise_opens (list byte) sample.xof_new sample.xof_write
                  sample.xof_read ["003"; "004"]%byte ["001"; "003"]%byte
                  ["002"; "007"]%byte)).
  reflexivity.
Defined.

Lemma NewPuzzlePromise_opens_witness :
  puzzle.ValidatePuzzle (puzzle.PublicKey sample.key) (puzzle.Bytes 82)
    (puzzle.Bytes 52) = true /\
  puzzle.SolvePuzzle sample.key (puzzle.Bytes 82) = Ok (puzzle.Bytes 52) /\
  puzzle.RevealSolution (list byte) sample.xof_new sample.xof_write
    sample.xof_read ["055"; "004"]%byte (puzzle.Bytes 52)
  = Ok ["003"; "004"]%byte.
Proof.
  apply (NewPuzzlePromise_opens (list byte) sample.xof_new sample.xof_write
           sample.xof_read sample.key ["003"; "004"]%byte 52
           (puzzle.Bytes 82) ["055"; "004"]%byte (puzzle.Bytes 52)
           sample_key_valid).
  - simpl. lia.
  - reflexivity.
Defined.

Lemma NewSolutionPromise_opens_witness :
  Ok ["001"; "003"]%byte = Ok ["001"; "003"]%byte /\
  puzzle.ValidatePuzzle (puzzle.PublicKey sample.key) (puzzle.Bytes 82)
    (puzzle.Bytes 52) = true /\
  puzzle.RevealSolution (list byte) sample.xof_new sample.xof_write
    sample.xof_read ["053"%byte] ["001"; "003"]%byte
  = Ok (puzzle.Bytes 52).
Proof.
  apply (NewSolutionPromise_opens (list byte) sample.xof_new
           sample.xof_write sample.xof_read sample.key (puzzle.Bytes 82)
           (Ok ["001"; "003"]%byte) (puzzle.Bytes 52) ["053"%byte]
           ["001"; "003"]%byte).
  - simpl. lia.
  - reflexivity.
Defined.

(** ** Quotients *)

Lemma index_cons_succ {A} (x : A) (l : list A) (i : Z) :
  1 <= i -> index (x :: l) i = index l (i - 1).
Proof.
  intros Hi. unfold index. rewrite len_cons.
  destruct (Z.ltb_spec i 0); [lia|].
  destruct (Z.ltb_spec (i - 1) 0); [lia|].
  destruct (Z.leb_spec (len l + 1) i);
    destruct (Z.leb_spec (len l) (i - 1)); try lia; [reflexivity|].
  cbn [orb]. replace (Z.to_nat i) with (S (Z.to_nat (i - 1))) by lia.
  reflexivity.
Qed.

Lemma index_Ok_range {A} (l : list A) (i : Z) (x : A) :
  index l i = Ok x -> 0 <= i < len l.
Proof.
  unfold index. destruct (Z.ltb_spec i 0); [discriminate|].
  destruct (Z.leb_spec (len l) i); [discriminate|]. lia.
Qed.

Lemma VerifyQuotients_from_links (pk : puzzle.PuzzlePubKey)
  (puzzles : list (list byte)) :
  0 < puzzle.N pk ->
  forall qs i,
    puzzle.VerifyQuotients_from pk puzzles i qs = Ok true ->
    forall j q, 0 <= j -> index qs j = Ok q ->
      exists zp zj,
        index puzzles (i + j - 1) = Ok zp /\
        index puzzles (i + j) = Ok zj /\
        zj = puzzle.Bytes
               ((puzzle.SetBytes zp *
                 (puzzle.SetBytes q ^ puzzle.E pk mod puzzle.N pk))
                mod puzzle.N pk).
Proof.
  intros HN. induction qs as [|q0 qs IH]; intros i H j q Hj Hq.
  - apply index_Ok_range in Hq. unfold len in Hq. simpl in Hq. lia.
  - cbn [puzzle.VerifyQuotients_from] in H. cbv zeta in H.
    destruct (index puzzles (i - 1)) as [zp| |] eqn:Hzp; try discriminate.
    cbn [bind] in H.
    destruct (index puzzles i) as [zi| |] eqn:Hzi; try discriminate.
    cbn [bind] in H.
    destruct (Z.eqb_spec (puzzle.ConstantTimeCompare zi
                (puzzle.Bytes
                   (puzzle.Mod
                      (puzzle.SetBytes zp *
                       puzzle.Exp (puzzle.SetBytes q0) (puzzle.E pk)
                         (puzzle.N pk)) (puzzle.N pk)))) 1) as [Hc|Hc];
      [|discriminate].
    cbn [negb] in H.
    destruct (Z.eq_dec j 0) as [->|Hnz].
    + change (index (q0 :: qs) 0) with (Ok q0) in Hq. injection Hq as <-.
      exists zp, zi. rewrite Z.add_0_r. repeat split; try assumption.
      apply ConstantTimeCompare_eq in Hc.
      now rewrite Mod_pos, Exp_pos in Hc by lia.
    + rewrite index_cons_succ in Hq by lia.
      destruct (IH (i + 1) H (j - 1) q ltac:(lia) Hq)
        as (zp' & zj & H1 & H2 & H3).
      exists zp', zj.
      replace (i + j - 1) with (i + 1 + (j - 1) - 1) by lia.
      replace (i + j) with (i + 1 + (j - 1)) by lia.
      now repeat split.
Qed.

(** X11. Quotients that [VerifyQuotients] accepts link the solutions
    of the puzzles: for a key with a positive modulus, if a secret
    solves the puzzle before position [i >= 1], then [UnblindPuzzle] of
    that secret with the quotient at [i], their product modulo N,
    solves the puzzle at [i]. *)
Theorem quotients_link_solutions (pk : puzzle.PuzzlePubKey)
  (qs puzzles : list (list byte)) (i : Z) (q zprev zi s : list byte) :
  0 < puzzle.N pk ->
  puzzle.VerifyQuotients pk qs puzzles = Ok true ->
  1 <= i ->
  index qs i = Ok q ->
  index puzzles (i - 1) = Ok zprev ->
  index puzzles i = Ok zi ->
  puzzle.ValidatePuzzle pk zprev s = true ->
  puzzle.ValidatePuzzle pk zi (puzzle.UnblindPuzzle pk s q) = true.
Proof.
  intros HN Hver Hi Hq Hzp Hzi Hs.
  unfold puzzle.VerifyQuotients in Hver.
  destruct qs as [|q0 qs'];
    [apply index_Ok_range in Hq; unfold len in Hq; simpl in Hq; lia|].
  cbn [tl] in Hver.
  rewrite index_cons_succ in Hq by exact Hi.
  pose proof (index_Ok_range _ _ _ Hq) as Hrange.
  destruct (VerifyQuotients_from_links pk puzzles HN qs' 1 Hver (i - 1) q
              ltac:(lia) Hq) as (zp' & zj & H1 & H2 & H3).
  replace (1 + (i - 1) - 1) with (i - 1) in H1 by lia.
  replace (1 + (i - 1)) with i in H2 by lia.
  rewrite Hzp in H1. injection H1 as <-.
  rewrite Hzi in H2. injection H2 as <-.
  unfold puzzle.ValidatePuzzle, puzzle.createPuzzle in Hs. cbv zeta in Hs.
  destruct (Z.geb_spec (puzzle.SetBytes s) (puzzle.N pk)) as [|Hlt];
    [discriminate|].
  apply Z.eqb_eq, ConstantTimeCompare_eq in Hs.
  rewrite Exp_pos in Hs by exact HN.
  pose proof (SetBytes_nonneg s) as Hs0.
  pose proof (SetBytes_nonneg q) as Hq0.
  assert (Hzv : puzzle.SetBytes zprev
                = puzzle.SetBytes s ^ puzzle.E pk mod puzzle.N pk).
  { rewrite <- Hs. apply SetBytes_Bytes. apply Z.mod_pos_bound. lia. }
  unfold puzzle.ValidatePuzzle, puzzle.UnblindPuzzle, puzzle.createPuzzle.
  cbv zeta. rewrite Mod_pos by exact HN.
  pose proof (Z.mod_pos_bound (puzzle.SetBytes s * puzzle.SetBytes q)
                (puzzle.N pk) HN) as Hu.
  rewrite SetBytes_Bytes by lia.
  destruct (Z.geb_spec ((puzzle.SetBytes s * puzzle.SetBytes q)
                        mod puzzle.N pk) (puzzle.N pk)); [lia|].
  rewrite Exp_pos by exact HN.
  rewrite Z.mod_pow_l, Z.pow_mul_l.
  rewrite H3, Hzv, <- Z.mul_mod by lia.
  now rewrite ConstantTimeCompare_same.
Qed.

Lemma quotients_link_solutions_witness :
  puzzle.ValidatePuzzle (puzzle.PublicKey sample.key) (puzzle.Bytes 86)
    (puzzle.UnblindPuzzle (puzzle.PublicKey sample.key) (puzzle.Bytes 2)
       (puzzle.Bytes 58)) = true.
Proof.
  apply (quotients_link_solutions (puzzle.PublicKey sample.key)
           [puzzle.Bytes 1; puzzle.Bytes 58]
           [puzzle.Bytes 32; puzzle.Bytes 86] 1 (puzzle.Bytes 58)
           (puzzle.Bytes 32) (puzzle.Bytes 86) (puzzle.Bytes 2));
    try reflexivity; simpl; lia.
Defined.

Section QuotientOutcomes.

Variable GCD : Z -> Z -> Z * Z * Z.
Hypothesis GCD_ok : spec.GCD_contract GCD.

Variable pk : puzzle.PuzzlePubKey.
Hypothesis modulus : 1 < puzzle.N pk.

Lemma Quotients_from_outcome (rest : list (list byte)) :
  forall prev acc,
    0 < puzzle.SetBytes prev ->
    Forall (fun s => 0 < puzzle.SetBytes s) rest ->
    (Forall (fun s => Z.gcd (puzzle.SetBytes s) (puzzle.N pk) = 1)
       (removelast (prev :: rest)) ->
     exists qs,
       puzzle.Quotients_from GCD pk prev rest acc = Ok (acc ++ qs) /\
       List.length qs = List.length rest) /\
    (Exists (fun s => Z.gcd (puzzle.SetBytes s) (puzzle.N pk) <> 1)
       (removelast (prev :: rest)) ->
     puzzle.Quotients_from GCD pk prev rest acc = Err "malformed secret").
Proof.
  induction rest as [|cur rest IH]; intros prev acc Hprev Hpos.
  - split.
    + intros _. exists []. now rewrite app_nil_r.
    + intros H. inversion H.
  - change (removelast (prev :: cur :: rest))
      with (prev :: removelast (cur :: rest)).
    inversion Hpos as [|? ? Hcur Hrest]; subst.
    cbn [puzzle.Quotients_from]. cbv zeta.
    split.
    + intros Hall. inversion Hall as [|? ? Hg Hall']; subst.
      destruct (puzzle.modInverse GCD (puzzle.SetBytes prev) (puzzle.N pk))
        as [ai|] eqn:Hinv.
      * destruct (proj1 (IH cur
                    (acc ++ [puzzle.Bytes
                               (puzzle.Mod (puzzle.SetBytes cur * ai)
                                  (puzzle.N pk))]) Hcur Hrest) Hall')
          as (qs & Hq & Hlen).
        eexists (_ :: qs). rewrite Hq, <- app_assoc. split; [reflexivity|].
        simpl. now rewrite Hlen.
      * exfalso. apply (modInverse_none GCD GCD_ok _ _ Hprev modulus Hinv).
        exact Hg.
    + intros Hex.
      destruct (puzzle.modInverse GCD (puzzle.SetBytes prev) (puzzle.N pk))
        as [ai|] eqn:Hinv; [|reflexivity].
      inversion Hex as [? ? Hg | ? ? Hex']; subst.
      * exfalso. apply Hg.
        apply (modInverse_some GCD GCD_ok _ _ _ Hprev modulus Hinv).
      * apply (proj2 (IH cur _ Hcur Hrest) Hex').
Qed.

(** X12. The outcomes of [Quotients] on secrets that encode positive
    integers, for a modulus above 1: it fails with "malformed secret"
    exactly when some secret other than the last shares a factor with
    N, and otherwise returns one quotient for each secret, the first
    of them the encoding of 1; without secrets it panics. *)
Theorem Quotients_outcome (secrets : list (list byte)) :
  Forall (fun s => 0 < puzzle.SetBytes s) secrets ->
  (secrets = [] ->
   puzzle.Quotients GCD pk secrets = Panic "index out of range") /\
  (secrets <> [] ->
   Forall (fun s => Z.gcd (puzzle.SetBytes s) (puzzle.N pk) = 1)
     (removelast secrets) ->
   exists qs,
     puzzle.Quotients GCD pk secrets = Ok (puzzle.Bytes 1 :: qs) /\
     len (puzzle.Bytes 1 :: qs) = len secrets) /\
  (Exists (fun s => Z.gcd (puzzle.SetBytes s) (puzzle.N pk) <> 1)
     (removelast secrets) ->
   puzzle.Quotients GCD pk secrets = Err "malformed secret").
Proof.
  intros Hpos. split; [|split].
  - intros ->. reflexivity.
  - intros Hne Hall. destruct secrets as [|s0 rest]; [contradiction|].
    inversion Hpos as [|? ? H0 Hrest]; subst.
    destruct (proj1 (Quotients_from_outcome rest s0 [puzzle.Bytes 1]
                       H0 Hrest) Hall) as (qs & Hq & Hlen).
    exists qs. split; [exact Hq|].
    unfold len. cbn [List.length]. now rewrite Hlen.
  - intros Hex. destruct secrets as [|s0 rest]; [inversion Hex|].
    inversion Hpos as [|? ? H0 Hrest]; subst.
    apply (proj2 (Quotients_from_outcome rest s0 [puzzle.Bytes 1]
                    H0 Hrest) Hex).
Qed.

End QuotientOutcomes.

Lemma Quotients_outcome_witness :
  puzzle.Quotients sample.GCD (puzzle.PublicKey sample.key)
    [puzzle.Bytes 3; puzzle.Bytes 2] = Err "malformed secret".
Proof.
  apply (proj2 (proj2 (Quotients_outcome sample.GCD sample_GCD_contract
                         (puzzle.PublicKey sample.key) ltac:(simpl; lia)
                         [puzzle.Bytes 3; puzzle.Bytes 2]
                         ltac:(repeat constructor)))).
  left. vm_compute. discriminate.
Defined.

(** ** The index list codec, from the bytes *)

Lemma PutUint16_of_bytes (a b : byte) :
  puzzle_list.PutUint16 (Z.lor (Z_of_byte a) (Z.shiftl (Z_of_byte b) 8))
  = [a; b] /\
  0 <= Z.lor (Z_of_byte a) (Z.shiftl (Z_of_byte b) 8) <= 65535.
Proof.
  pose proof (Z_of_byte_range a) as Ha. pose proof (Z_of_byte_range b) as Hb.
  rewrite lor_shiftl8 by lia. split; [|lia].
  unfold puzzle_list.PutUint16. cbv zeta. change (2 ^ 16) with 65536.
  rewrite (Z.mod_small _ 65536) by lia.
  rewrite Z.shiftr_div_pow2 by lia. change (2 ^ 8) with 256.
  rewrite Z.div_add, (Z.div_small (Z_of_byte a)) by lia.
  rewrite Z.add_0_l, byte_of_Z_of_byte. f_equal.
  rewrite <- (byte_of_Z_of_byte a) at 2. unfold byte_of_Z.
  now rewrite Z.mod_add by lia.
Qed.

Lemma decode_from_bytes (bs : list byte) :
  forall res, len bs mod 2 = 0 ->
  exists l,
    puzzle_list.DecodeIndexList_from res bs = Ok (res ++ l) /\
    Forall (fun i => 0 <= i <= 65535) l /\
    flat_map puzzle_list.PutUint16 l = bs.
Proof.
  induction bs as [| a | a b bs IH] using pair_induction; intros res H.
  - exists []. rewrite app_nil_r. repeat split. constructor.
  - rewrite len_cons in H. discriminate.
  - cbn [puzzle_list.DecodeIndexList_from]. cbv zeta.
    destruct (PutUint16_of_bytes a b) as [Hput Hrange].
    destruct (IH (res ++ [Z.lor (Z_of_byte a) (Z.shiftl (Z_of_byte b) 8)]))
      as (l & Hl & Hall & Hflat).
    + rewrite !len_cons in H.
      replace (len bs + 1 + 1) with (len bs + 1 * 2) in H by lia.
      now rewrite Z.mod_add in H by lia.
    + exists (Z.lor (Z_of_byte a) (Z.shiftl (Z_of_byte b) 8) :: l).
      rewrite Hl, <- app_assoc. split; [reflexivity|].
      split; [now constructor|].
      cbn [flat_map]. now rewrite Hput, Hflat.
Qed.

(** X13. The index list codec from the side of the bytes: a byte
    string of even length decodes to a list of half as many values,
    all in [0, 65535], and encoding that list gives the byte string
    back. *)
Theorem decode_then_encode (bs : list byte) :
  len bs mod 2 = 0 ->
  exists l,
    puzzle_list.DecodeIndexList bs = Ok l /\
    Forall (fun i => 0 <= i <= 65535) l /\
    len bs = 2 * len l /\
    puzzle_list.EncodeIndexList l = Ok bs.
Proof.
  intros H. destruct (decode_from_bytes bs [] H) as (l & Hl & Hall & Hflat).
  exists l. unfold puzzle_list.DecodeIndexList. rewrite H. cbn [Z.eqb negb].
  split; [exact Hl | split; [exact Hall | split]].
  - now rewrite <- Hflat, len_flat_map_PutUint16.
  - unfold puzzle_list.EncodeIndexList.
    now rewrite encode_from_in_range, Hflat.
Qed.

Lemma decode_then_encode_witness :
  exists l,
    puzzle_list.DecodeIndexList ["002"; "001"; "255"; "255"]%byte = Ok l /\
    Forall (fun i => 0 <= i <= 65535) l /\
    len ["002"; "001"; "255"; "255"]%byte = 2 * len l /\
    puzzle_list.EncodeIndexList l = Ok ["002"; "001"; "255"; "255"]%byte.
Proof.
  apply (decode_then_encode ["002"; "001"; "255"; "255"]%byte).
  reflexivity.
Defined.

(** ** The shuffle: unbiased draws, any content *)

Lemma ceil_div_spec (X n w : Z) :
  0 < n -> (X <= w * n <-> (X + n - 1) / n <= w).
Proof.
  intros Hn. pose proof (Z.div_mod (X + n - 1) n ltac:(lia)) as Hd.
  pose proof (Z.mod_pos_bound (X + n - 1) n Hn) as Hr.
  set (c := (X + n - 1) / n) in *. set (r := (X + n - 1) mod n) in *.
  split; intros H; nia.
Qed.

Lemma reject_loop_pos (fuel : nat) random n thresh :
  forall pos v prod low r pos',
    shuffle.reject_loop fuel random pos v n thresh prod low = Some (r, pos') ->
    (pos <= pos')%nat /\ ((low <? thresh) = true -> (pos < pos')%nat).
Proof.
  induction fuel as [|fuel IH]; intros pos v prod low r pos' H; simpl in H.
  - destruct (low <? thresh); [discriminate|]. injection H as _ <-.
    split; [lia | discriminate].
  - destruct (low <? thresh).
    + unfold shuffle.read_u32 in H.
      destruct (random pos); apply IH in H; split; intros; lia.
    + injection H as _ <-. split; [lia | discriminate].
Qed.

(** The threshold of the rejection loop is [2^32 mod n]. *)
Lemma threshold_mod (n : Z) :
  1 <= n <= 2 ^ 31 - 1 -> u32 (wrap32 (- n)) mod u32 n = 2 ^ 32 mod n.
Proof.
  intros Hn. rewrite wrap32_small by lia. unfold u32.
  rewrite (Z.mod_small n) by lia.
  replace (- n) with (2 ^ 32 - n + (- 1) * 2 ^ 32) by ring.
  rewrite Z.mod_add by lia. rewrite (Z.mod_small (2 ^ 32 - n)) by lia.
  replace (2 ^ 32 - n) with (2 ^ 32 + (- 1) * n) by ring.
  now rewrite Z.mod_add by lia.
Qed.

(** One read of [v]: the call returns after this read exactly when the
    low word of [v * n] is not below the threshold, and then with the
    high word. *)
Lemma uniformRandom31_one_read fuel random pos n v j :
  1 <= n <= 2 ^ 31 - 1 -> 0 <= v < 2 ^ 32 -> random pos = Some v ->
  (shuffle.uniformRandom31 fuel random pos n = Some (j, S pos) <->
   2 ^ 32 mod n <= (v * n) mod 2 ^ 32 /\ j = v * n / 2 ^ 32).
Proof.
  intros Hn Hv Hread. unfold shuffle.uniformRandom31.
  unfold shuffle.read_u32 at 1. rewrite Hread. cbv zeta iota beta.
  assert (Hu : u32 v = v) by (unfold u32; now apply Z.mod_small).
  rewrite Hu, (u64_small v), (u64_small n) by lia.
  rewrite u64_small by nia.
  rewrite threshold_mod by exact Hn.
  assert (Hn32 : u32 n = n) by (unfold u32; apply Z.mod_small; lia).
  rewrite Hn32. unfold u32 at 1 2.
  pose proof (Z.mod_pos_bound (2 ^ 32) n ltac:(lia)) as Ht.
  assert (Hhigh : wrap32 (Z.shiftr (v * n) 32) = v * n / 2 ^ 32).
  { rewrite Z.shiftr_div_pow2 by lia.
    assert (0 <= v * n / 2 ^ 32 < n).
    { split; [apply Z.div_pos; nia|]. apply Z.div_lt_upper_bound; nia. }
    apply wrap32_small. lia. }
  destruct (Z.ltb_spec ((v * n) mod 2 ^ 32) n) as [Hlow|Hlow].
  - destruct (shuffle.reject_loop fuel random (S pos) v n (2 ^ 32 mod n)
                (v * n) ((v * n) mod 2 ^ 32)) as [[r p]|] eqn:E.
    + pose proof (reject_loop_pos _ _ _ _ _ _ _ _ _ _ E) as [Hle Hlt].
      destruct (Z.ltb_spec ((v * n) mod 2 ^ 32) (2 ^ 32 mod n)) as [Hrej|Hacc].
      * specialize (Hlt eq_refl). split.
        -- intros H. assert (p = S pos) by congruence. lia.
        -- intros [H _]. lia.
      * assert (Hr : r = v * n /\ p = S pos).
        { destruct fuel; cbn [shuffle.reject_loop] in E;
            destruct (Z.ltb_spec ((v * n) mod 2 ^ 32) (2 ^ 32 mod n));
            try lia; injection E as <- <-; now split. }
        destruct Hr as [-> ->]. rewrite Hhigh. split.
        -- intros H. injection H as <-. now split.
        -- intros [_ ->]. reflexivity.
    + split; [discriminate|]. intros [Hacc _].
      destruct (Z.ltb_spec ((v * n) mod 2 ^ 32) (2 ^ 32 mod n)) as [|Hge];
        [lia|].
      destruct fuel; cbn [shuffle.reject_loop] in E;
        destruct (Z.ltb_spec ((v * n) mod 2 ^ 32) (2 ^ 32 mod n));
        try lia; discriminate.
  - rewrite Hhigh. split.
    + intros H. injection H as <-. split; [lia | reflexivity].
    + intros [_ ->]. reflexivity.
Qed.

(** X14. The draws of [uniformRandom31] are unbiased.  For a bound
    [n] in [1, 2^31 - 1] and each value [j] below it, the 32-bit values
    on which the call returns [j] after a single read form an interval
    of exactly [2^32 / n] values: every [j] has as many. *)
Theorem uniformRandom31_unbiased (n j : Z) :
  1 <= n <= 2 ^ 31 - 1 -> 0 <= j < n ->
  exists lo,
    0 <= lo /\ lo + 2 ^ 32 / n <= 2 ^ 32 /\
    forall fuel random pos v,
      0 <= v < 2 ^ 32 -> random pos = Some v ->
      (shuffle.uniformRandom31 fuel random pos n = Some (j, S pos) <->
       lo <= v < lo + 2 ^ 32 / n).
Proof.
  intros Hn Hj.
  pose proof (Z.div_mod (2 ^ 32) n ltac:(lia)) as HB.
  pose proof (Z.mod_pos_bound (2 ^ 32) n ltac:(lia)) as Ht.
  assert (Hq : 0 <= 2 ^ 32 / n) by (apply Z.div_pos; lia).
  set (q := 2 ^ 32 / n) in *. set (t := 2 ^ 32 mod n) in *.
  set (X := j * 2 ^ 32 + t).
  exists ((X + n - 1) / n).
  assert (Hlo0 : 0 <= (X + n - 1) / n) by (apply Z.div_pos; unfold X; nia).
  assert (Hceil : forall w, X <= w * n <-> (X + n - 1) / n <= w)
    by (intros w; apply ceil_div_spec; lia).
  split; [exact Hlo0 | split].
  - assert (H : X <= (2 ^ 32 - q) * n) by (unfold X; nia).
    rewrite Hceil in H. lia.
  - intros fuel random pos v Hv Hread.
    rewrite (uniformRandom31_one_read fuel random pos n v j Hn Hv Hread).
    fold t.
    pose proof (Z.div_mod (v * n) (2 ^ 32) ltac:(lia)) as Hd.
    pose proof (Z.mod_pos_bound (v * n) (2 ^ 32) ltac:(lia)) as Hm.
    set (hi := v * n / 2 ^ 32) in *. set (low := (v * n) mod 2 ^ 32) in *.
    pose proof (Hceil v) as Hc1. pose proof (Hceil (v - q)) as Hc2.
    split.
    + intros [Hacc ->].
      assert (H1 : X <= v * n) by (unfold X; lia).
      assert (H2 : ~ (X <= (v - q) * n)) by (unfold X; nia).
      rewrite Hc1 in H1. rewrite Hc2 in H2. lia.
    + intros [H1 H2]. rewrite <- Hc1 in H1.
      assert (H3 : ~ (X <= (v - q) * n)) by (rewrite Hc2; lia).
      unfold X in H1, H3.
      assert (Hhi : hi = j) by nia.
      split; [|now symmetry]. subst hi. rewrite Hhi in Hd. lia.
Qed.

Lemma uniformRandom31_unbiased_witness :
  exists lo,
    0 <= lo /\ lo + 2 ^ 32 / 3 <= 2 ^ 32 /\
    forall fuel random pos v,
      0 <= v < 2 ^ 32 -> random pos = Some v ->
      (shuffle.uniformRandom31 fuel random pos 3 = Some (1, S pos) <->
       lo <= v < lo + 2 ^ 32 / 3).
Proof. apply (uniformRandom31_unbiased 3 1); lia. Defined.

Lemma set_nth_map {A B} (f : A -> B) (l : list A) (n : nat) (x : A) :
  set_nth (map f l) n (f x) = map f (set_nth l n x).
Proof.
  revert n. induction l as [|h t IH]; intros [|n]; simpl; try reflexivity.
  now rewrite IH.
Qed.

Lemma index_map {A B} (f : A -> B) (l : list A) (i : Z) (y : A) :
  index l i = Ok y -> index (map f l) i = Ok (f y).
Proof.
  unfold index, len. rewrite length_map.
  destruct ((i <? 0) || (Z.of_nat (List.length l) <=? i)); [discriminate|].
  rewrite nth_error_map. destruct (nth_error l (Z.to_nat i)); [|discriminate].
  intros H. injection H as <-. reflexivity.
Qed.

Lemma Shuffle_step_state {St} (swap : Z -> Z -> St -> St) i j st idx perm
  st' idx' perm' :
  shuffle.Shuffle_step St swap i j st idx perm = Ok (st', idx', perm') ->
  st' = swap i j st.
Proof.
  unfold shuffle.Shuffle_step. cbv zeta. intros H.
  repeat match type of H with
         | bind ?r _ = _ => destruct r; try discriminate; cbn [bind] in H
         end.
  now injection H as <- _ _.
Qed.

Section AnyContent.

Variable A : Type.
Variable xs : list A.
Variable d : A.

Let f (i : Z) : A := nth (Z.to_nat i) xs d.

(** What a run on the array [0 .. n-1] gives, read as a run on [xs]. *)
Let lift (o : option (result (list Z * list Z * nat)))
  : option (result (list A * list Z * nat)) :=
  match o with
  | None => None
  | Some (Ok (a, perm, pos)) => Some (Ok (map f a, perm, pos))
  | Some (Err e) => Some (Err e)
  | Some (Panic p) => Some (Panic p)
  end.

Lemma swap_at_map (a : list Z) (i j : Z) :
  0 <= i < len a -> 0 <= j < len a ->
  shuffle.swap_at i j (map f a) = map f (shuffle.swap_elems i j a).
Proof.
  intros Hi Hj. unfold shuffle.swap_at, shuffle.swap_elems, len in *.
  cbv zeta. rewrite !nth_error_map.
  rewrite (nth_error_nth' a 0) by lia.
  rewrite (nth_error_nth' a 0) by lia.
  cbn [option_map]. now rewrite !set_nth_map.
Qed.

Lemma Shuffle_step_map (i j : Z) (a idx perm : list Z) :
  0 <= i < len a -> 0 <= j < len a ->
  shuffle.Shuffle_step (list A) shuffle.swap_at i j (map f a) idx perm =
  match shuffle.Shuffle_step (list Z) shuffle.swap_elems i j a idx perm with
  | Ok (a', idx', perm') => Ok (map f a', idx', perm')
  | Err e => Err e
  | Panic p => Panic p
  end.
Proof.
  intros Hi Hj. unfold shuffle.Shuffle_step. cbv zeta.
  rewrite swap_at_map by assumption.
  destruct (index idx j); cbn [bind]; try reflexivity.
  destruct (index idx i); cbn [bind]; try reflexivity.
  destruct (shuffle.store idx i _) as [idx1| |]; cbn [bind]; try reflexivity.
  destruct (shuffle.store idx1 j _) as [idx2| |]; cbn [bind]; try reflexivity.
  destruct (index idx2 i); cbn [bind]; try reflexivity.
  destruct (shuffle.store perm _ i); cbn [bind]; reflexivity.
Qed.

Lemma Shuffle_loop_map (n fuel : nat) (random : shuffle.Reader) :
  Z.of_nat n <= 2 ^ 31 - 2 ->
  forall k pos a idx perm,
    (k < n)%nat -> List.length a = n ->
    shuffle.Shuffle_loop (list A) shuffle.swap_at fuel random k pos
      (map f a) idx perm =
    lift (shuffle.Shuffle_loop (list Z) shuffle.swap_elems fuel random k pos
            a idx perm).
Proof.
  intros Hn. induction k as [|k IH]; intros pos a idx perm Hk Hlen;
    [reflexivity|].
  cbn [shuffle.Shuffle_loop].
  rewrite wrap32_small by lia.
  destruct (shuffle.uniformRandom31 fuel random pos (Z.of_nat (S k) + 1))
    as [[j pos1]|] eqn:Hu; [|reflexivity].
  assert (Hb : 1 <= Z.of_nat (S k) + 1 <= 2 ^ 31 - 1) by lia.
  pose proof (uniformRandom31_range _ _ _ _ _ _ Hb Hu) as Hj.
  rewrite Shuffle_step_map by (unfold len; lia).
  destruct (shuffle.Shuffle_step (list Z) shuffle.swap_elems
              (Z.of_nat (S k)) j a idx perm)
    as [[[a' idx'] perm']| |] eqn:Hs; try reflexivity.
  apply IH; [lia|].
  apply Shuffle_step_state in Hs. subst a'.
  unfold shuffle.swap_elems. cbv zeta. now rewrite !set_nth_length.
Qed.

End AnyContent.

Lemma map_nth_identity {A} (xs : list A) (d : A) :
  map (fun i => nth (Z.to_nat i) xs d)
    (map Z.of_nat (seq 0 (List.length xs))) = xs.
Proof.
  rewrite map_map. apply (nth_ext _ _ d d).
  - now rewrite length_map, length_seq.
  - intros p Hp. rewrite length_map, length_seq in Hp.
    rewrite (nth_indep _ d (nth (Z.to_nat (Z.of_nat 0)) xs d))
      by (rewrite length_map, length_seq; exact Hp).
    rewrite (map_nth (fun x => nth (Z.to_nat (Z.of_nat x)) xs d)).
    rewrite seq_nth by exact Hp. now rewrite Nat2Z.id.
Qed.

Lemma shuffled_final_onto (n : nat) (idx perm a : list Z) (p : nat) :
  shuffled n 0 idx perm a -> (p < n)%nat ->
  exists i, 0 <= i < Z.of_nat n /\
            shuffle.Get {| shuffle.perm := perm |} i = Ok (Z.of_nat p).
Proof.
  intros (Hli & Hlp & Ha & Hrange & Hinj & Hsurj & Habove & Hbelow) Hp.
  pose proof (Hrange p Hp) as Hr.
  exists (nth p idx 0). split; [exact Hr|].
  unfold shuffle.Get. cbn [shuffle.perm].
  rewrite <- (Z2Nat.id (nth p idx 0)) at 1 by lia.
  rewrite (index_nat perm _ 0) by lia. f_equal.
  destruct p as [|p]; [apply Hbelow; lia | apply Habove; lia].
Qed.

(** X15. The shuffle of a slice of any content.  For a slice [xs] of
    at most 2^31 - 2 elements and the callback that exchanges two of
    its elements: whenever [Shuffle] returns, the slice has kept its
    length, the element that was at index [i] is found at [m.Get(i)],
    and every position is the [Get] of some index, so that no element
    is lost or repeated; and [Shuffle] does return on every source
    that keeps delivering values which the rejection loop accepts. *)
Theorem Shuffle_any_content {A} (xs : list A) :
  len xs <= 2 ^ 31 - 2 ->
  (forall fuel random r,
     shuffle.Shuffle (list A) shuffle.swap_at fuel random (len xs) xs
     = Some r ->
     exists m a pos,
       r = Ok (m, a, pos) /\ len a = len xs /\
       (forall i x, index xs i = Ok x ->
          exists j, shuffle.Get m i = Ok j /\ index a j = Ok x) /\
       (forall j, 0 <= j < len xs ->
          exists i, 0 <= i < len xs /\ shuffle.Get m i = Ok j)) /\
  (forall random, spec.delivers random ->
     exists fuel r,
       shuffle.Shuffle (list A) shuffle.swap_at fuel random (len xs) xs
       = Some r).
Proof.
  intros Hn. pose proof (len_nonneg xs) as H0. split.
  - intros fuel random r H. unfold shuffle.Shuffle in H.
    destruct (Z.ltb_spec (len xs) 0); [lia|].
    destruct (Z.gtb_spec (len xs) (2 ^ 31 - 1 - 1)); [lia|].
    cbn [orb] in H. cbv zeta in H.
    destruct xs as [|x0 rest] eqn:Exs.
    + simpl in H. injection H as <-. do 3 eexists.
      split; [reflexivity|]. split; [reflexivity|]. split.
      * intros i x Hi. apply index_Ok_range in Hi.
        unfold len in Hi. simpl in Hi. lia.
      * intros j Hj. unfold len in Hj. simpl in Hj. lia.
    + assert (Hpos : (0 < List.length xs)%nat) by (rewrite Exs; simpl; lia).
      rewrite <- Exs in *. clear Exs rest.
      set (n := List.length xs) in *.
      assert (Hlen : len xs = Z.of_nat n) by reflexivity.
      rewrite Hlen in *. rewrite Nat2Z.id in H.
      replace (Z.to_nat (Z.of_nat n - 1)) with (n - 1)%nat in H by lia.
      rewrite <- (map_nth_identity xs x0) in H at 1. fold n in H.
      rewrite (Shuffle_loop_map A xs x0 n fuel random ltac:(lia))
        in H by (try rewrite length_map, length_seq; lia).
      destruct (shuffle.Shuffle_loop (list Z) shuffle.swap_elems fuel random
                  (n - 1) 0 (map Z.of_nat (seq 0 n))
                  (map Z.of_nat (seq 0 n)) (repeat 0 n)) as [rz|] eqn:Ez;
        [|discriminate].
      assert (Hle : Z.of_nat n <= 2 ^ 31 - 2) by lia.
      assert (Hlt : (n - 1 < n)%nat) by lia.
      destruct (Shuffle_loop_shuffled n fuel random Hle
                  _ _ _ _ _ _ Hlt (shuffled_initial n) Ez)
        as (a' & perm' & pos' & idx' & -> & Hfin).
      injection H as <-. do 3 eexists. split; [reflexivity|].
      assert (Hla : List.length a' = n).
      { destruct Hfin as (Hli & _ & -> & _). exact Hli. }
      split; [unfold len; now rewrite length_map, Hla|]. split.
      * intros i x Hi. pose proof (index_Ok_range _ _ _ Hi) as Hr.
        rewrite Hlen in Hr.
        destruct (shuffled_final _ _ _ _ (Z.to_nat i) Hfin ltac:(lia))
          as (j & Hj1 & Hj2).
        rewrite Z2Nat.id in Hj1, Hj2 by lia.
        exists j. split; [exact Hj1|].
        rewrite (index_map _ _ _ _ Hj2). f_equal.
        rewrite <- (Z2Nat.id i) in Hi by lia.
        rewrite (index_nat xs _ x0) in Hi by (fold n; lia).
        now injection Hi.
      * intros j Hj.
        destruct (shuffled_final_onto _ _ _ _ (Z.to_nat j) Hfin ltac:(lia))
          as (i & Hi & Hg).
        rewrite Z2Nat.id in Hg by lia. now exists i.
  - intros random Hd.
    destruct (Shuffle_loop_ends (@shuffle.swap_at A) random Hd
                (Z.to_nat (len xs - 1)) 0%nat xs
                (map Z.of_nat (seq 0 (Z.to_nat (len xs))))
                (repeat 0 (Z.to_nat (len xs))) ltac:(lia))
      as (fuel & r0 & Hr0).
    exists fuel. unfold shuffle.Shuffle.
    destruct (Z.ltb_spec (len xs) 0); [lia|].
    destruct (Z.gtb_spec (len xs) (2 ^ 31 - 1 - 1)); [lia|].
    cbn [orb]. cbv zeta. rewrite Hr0. eauto.
Qed.

Lemma Shuffle_any_content_witness :
  exists fuel r,
    shuffle.Shuffle (list string) shuffle.swap_at fuel spec.ones
      (len ["a"; "b"; "c"]%string) ["a"; "b"; "c"]%string = Some r.
Proof.
  apply (proj2 (Shuffle_any_content ["a"; "b"; "c"]%string
                  ltac:(unfold len; simpl; lia)) spec.ones ones_delivers).
Defined.

(** ** Epochs: lookup and expiry *)

Lemma expire_loop_split d h es :
  spec.epochs_ok d es ->
  forall n, exists old kept,
    es = old ++ kept /\
    Forall (fun x => x + d < h) (spec.heights old) /\
    Forall (fun x => h <= x + d) (spec.heights kept) /\
    spec.no_nil old /\ spec.no_nil kept /\
    tumbler.expire_loop d h es n
    = Ok (repeat None (List.length old) ++ kept,
          n + Z.of_nat (List.length old)).
Proof.
  intros (Hnn & HS & Hr). unfold spec.strictly_increasing in HS.
  induction Hnn as [|[e|] es Hx Hnn IH]; intros n.
  - exists [], []. simpl. rewrite Z.add_0_r.
    repeat split; constructor.
  - simpl in HS, Hr. inversion HS as [|? ? HS' Hall]; subst.
    inversion Hr as [|? ? Hre Hr']; subst.
    cbn [tumbler.expire_loop]. rewrite wrap32_in_range by assumption.
    destruct (Z.ltb_spec (tumbler.BlockHeight e + d) h).
    + destruct (IH HS' Hr' (n + 1))
        as (old & kept & -> & Ho & Hk & Hno & Hnk & ->).
      exists (Some e :: old), kept. cbn [bind].
      repeat split; try assumption.
      * simpl. now constructor.
      * now constructor.
      * cbn [List.length repeat app]. do 2 f_equal. lia.
    + assert (Hkeep : Forall (fun x => h <= x + d) (spec.heights es)).
      { eapply Forall_impl; [|exact Hall]. simpl. intros. lia. }
      rewrite expire_loop_none_expired by assumption.
      exists [], (Some e :: es). cbn [bind]. simpl. rewrite Z.add_0_r.
      repeat split; try constructor; try assumption; try discriminate.
  - contradiction.
Qed.

Lemma getPuzzleKey_loop_app es1 es2 h :
  tumbler.getPuzzleKey_loop (es1 ++ es2) h =
  match tumbler.getPuzzleKey_loop es1 h with
  | Err _ => tumbler.getPuzzleKey_loop es2 h
  | r => r
  end.
Proof.
  induction es1 as [|[e|] es1 IH]; simpl; try reflexivity.
  destruct (tumbler.BlockHeight e =? h); [reflexivity | exact IH].
Qed.

Lemma getPuzzleKey_loop_missing es h :
  spec.no_nil es -> ~ In h (spec.heights es) ->
  tumbler.getPuzzleKey_loop es h = Err tumbler.ErrEpochNotFound.
Proof.
  induction 1 as [|[e|] es Hx _ IH]; simpl; intros Hin;
    [reflexivity | | contradiction].
  destruct (Z.eqb_spec (tumbler.BlockHeight e) h) as [Heq|_].
  - exfalso. apply Hin. now left.
  - apply IH. intros H. apply Hin. now right.
Qed.

Lemma getPuzzleKey_loop_found es h :
  spec.no_nil es -> In h (spec.heights es) ->
  exists e, In (Some e) es /\ tumbler.BlockHeight e = h /\
            tumbler.getPuzzleKey_loop es h = Ok (tumbler.puzzleKey e).
Proof.
  induction 1 as [|[e|] es Hx _ IH]; simpl; intros Hin;
    [contradiction | | contradiction].
  destruct (Z.eqb_spec (tumbler.BlockHeight e) h) as [Heq|Hne].
  - exists e. repeat split; auto.
  - destruct Hin as [Heq|Hin]; [contradiction|].
    destruct (IH Hin) as (e' & H1 & H2 & H3). exists e'. auto.
Qed.

Lemma isValidEpoch_loop_spec es h :
  spec.no_nil es ->
  (In h (spec.heights es) -> tumbler.isValidEpoch_loop es h = Ok true) /\
  (~ In h (spec.heights es) -> tumbler.isValidEpoch_loop es h = Ok false).
Proof.
  induction 1 as [|[e|] es Hx _ IH]; simpl;
    [split; [contradiction | reflexivity] | | contradiction].
  destruct (Z.eqb_spec (tumbler.BlockHeight e) h) as [Heq|Hne]; split.
  - reflexivity.
  - intros Hin. exfalso. apply Hin. now left.
  - intros [Heq|Hin]; [contradiction|]. now apply IH.
  - intros Hin. apply IH. intros H. apply Hin. now right.
Qed.

Lemma not_in_by_bound (P : Z -> Prop) (l : list Z) (x : Z) :
  Forall P l -> ~ P x -> ~ In x l.
Proof.
  intros H Hx Hin. rewrite Forall_forall in H. apply Hx. now apply H.
Qed.

(** X16. The epochs after a new one.  On a well-formed epoch list,
    when [NewEpoch(h)] succeeds with the key [pk]: [lastEpoch] is [h],
    [h] is a valid epoch, and [getPuzzleKey] finds [pk] at [h],
    nothing at a height that has expired ([height + epochDuration < h])
    and what it found before at every other height. *)
Theorem NewEpoch_lookup (tb tb' : tumbler.Tumbler) (h : Z)
  (pk : puzzle.PuzzleKey) :
  spec.epochs_ok (tumbler.epochDuration tb) (tumbler.epochs tb) ->
  tumbler.NewEpoch tb h (Ok pk) = (Ok tt, tb') ->
  tumbler.lastEpoch tb' = h /\
  tumbler.isValidEpoch tb' h = Ok true /\
  forall h',
    tumbler.getPuzzleKey tb' h' =
    if h' =? h then Ok pk
    else if h' + tumbler.epochDuration tb <? h
         then Err tumbler.ErrEpochNotFound
         else tumbler.getPuzzleKey tb h'.
Proof.
  intros Hok H.
  destruct (NewEpoch_ok_form _ _ _ _ H) as (pk' & es' & n & Hpk & Hl & He & ->).
  injection Hpk as <-.
  destruct (expire_loop_split _ h _ Hok 0)
    as (old & kept & Hes & Ho & Hk & Hno & Hnk & Hexp).
  rewrite Hexp in He. injection He as <- <-.
  pose proof (above_latest_below _ _ (latest_not_older_false _ _ Hl)
                (proj1 (proj2 Hok))) as Hbelow.
  rewrite Hes, heights_app in Hbelow. apply Forall_app in Hbelow.
  destruct Hbelow as [Hbo Hbk].
  unfold tumbler.getPuzzleKey, tumbler.isValidEpoch.
  cbn [tumbler.set_epochs_lastEpoch tumbler.epochs tumbler.lastEpoch].
  rewrite ?Z.add_0_l, Nat2Z.id, skipn_repeat_app.
  assert (Hnew : spec.no_nil (kept ++ [Some (spec.new_epoch h pk)])).
  { apply no_nil_app; [exact Hnk|]. repeat constructor. discriminate. }
  split; [reflexivity | split].
  - apply (isValidEpoch_loop_spec _ h Hnew).
    rewrite heights_app. apply in_or_app. right. now left.
  - intros h'. rewrite getPuzzleKey_loop_app, Hes, getPuzzleKey_loop_app.
    destruct (Z.eqb_spec h' h) as [->|Hne].
    + rewrite (getPuzzleKey_loop_missing kept h Hnk)
        by (apply (not_in_by_bound _ _ _ Hbk); lia).
      simpl. now rewrite Z.eqb_refl.
    + destruct (Z.ltb_spec (h' + tumbler.epochDuration tb) h) as [Hexpd|Hlive].
      * rewrite (getPuzzleKey_loop_missing kept h' Hnk)
          by (apply (not_in_by_bound _ _ _ Hk); lia).
        simpl. destruct (Z.eqb_spec h h'); [lia | reflexivity].
      * rewrite (getPuzzleKey_loop_missing old h' Hno)
          by (apply (not_in_by_bound _ _ _ Ho); lia).
        destruct (tumbler.getPuzzleKey_loop kept h') as [k|e|p] eqn:Ek;
          try reflexivity.
        simpl. destruct (Z.eqb_spec h h'); [lia|].
        destruct (in_dec Z.eq_dec h' (spec.heights kept)) as [Hin|Hnin].
        -- destruct (getPuzzleKey_loop_found kept h' Hnk Hin)
             as (e' & _ & _ & Hf). congruence.
        -- rewrite (getPuzzleKey_loop_missing kept h' Hnk Hnin) in Ek.
           congruence.
Qed.

Lemma sample_epochs_ok :
  spec.epochs_ok (tumbler.epochDuration sample.tb1)
    (tumbler.epochs sample.tb1).
Proof.
  unfold spec.epochs_ok. simpl. split; [|split].
  - repeat constructor. discriminate.
  - repeat constructor.
  - repeat constructor; unfold int32_min, int32_max; simpl; lia.
Qed.

Lemma NewEpoch_lookup_witness :
  let tb' := snd (tumbler.NewEpoch sample.tb1 1250 (Ok sample.key)) in
  tumbler.lastEpoch tb' = 1250 /\
  tumbler.isValidEpoch tb' 1250 = Ok true /\
  forall h',
    tumbler.getPuzzleKey tb' h' =
    if h' =? 1250 then Ok sample.key
    else if h' + tumbler.epochDuration sample.tb1 <? 1250
         then Err tumbler.ErrEpochNotFound
         else tumbler.getPuzzleKey sample.tb1 h'.
Proof.
  apply (NewEpoch_lookup sample.tb1 _ 1250 sample.key sample_epochs_ok).
  reflexivity.
Defined.

(** X17. Looking up an epoch, on a list without nil entries: at a
    height that some epoch has, [isValidEpoch] is true and
    [getPuzzleKey] returns the key of an epoch of the list with that
    height; at any other height [isValidEpoch] is false and
    [getPuzzleKey] fails with [ErrEpochNotFound]. *)
Theorem epoch_lookup_agrees (tb : tumbler.Tumbler) (h : Z) :
  spec.no_nil (tumbler.epochs tb) ->
  (In h (spec.heights (tumbler.epochs tb)) ->
   tumbler.isValidEpoch tb h = Ok true /\
   exists e, In (Some e) (tumbler.epochs tb) /\ tumbler.BlockHeight e = h /\
             tumbler.getPuzzleKey tb h = Ok (tumbler.puzzleKey e)) /\
  (~ In h (spec.heights (tumbler.epochs tb)) ->
   tumbler.isValidEpoch tb h = Ok false /\
   tumbler.getPuzzleKey tb h = Err tumbler.ErrEpochNotFound).
Proof.
  intros Hnn. unfold tumbler.isValidEpoch, tumbler.getPuzzleKey. split.
  - intros Hin. split.
    + now apply isValidEpoch_loop_spec.
    + now apply getPuzzleKey_loop_found.
  - intros Hnin. split.
    + now apply isValidEpoch_loop_spec.
    + now apply getPuzzleKey_loop_missing.
Qed.

Lemma epoch_lookup_agrees_witness :
  tumbler.isValidEpoch sample.tb1 1235 = Ok false /\
  tumbler.getPuzzleKey sample.tb1 1235 = Err tumbler.ErrEpochNotFound.
Proof.
  apply (proj2 (epoch_lookup_agrees sample.tb1 1235
                  (proj1 sample_epochs_ok))).
  simpl. intros [H | []]. discriminate H.
Defined.

(** ** The address of an epoch *)

Lemma find_epoch_index tb h es :
  forall k i, tumbler.find_epoch tb h es k = Ok (tumbler.Unallocated i) ->
              (k <= i)%nat.
Proof.
  induction es as [|[e|] es IH]; intros k i H; simpl in H; try discriminate.
  destruct (tumbler.BlockHeight e =? h).
  - destruct (Z.of_nat (String.length (tumbler.Address e)) >? 0);
      [discriminate|].
    destruct (wrap32 _ <? wrap32 _); [discriminate|].
    injection H as <-. lia.
  - apply IH in H. lia.
Qed.

Lemma find_epoch_allocated tb tb2 h addr pkey es :
  addr <> ""%string ->
  forall k i,
    tumbler.find_epoch tb h es k = Ok (tumbler.Unallocated i) ->
    tumbler.find_epoch tb2 h
      (set_nth es (i - k)
         (tumbler.set_epoch_address addr pkey (nth (i - k) es None))) k
    = Ok (tumbler.Allocated addr pkey).
Proof.
  intros Haddr. induction es as [|[e|] es IH]; intros k i H;
    cbn [tumbler.find_epoch] in H; try discriminate.
  destruct (Z.eqb_spec (tumbler.BlockHeight e) h) as [Heq|Hne].
  - destruct (Z.of_nat (String.length (tumbler.Address e)) >? 0);
      [discriminate|].
    destruct (wrap32 _ <? wrap32 _); [discriminate|].
    injection H as <-. rewrite Nat.sub_diag. cbn [nth set_nth].
    cbn [tumbler.set_epoch_address tumbler.find_epoch tumbler.BlockHeight
         tumbler.Address tumbler.Pubkey].
    destruct (Z.eqb_spec (tumbler.BlockHeight e) h); [|contradiction].
    destruct addr as [|c addr]; [contradiction|].
    cbn [String.length]. destruct (Z.gtb_spec (Z.of_nat (S (String.length addr))) 0);
      [reflexivity | lia].
  - pose proof (find_epoch_index _ _ _ _ _ H) as Hle.
    replace (i - k)%nat with (S (i - S k)) by lia.
    cbn [nth set_nth tumbler.find_epoch].
    destruct (Z.eqb_spec (tumbler.BlockHeight e) h); [contradiction|].
    now apply IH.
Qed.

Lemma getPuzzleKey_loop_set_address addr pkey es h :
  forall i,
    tumbler.getPuzzleKey_loop
      (set_nth es i (tumbler.set_epoch_address addr pkey (nth i es None))) h
    = tumbler.getPuzzleKey_loop es h.
Proof.
  induction es as [|x es IH]; intros [|i]; cbn [set_nth nth]; try reflexivity.
  - destruct x as [e|]; reflexivity.
  - destruct x as [e|]; cbn [tumbler.getPuzzleKey_loop]; [|reflexivity].
    now rewrite IH.
Qed.

Section EpochAddress.

Variable World : Type.
Variable wallet_GetExtAddress : World -> result (string * string) * World.

(** X18. The address of an epoch is allocated once.  When
    [getEpochAddress] returns an address that is not the empty string,
    a further call for the same height returns the same address and
    public key and changes nothing, the wallet is not asked again; the
    call leaves the session as it was, and [getPuzzleKey] finds after
    it what it found before. *)
Theorem getEpochAddress_once (h : Z) (st st' : tumbler.Sys World)
  (addr pkey : string) :
  tumbler.getEpochAddress wallet_GetExtAddress h st = (Ok (addr, pkey), st') ->
  addr <> ""%string ->
  tumbler.getEpochAddress wallet_GetExtAddress h st' = (Ok (addr, pkey), st') /\
  tumbler.sess st' = tumbler.sess st /\
  forall h', tumbler.getPuzzleKey (tumbler.tum st') h'
             = tumbler.getPuzzleKey (tumbler.tum st) h'.
Proof.
  intros H Haddr. destruct st as [s tb w].
  unfold tumbler.getEpochAddress, tumbler.mbind, tumbler.getT, tumbler.lift,
    tumbler.ret, tumbler.fail, tumbler.world, tumbler.putT in H.
  cbn [tumbler.tum tumbler.sess tumbler.wld] in H.
  destruct (tumbler.find_epoch tb h (tumbler.epochs tb) 0)
    as [[a p | i |]| |] eqn:Hf; try discriminate.
  - injection H as <- <- <-.
    split; [|split; [reflexivity | reflexivity]].
    unfold tumbler.getEpochAddress, tumbler.mbind, tumbler.getT, tumbler.lift,
      tumbler.ret. cbn [tumbler.tum]. now rewrite Hf.
  - cbn [tumbler.tum tumbler.sess tumbler.wld] in H.
    destruct (wallet_GetExtAddress w) as [[[a p]| |] w'] eqn:Hw;
      try discriminate.
    cbn [tumbler.tum tumbler.sess tumbler.wld] in H.
    injection H as <- <- <-.
    cbn [tumbler.sess tumbler.tum].
    split; [|split; [reflexivity|]].
    + unfold tumbler.getEpochAddress, tumbler.mbind, tumbler.getT,
        tumbler.lift, tumbler.ret.
      cbn [tumbler.tum tumbler.set_epochs tumbler.epochs].
      pose proof (find_epoch_allocated tb
                    (tumbler.set_epochs
                       (set_nth (tumbler.epochs tb) i
                          (tumbler.set_epoch_address a p
                             (nth i (tumbler.epochs tb) None))) tb)
                    h a p (tumbler.epochs tb) Haddr 0%nat i Hf) as Hall.
      rewrite Nat.sub_0_r in Hall.
      change (tumbler.epochs (tumbler.set_epochs ?l ?t)) with l.
      now rewrite Hall.
    + intros h'. unfold tumbler.getPuzzleKey.
      change (tumbler.epochs (tumbler.set_epochs ?l ?t)) with l.
      apply getPuzzleKey_loop_set_address.
Qed.

End EpochAddress.

Lemma getEpochAddress_once_witness :
  let st := {| tumbler.sess := sample.session 7 [] [];
               tumbler.tum := sample.tb1; tumbler.wld := tt |} in
  let st' := snd (tumbler.getEpochAddress sample.wallet_address 1234 st) in
  tumbler.getEpochAddress sample.wallet_address 1234 st'
  = (Ok ("TsEpochAddress", "TsEpochPubKey")%string, st') /\
  tumbler.sess st' = tumbler.sess st /\
  forall h', tumbler.getPuzzleKey (tumbler.tum st') h'
             = tumbler.getPuzzleKey (tumbler.tum st) h'.
Proof.
  apply (getEpochAddress_once unit sample.wallet_address 1234).
  - reflexivity.
  - discriminate.
Defined.

(** ** What the handlers disclose *)

Section Outcomes.

Variable World : Type.

Import tumbler.

Lemma mbind_Ok {A B} (m : M World A) (k : A -> M World B) st r st' :
  mbind m k st = (Ok r, st') ->
  exists a st1, m st = (Ok a, st1) /\ k a st1 = (Ok r, st').
Proof.
  unfold mbind. destruct (m st) as [[a| |] st1]; try discriminate. eauto.
Qed.

Lemma lift_Ok {A} (x : result A) (st st1 : Sys World) a :
  lift x st = (Ok a, st1) -> x = Ok a /\ st1 = st.
Proof. unfold lift. intros H. injection H as -> ->. auto. Qed.

Lemma wrap_Ok {A} prefix (x : result A) a :
  wrap prefix x = Ok a -> x = Ok a.
Proof. destruct x; simpl; congruence. Qed.

Lemma getS_Ok (st st1 : Sys World) s :
  getS st = (Ok s, st1) -> s = sess st /\ st1 = st.
Proof. unfold getS. intros H. injection H as <- <-. auto. Qed.

Lemma getT_Ok (st st1 : Sys World) tb :
  getT st = (Ok tb, st1) -> tb = tum st /\ st1 = st.
Proof. unfold getT. intros H. injection H as <- <-. auto. Qed.

Lemma modS_Ok f (st st1 : Sys World) u :
  modS f st = (Ok u, st1) ->
  st1 = {| sess := f (sess st); tum := tum st; wld := wld st |}.
Proof. unfold modS. intros H. now injection H as <-. Qed.

Lemma collect_secrets_Ok msg s l xs :
  collect_secrets msg s l = Ok xs ->
  Forall2 (fun idx x => index (secrets s) idx = Ok x) l xs.
Proof.
  revert xs. induction l as [|idx l IH]; intros xs H; simpl in H.
  - injection H as <-. constructor.
  - destruct (idx >? len (secrets s)); [discriminate|].
    destruct (index (secrets s) idx) as [x| |] eqn:Hx; try discriminate.
    cbn [bind] in H.
    destruct (collect_secrets msg s l) as [rest| |]; try discriminate.
    cbn [bind] in H. injection H as <-. constructor; auto.
Qed.

Lemma verify_fake_puzzles_Ok s pk pd l :
  forall i, verify_fake_puzzles s pk pd i l = Ok tt ->
  forall j idx, nth_error l j = Some idx ->
    exists p f,
      index (puzzles s) idx = Ok p /\
      index (FakeFactors pd) (i + Z.of_nat j) = Ok f /\
      puzzle.ValidatePuzzle pk p f = true.
Proof.
  induction l as [|x l IH]; intros i H j idx Hj.
  - destruct j; discriminate.
  - cbn [verify_fake_puzzles] in H.
    destruct (x >? len (puzzles s)); [discriminate|].
    destruct (index (puzzles s) x) as [p| |] eqn:Hp; try discriminate.
    cbn [bind] in H.
    destruct (index (FakeFactors pd) i) as [f| |] eqn:Hf; try discriminate.
    cbn [bind] in H.
    destruct (puzzle.ValidatePuzzle pk p f) eqn:Hv; [|discriminate].
    cbn [negb] in H. destruct j as [|j].
    + injection Hj as <-. exists p, f. rewrite Z.add_0_r. auto.
    + destruct (IH (i + 1) H j idx Hj) as (p' & f' & H1 & H2 & H3).
      exists p', f'. repeat split; try assumption.
      now replace (i + Z.of_nat (S j)) with (i + 1 + Z.of_nat j) by lia.
Qed.

Lemma verify_real_puzzles_Ok s pk po l :
  forall i, verify_real_puzzles s pk po i l = Ok tt ->
  forall j idx, nth_error l j = Some idx ->
    exists z f,
      index (puzzles s) idx = Ok z /\
      index (po_RealFactors po) (i + Z.of_nat j) = Ok f /\
      puzzle.ValidateBlindedPuzzle pk z (po_Puzzle po) f = true.
Proof.
  induction l as [|x l IH]; intros i H j idx Hj.
  - destruct j; discriminate.
  - cbn [verify_real_puzzles] in H.
    destruct (x >? len (puzzles s)); [discriminate|].
    destruct (index (puzzles s) x) as [p| |] eqn:Hp; try discriminate.
    cbn [bind] in H.
    destruct (index (po_RealFactors po) i) as [f| |] eqn:Hf;
      try discriminate.
    cbn [bind] in H.
    destruct (puzzle.ValidateBlindedPuzzle pk p (po_Puzzle po) f) eqn:Hv;
      [|discriminate].
    cbn [negb] in H. destruct j as [|j].
    + injection Hj as <-. exists p, f. rewrite Z.add_0_r. auto.
    + destruct (IH (i + 1) H j idx Hj) as (p' & f' & H1 & H2 & H3).
      exists p', f'. repeat split; try assumption.
      now replace (i + Z.of_nat (S j)) with (i + 1 + Z.of_nat j) by lia.
Qed.

(** X19. [ValidateSolutions] gives away secrets only for puzzles whose
    solutions the client has shown.  When it succeeds, the session was
    in [SolutionsPromised] and is moved to [SolutionsValidated] with
    nothing else changed; the secrets returned are the stored secrets
    at the indexes of the decoded list, in order; and for each of
    these indexes the stored puzzle passed [ValidatePuzzle], under the
    key of the session's epoch, with the factor that the client
    disclosed at that position. *)
Theorem ValidateSolutions_reveals (pd : PuzzleDisclosure)
  (st st' : Sys World) (ss : SolutionSecrets) :
  ValidateSolutions World pd st = (Ok ss, st') ->
  state (sess st) = StateSolutionsPromised /\
  st' = {| sess := set_state StateSolutionsValidated (sess st);
           tum := tum st; wld := wld st |} /\
  exists fake pk,
    puzzle_list.DecodeIndexList (FakePuzzleList pd) = Ok fake /\
    getPuzzleKey (tum st) (epoch (sess st)) = Ok pk /\
    Forall2 (fun idx x => index (secrets (sess st)) idx = Ok x)
      fake (ss_Secrets ss) /\
    forall j idx, nth_error fake j = Some idx ->
      exists p f,
        index (puzzles (sess st)) idx = Ok p /\
        index (FakeFactors pd) (Z.of_nat j) = Ok f /\
        puzzle.ValidatePuzzle (puzzle.PublicKey pk) p f = true.
Proof.
  intros H. unfold ValidateSolutions in H.
  apply mbind_Ok in H. destruct H as (s & st1 & Hs & H).
  apply getS_Ok in Hs. destruct Hs as [-> ->].
  apply mbind_Ok in H. destruct H as (u & st1 & Hr & H).
  apply lift_Ok in Hr. destruct Hr as [Hr ->].
  apply mbind_Ok in H. destruct H as (fake & st1 & Hd & H).
  apply lift_Ok in Hd. destruct Hd as [Hd ->]. apply wrap_Ok in Hd.
  destruct (len fake >? len (puzzles (sess st))); [discriminate|].
  apply mbind_Ok in H. destruct H as (tb & st1 & Ht & H).
  apply getT_Ok in Ht. destruct Ht as [-> ->].
  apply mbind_Ok in H. destruct H as (pk & st1 & Hk & H).
  apply lift_Ok in Hk. destruct Hk as [Hk ->]. apply wrap_Ok in Hk.
  apply mbind_Ok in H. destruct H as (u1 & st1 & Hv & H).
  apply lift_Ok in Hv. destruct Hv as [Hv ->]. destruct u1.
  apply mbind_Ok in H. destruct H as (xs & st1 & Hc & H).
  apply lift_Ok in Hc. destruct Hc as [Hc ->].
  apply mbind_Ok in H. destruct H as (u2 & st1 & Hm & H).
  apply modS_Ok in Hm. subst st1.
  unfold ret in H. injection H as <- <-.
  split; [|split; [reflexivity|]].
  - unfold ready in Hr.
    destruct (Z.eqb_spec (state (sess st)) StateInitial) as [H0|H0];
      [rewrite H0 in Hr; discriminate|].
    destruct ((state (sess st) =? StateEscrowPublished) ||
              (state (sess st) =? StateSolutionPublished)).
    + destruct (index stateNames StateSolutionsValidated); discriminate.
    + destruct (Z.eqb_spec StateSolutionsValidated (state (sess st) + 1))
        as [H1|H1].
      * unfold StateSolutionsValidated, StateSolutionsPromised in *. lia.
      * destruct (index stateNames StateSolutionsValidated) as [n| |];
          try discriminate. cbn [bind] in Hr.
        destruct (index stateNames (state (sess st))); discriminate.
  - exists fake, pk. repeat split; try assumption.
    + now apply (collect_secrets_Ok _ _ _ _ Hc).
    + intros j idx Hj.
      destruct (verify_fake_puzzles_Ok _ _ _ _ 0 Hv j idx Hj)
        as (p & f & H1 & H2 & H3).
      exists p, f. auto.
Qed.

(** X20. [RevealSolution] releases the secrets of the real puzzles
    only when each of them is a blinding of the puzzle of the offer.
    When it succeeds nothing is changed; the secrets returned are the
    stored secrets at the indexes of [realPuzzleList], in order; and
    for each of these indexes the stored puzzle passed
    [ValidateBlindedPuzzle], under the key of the session's epoch,
    against the puzzle of the offer with the factor at that
    position. *)
Theorem RevealSolution_reveals (po : PaymentOfferT)
  (st st' : Sys World) (secrets : list (list byte)) :
  RevealSolution po st = (Ok secrets, st') ->
  st' = st /\
  exists pk,
    getPuzzleKey (tum st) (epoch (sess st)) = Ok pk /\
    Forall2 (fun idx x => index (tumbler.secrets (sess st)) idx = Ok x)
      (realPuzzleList (sess st)) secrets /\
    forall j idx, nth_error (realPuzzleList (sess st)) j = Some idx ->
      exists z f,
        index (puzzles (sess st)) idx = Ok z /\
        index (po_RealFactors po) (Z.of_nat j) = Ok f /\
        puzzle.ValidateBlindedPuzzle (puzzle.PublicKey pk) z (po_Puzzle po) f
        = true.
Proof.
  intros H. unfold RevealSolution in H.
  apply mbind_Ok in H. destruct H as (s & st1 & Hs & H).
  apply getS_Ok in Hs. destruct Hs as [-> ->].
  apply mbind_Ok in H. destruct H as (tb & st1 & Ht & H).
  apply getT_Ok in Ht. destruct Ht as [-> ->].
  apply mbind_Ok in H. destruct H as (pk & st1 & Hk & H).
  apply lift_Ok in Hk. destruct Hk as [Hk ->].
  apply mbind_Ok in H. destruct H as (u1 & st1 & Hv & H).
  apply lift_Ok in Hv. destruct Hv as [Hv ->]. destruct u1.
  apply lift_Ok in H. destruct H as [Hc ->].
  split; [reflexivity|]. exists pk. repeat split; try assumption.
  - now apply (collect_secrets_Ok _ _ _ _ Hc).
  - intros j idx Hj.
    destruct (verify_real_puzzles_Ok _ _ _ _ 0 Hv j idx Hj)
      as (z & f & H1 & H2 & H3).
    exists z, f. auto.
Qed.

End Outcomes.

(** ** Where a successful handler leaves the session *)

Lemma ready_Ok_step (s next : Z) :
  tumbler.ready s next = Ok tt ->
  (s = tumbler.StateInitial /\
   (next = tumbler.StateEscrowComplete \/
    next = tumbler.StateSolutionsPromised)) \/
  (s <> tumbler.StateInitial /\ s <> tumbler.StateEscrowPublished /\
   s <> tumbler.StateSolutionPublished /\ next = s + 1).
Proof.
  unfold tumbler.ready.
  destruct (Z.eqb_spec s tumbler.StateInitial) as [H0|H0].
  - destruct (Z.eqb_spec next tumbler.StateEscrowComplete);
      destruct (Z.eqb_spec next tumbler.StateSolutionsPromised);
      cbn [orb]; intros H; auto.
    destruct (index tumbler.stateNames next); try discriminate.
    cbn [bind] in H. destruct (index tumbler.stateNames s); discriminate.
  - destruct (Z.eqb_spec s tumbler.StateEscrowPublished);
      destruct (Z.eqb_spec s tumbler.StateSolutionPublished); cbn [orb];
      intros H;
      try (destruct (index tumbler.stateNames next); discriminate).
    destruct (Z.eqb_spec next (s + 1)); [auto|].
    destruct (index tumbler.stateNames next); try discriminate.
    cbn [bind] in H. destruct (index tumbler.stateNames s); discriminate.
Qed.

Section Advances.

Variable World : Type.
Variables wallet_CreateEscrow wallet_PublishEscrow wallet_ImportEscrowScript
  : tumbler.WalletOp World unit.
Variable wallet_ValidateOffer : list byte -> tumbler.WalletOp World bool.
Variable wallet_PublishSolution :
  list (list byte) -> tumbler.WalletOp World unit.
Variable wallet_GetExtAddress : World -> result (string * string) * World.
Variable SetAddress :
  contract.addressRole -> string -> string -> contract.Contract ->
  result contract.Contract.
Variables NewPuzzlePromise NewSolutionPromise :
  World -> puzzle.PuzzleKey -> list byte ->
  result (list byte * list byte * list byte) * World.
Variable MarshalPubKey : puzzle.PuzzleKey -> result (list byte).
Variable blake2s_256 : list byte -> list byte -> result (list byte).
Variable HashB : list byte -> list byte.
Variable GCD : Z -> Z -> Z * Z * Z.
Variable Now : World -> Z.

Import tumbler.

(** A success leaves the session in state [T]. *)
Definition lands {A} (T : Z) (m : M World A) : Prop :=
  forall st r st', m st = (Ok r, st') -> state (sess st') = T.

Lemma lands_bind {A B} T (m : M World A) (k : A -> M World B) :
  (forall a, lands T (k a)) -> lands T (mbind m k).
Proof.
  intros Hk st r st' H. apply mbind_Ok in H.
  destruct H as (a & st1 & _ & H). exact (Hk a _ _ _ H).
Qed.

Lemma lands_set {B} T (k : unit -> M World B) :
  (forall a, keeps World (k a)) -> lands T (mbind (modS (set_state T)) k).
Proof.
  intros Hk st r st' H. apply mbind_Ok in H.
  destruct H as (a & st1 & Hm & H). apply modS_Ok in Hm. subst st1.
  destruct (Hk a {| sess := set_state T (sess st); tum := tum st;
                    wld := wld st |}) as [Hs _].
  rewrite H in Hs. exact Hs.
Qed.

Lemma lands_fail {A} T e : lands T (@fail World A e).
Proof. intros st r st' H. discriminate H. Qed.

Lemma lands_panic {A} T p : lands T (@lift World A (Panic p)).
Proof. intros st r st' H. discriminate H. Qed.

Ltac keeps_steps :=
  repeat first
    [ apply keeps_ret | apply keeps_lift | apply keeps_getS
    | apply keeps_getT | apply keeps_putT | apply keeps_clock
    | apply keeps_wallet | apply keeps_world
    | apply (keeps_finalize World GCD)
    | apply keeps_contract_SetAddress | apply keeps_puzzle_promises
    | apply keeps_solution_promises | apply keeps_getEpochAddress
    | apply keeps_defer | apply keeps_mwrap
    | apply keeps_modS; intros ?; split; reflexivity
    | apply keeps_bind; [| intros ?]
    | match goal with
      | |- keeps _ (match ?x with _ => _ end) => destruct x
      | |- keeps _ (if ?b then _ else _) => destruct b
      end ].

Ltac lands_steps :=
  cbv zeta;
  repeat first
    [ match goal with
      | |- lands _ (mbind (modS (set_state _)) _) =>
          apply lands_set; intros ?; solve [keeps_steps]
      | |- lands _ (fail _) => apply lands_fail
      | |- lands _ (lift (Panic _)) => apply lands_panic
      | |- lands _ (mbind _ _) => apply lands_bind; intros ?
      | |- lands _ (match ?x with _ => _ end) => destruct x
      | |- lands _ (if ?b then _ else _) => destruct b
      end ].

(** A handler starts with the check of [ready]. *)
Lemma starts_ready {B} T (k : unit -> M World B) st r st' :
  mbind getS (fun s => mbind (lift (ready (state s) T)) k) st
  = (Ok r, st') ->
  ready (state (sess st)) T = Ok tt.
Proof.
  intros H. apply mbind_Ok in H. destruct H as (s & st1 & Hs & H).
  apply getS_Ok in Hs. destruct Hs as [-> ->].
  apply mbind_Ok in H. destruct H as ([] & st1 & Hr & _).
  now apply lift_Ok in Hr.
Qed.

Lemma SetupEscrow_lands er :
  lands StateEscrowComplete
    (SetupEscrow World wallet_CreateEscrow SetAddress er).
Proof. unfold SetupEscrow. lands_steps. Qed.

Lemma GetPuzzlePromises_lands cp :
  lands StatePuzzlesPromised
    (GetPuzzlePromises World NewPuzzlePromise MarshalPubKey cp).
Proof. unfold GetPuzzlePromises. lands_steps. Qed.

Lemma ValidatePuzzles_lands cd :
  lands StatePuzzlesValidated
    (ValidatePuzzles World blake2s_256 HashB GCD cd).
Proof. unfold ValidatePuzzles. lands_steps. Qed.

Lemma FinalizeEscrow_lands :
  lands StateEscrowPublished (FinalizeEscrow World wallet_PublishEscrow).
Proof. unfold FinalizeEscrow. lands_steps. Qed.

Lemma GetSolutionPromises_lands sc :
  lands StateSolutionsPromised
    (GetSolutionPromises World NewSolutionPromise HashB sc).
Proof. unfold GetSolutionPromises. lands_steps. Qed.

Lemma ValidateSolutions_lands pd :
  lands StateSolutionsValidated (ValidateSolutions World pd).
Proof. unfold ValidateSolutions. lands_steps. Qed.

(** X21. A handler that succeeds moves the session one step along its
    chain.  [SetupEscrow], [GetPuzzlePromises], [ValidatePuzzles] and
    [FinalizeEscrow] lead from [InitialState] through [EscrowComplete],
    [PuzzlesPromised] and [PuzzlesValidated] to [EscrowPublished];
    [ValidateSolutions] leads from [SolutionsPromised] to
    [SolutionsValidated]; and [GetSolutionPromises] leads to
    [SolutionsPromised] from [InitialState], or from the sentinel
    [MaxPayeeState], which [ready] lets through. *)
Theorem handlers_advance :
  (forall er st r st',
     SetupEscrow World wallet_CreateEscrow SetAddress er st = (Ok r, st') ->
     state (sess st) = StateInitial /\
     state (sess st') = StateEscrowComplete) /\
  (forall cp st r st',
     GetPuzzlePromises World NewPuzzlePromise MarshalPubKey cp st
     = (Ok r, st') ->
     state (sess st) = StateEscrowComplete /\
     state (sess st') = StatePuzzlesPromised) /\
  (forall cd st r st',
     ValidatePuzzles World blake2s_256 HashB GCD cd st = (Ok r, st') ->
     state (sess st) = StatePuzzlesPromised /\
     state (sess st') = StatePuzzlesValidated) /\
  (forall st r st',
     FinalizeEscrow World wallet_PublishEscrow st = (Ok r, st') ->
     state (sess st) = StatePuzzlesValidated /\
     state (sess st') = StateEscrowPublished) /\
  (forall sc st r st',
     GetSolutionPromises World NewSolutionPromise HashB sc st
     = (Ok r, st') ->
     (state (sess st) = StateInitial \/ state (sess st) = MaxPayeeState) /\
     state (sess st') = StateSolutionsPromised) /\
  (forall pd st r st',
     ValidateSolutions World pd st = (Ok r, st') ->
     state (sess st) = StateSolutionsPromised /\
     state (sess st') = StateSolutionsValidated).
Proof.
  repeat match goal with |- _ /\ _ => split end; intros.
  - split; [|eapply SetupEscrow_lands; eassumption].
    apply starts_ready, ready_Ok_step in H.
    unfold StateInitial, StateEscrowComplete, StateSolutionsPromised in *.
    lia.
  - split; [|eapply GetPuzzlePromises_lands; eassumption].
    apply starts_ready, ready_Ok_step in H.
    unfold StateInitial, StateEscrowComplete, StatePuzzlesPromised,
      StateSolutionsPromised in *. lia.
  - split; [|eapply ValidatePuzzles_lands; eassumption].
    apply starts_ready, ready_Ok_step in H.
    unfold StateInitial, StateEscrowComplete, StatePuzzlesPromised,
      StatePuzzlesValidated, StateSolutionsPromised in *. lia.
  - split; [|eapply FinalizeEscrow_lands; eassumption].
    apply starts_ready, ready_Ok_step in H.
    unfold StateInitial, StateEscrowComplete, StatePuzzlesValidated,
      StateEscrowPublished, StateSolutionsPromised in *. lia.
  - split; [|eapply GetSolutionPromises_lands; eassumption].
    apply starts_ready, ready_Ok_step in H.
    unfold StateInitial, StateEscrowComplete, MaxPayeeState,
      StateSolutionsPromised in *. lia.
  - split; [|eapply ValidateSolutions_lands; eassumption].
    apply starts_ready, ready_Ok_step in H.
    unfold StateInitial, StateEscrowComplete, StateSolutionsValidated,
      StateSolutionsPromised in *. lia.
Qed.

End Advances.

(** ** An accepted payment offer *)

Lemma FinalizeExchange_Ok s tb reason details s' tb' log :
  tumbler.FinalizeExchange s tb reason details = (Ok tt, s', tb', log) ->
  tumbler.finsema s' <> 0 /\ tumbler.state s' = tumbler.state s.
Proof.
  unfold tumbler.FinalizeExchange.
  destruct ((reason =? tumbler.ReasonSuccess) && _); [discriminate|].
  destruct (Z.eqb_spec (tumbler.finsema s) 0) as [Hf|Hf]; cbn [negb].
  - cbv zeta.
    pose proof (Disconnect_effect tb (tumbler.set_finsema 1 s)) as HD.
    destruct (tumbler.Disconnect tb (tumbler.set_finsema 1 s)) as [tb1 s1].
    simpl in HD. destruct HD as (_ & Hfin & Hst & _).
    match goal with
    | |- context [match ?m with Ok _ => _ | Err _ => _ | Panic _ => _ end] =>
        destruct m
    end; intros H; try discriminate.
    injection H as <- <- _. split; [lia | exact Hst].
  - intros H. injection H as <- <- _. auto.
Qed.

Section AcceptedOffer.

Variable World : Type.
Variable wallet_ImportEscrowScript : tumbler.WalletOp World unit.
Variable wallet_ValidateOffer : list byte -> tumbler.WalletOp World bool.
Variable wallet_PublishSolution :
  list (list byte) -> tumbler.WalletOp World unit.
Variable wallet_GetExtAddress : World -> result (string * string) * World.
Variable SetAddress :
  contract.addressRole -> string -> string -> contract.Contract ->
  result contract.Contract.
Variable GCD : Z -> Z -> Z * Z * Z.
Variable Now : World -> Z.

Import tumbler.

(** From [OfferReceived], a success ends in [Q]. *)
Definition from_offer {A} (Q : Sys World -> Prop) (m : M World A) : Prop :=
  forall st r st',
    state (sess st) = StateOfferReceived -> m st = (Ok r, st') -> Q st'.

Lemma from_offer_bind {A B} Q (m : M World A) (k : A -> M World B) :
  keeps World m -> (forall a, from_offer Q (k a)) ->
  from_offer Q (mbind m k).
Proof.
  intros Hm Hk st r st' Hst H. apply mbind_Ok in H.
  destruct H as (a & st1 & H1 & H2).
  apply (Hk a st1 r st'); [|exact H2].
  destruct (Hm st) as [Hs _]. rewrite H1 in Hs. simpl in Hs. congruence.
Qed.

(** Unless an asynchronous error is recorded, the offer is settled. *)
Let pending (po : PaymentOfferT) (st : Sys World) : Prop :=
  err (sess st) = None -> spec.offer_settled po (sess st) (tum st).

Lemma abort_exchange_err e (st : Sys World) :
  err (sess (snd (abort_exchange e st))) = Some e.
Proof.
  unfold abort_exchange, mbind, modS.
  destruct (keeps_finalize World GCD ReasonFailedExchange None
              {| sess := set_err (Some e) (sess st); tum := tum st;
                 wld := wld st |}) as [_ He].
  destruct (finalize ReasonFailedExchange None _) as [[| |] st1];
    simpl in He |- *; exact He.
Qed.

Lemma from_offer_abort po e : from_offer (pending po) (abort_exchange e).
Proof.
  intros st r st' _ H Herr. pose proof (abort_exchange_err e st) as He.
  rewrite H in He. simpl in He. congruence.
Qed.

Lemma from_offer_or_abort {A} po (m : M World A) (k : A -> M World unit) :
  keeps World m -> (forall a, from_offer (pending po) (k a)) ->
  from_offer (pending po) (or_abort m k).
Proof.
  intros Hm Hk st r st' Hst H. unfold or_abort in H.
  destruct (Hm st) as [Hs _].
  destruct (m st) as [[a|e|p] st1] eqn:E; simpl in Hs.
  - apply (Hk a st1 r st'); [congruence | exact H].
  - apply (from_offer_abort po e st1 r st'); [congruence | exact H].
  - discriminate.
Qed.

Lemma defer_settles po u (st : Sys World) r st' :
  state (sess st) = StateOfferReceived ->
  defer_validateOffer po u st = (Ok r, st') ->
  spec.offer_settled po (sess st') (tum st').
Proof.
  intros Hst H. unfold defer_validateOffer, mbind, getS, getT, putT in H.
  injection H as _ <-. right. cbn [sess tum]. split; [exact Hst|].
  exists (actions (tum st)), u. reflexivity.
Qed.

Lemma PublishSolution_Ok secrets (st : Sys World) r st' :
  PublishSolution wallet_PublishSolution secrets st = (Ok r, st') ->
  state (sess st') = StateSolutionPublished /\ finsema (sess st') <> 0.
Proof.
  intros H. unfold PublishSolution in H.
  apply mbind_Ok in H. destruct H as (u & st1 & _ & H).
  apply mbind_Ok in H. destruct H as (u1 & st2 & Hm & H).
  apply modS_Ok in Hm. subst st2.
  unfold finalize in H. cbn [sess tum wld] in H.
  destruct (FinalizeExchange (set_state StateSolutionPublished (sess st1))
              (tum st1) ReasonSuccess None) as [[[r0 s'] tb'] log] eqn:E.
  injection H as -> <-. destruct r.
  apply FinalizeExchange_Ok in E. cbn [sess]. destruct E as [Hf Hs].
  split; [exact Hs | exact Hf].
Qed.

Lemma validateOffer_settles po :
  from_offer (pending po)
    (validateOffer wallet_ValidateOffer wallet_PublishSolution Now po).
Proof.
  unfold validateOffer.
  apply from_offer_bind; [apply keeps_getS | intros s].
  apply from_offer_or_abort; [apply keeps_lift | intros _].
  apply from_offer_or_abort;
    [apply keeps_mwrap, keeps_wallet | intros valid].
  apply from_offer_bind; [apply keeps_clock | intros t].
  apply from_offer_bind; [apply keeps_getS | intros s1].
  destruct (negb valid && (t >? deadline s1));
    [apply from_offer_abort|].
  destruct (negb valid).
  - intros st r st' Hst H _. eapply defer_settles; eassumption.
  - apply from_offer_bind; [apply keeps_lift | intros _].
    apply from_offer_or_abort; [apply keeps_RevealSolution | intros secrets].
    intros st r st' Hst H Herr. unfold or_abort in H.
    destruct (PublishSolution wallet_PublishSolution secrets st)
      as [[u|e|p] st1] eqn:E.
    + unfold ret in H. injection H as _ <-.
      left. now apply (PublishSolution_Ok secrets st u st1).
    + pose proof (abort_exchange_err e st1) as He.
      rewrite H in He. simpl in He. congruence.
    + discriminate.
Qed.

(** The offer is settled at the end. *)
Definition settles (po : PaymentOfferT) {A} (m : M World A) : Prop :=
  forall st r st',
    m st = (Ok r, st') -> spec.offer_settled po (sess st') (tum st').

Lemma settles_bind {A B} po (m : M World A) (k : A -> M World B) :
  (forall a, settles po (k a)) -> settles po (mbind m k).
Proof.
  intros Hk st r st' H. apply mbind_Ok in H.
  destruct H as (a & st1 & _ & H). exact (Hk a _ _ _ H).
Qed.

Lemma settles_fail {A} po e : settles po (@fail World A e).
Proof. intros st r st' H. discriminate H. Qed.

Lemma settles_panic {A} po p : settles po (@lift World A (Panic p)).
Proof. intros st r st' H. discriminate H. Qed.

Lemma offer_tail_settles po :
  from_offer (fun st => spec.offer_settled po (sess st) (tum st))
    (mbind (mwrap "failed to validate offer tx: "
              (wallet (wallet_ValidateOffer (po_EscrowHash po))))
       (fun valid =>
          if negb valid then
            mbind (clock Now) (fun now =>
            mbind (modS (set_deadline (now + 3 * ConfirmationInterval)))
              (fun _ =>
            defer_validateOffer po (now + ConfirmationInterval)))
          else
            mbind (validateOffer wallet_ValidateOffer wallet_PublishSolution
                     Now po) (fun _ =>
            mbind getS (fun s =>
            match err s with
            | Some e => fail e
            | None => ret tt
            end)))).
Proof.
  apply from_offer_bind; [apply keeps_mwrap, keeps_wallet | intros valid].
  destruct (negb valid).
  - apply from_offer_bind; [apply keeps_clock | intros t].
    apply from_offer_bind;
      [apply keeps_modS; intros ?; split; reflexivity | intros _].
    intros st r st' Hst H. eapply defer_settles; eassumption.
  - intros st r st' Hst H. apply mbind_Ok in H.
    destruct H as (u & st1 & Hv & H).
    apply mbind_Ok in H. destruct H as (s & st2 & Hs & H).
    apply getS_Ok in Hs. destruct Hs as [-> ->].
    destruct (err (sess st1)) eqn:He; [discriminate|].
    unfold ret in H. injection H as _ <-.
    exact (validateOffer_settles po st u st1 Hst Hv He).
Qed.

Lemma PaymentOffer_settles po :
  settles po
    (PaymentOffer World wallet_ImportEscrowScript wallet_ValidateOffer
       wallet_PublishSolution wallet_GetExtAddress SetAddress Now po).
Proof.
  unfold PaymentOffer. cbv zeta.
  repeat first
    [ match goal with
      | |- settles _ (mbind (modS (set_state StateOfferReceived)) _) =>
          fail 2
      | |- settles _ (fail _) => apply settles_fail
      | |- settles _ (lift (Panic _)) => apply settles_panic
      | |- settles _ (mbind _ _) => apply settles_bind; intros ?
      | |- settles _ (match ?x with _ => _ end) => destruct x
      | |- settles _ (if ?b then _ else _) => destruct b
      end ].
  intros st r st' H. apply mbind_Ok in H.
  destruct H as (u & st1 & Hm & H). apply modS_Ok in Hm. subst st1.
  eapply offer_tail_settles; [|exact H]. reflexivity.
Qed.

(** X22. An accepted payment offer is not dropped.  When
    [PaymentOffer] succeeds, the session was in [SolutionsValidated],
    and now either the solution is published, with the session in
    [SolutionPublished] and finalized, or the session waits in
    [OfferReceived] and a deferred validation of this very offer is
    the last entry of the tumbler's list of deferred actions. *)
Theorem PaymentOffer_accepted (po : PaymentOfferT) (st st' : Sys World) r :
  PaymentOffer World wallet_ImportEscrowScript wallet_ValidateOffer
    wallet_PublishSolution wallet_GetExtAddress SetAddress Now po st
  = (Ok r, st') ->
  state (sess st) = StateSolutionsValidated /\
  spec.offer_settled po (sess st') (tum st').
Proof.
  intros H. split; [|exact (PaymentOffer_settles po st r st' H)].
  unfold PaymentOffer in H. apply starts_ready, ready_Ok_step in H.
  unfold StateInitial, StateEscrowComplete, StateSolutionsValidated,
    StateOfferReceived, StateSolutionsPromised in *. lia.
Qed.

End AcceptedOffer.

(** ** The handlers on a sample session *)

Lemma ValidateSolutions_reveals_witness :
  let pd := {| tumbler.FakePuzzleList := ["000"; "000"]%byte;
               tumbler.FakeFactors := [puzzle.Bytes 52] |} in
  let st := {| tumbler.sess :=
                 sample.session tumbler.StateSolutionsPromised
                   [puzzle.Bytes 82] [["001"; "003"]%byte];
               tumbler.tum := sample.tb1; tumbler.wld := tt |} in
  let ss := {| tumbler.ss_Secrets := [["001"; "003"]%byte] |} in
  tumbler.state (tumbler.sess st) = tumbler.StateSolutionsPromised /\
  snd (tumbler.ValidateSolutions unit pd st)
  = {| tumbler.sess :=
         tumbler.set_state tumbler.StateSolutionsValidated (tumbler.sess st);
       tumbler.tum := tumbler.tum st; tumbler.wld := tumbler.wld st |} /\
  exists fake pk,
    puzzle_list.DecodeIndexList (tumbler.FakePuzzleList pd) = Ok fake /\
    tumbler.getPuzzleKey (tumbler.tum st) (tumbler.epoch (tumbler.sess st))
    = Ok pk /\
    Forall2 (fun idx x => index (tumbler.secrets (tumbler.sess st)) idx = Ok x)
      fake (tumbler.ss_Secrets ss) /\
    forall j idx, nth_error fake j = Some idx ->
      exists p f,
        index (tumbler.puzzles (tumbler.sess st)) idx = Ok p /\
        index (tumbler.FakeFactors pd) (Z.of_nat j) = Ok f /\
        puzzle.ValidatePuzzle (puzzle.PublicKey pk) p f = true.
Proof.
  intros pd st ss.
  apply (ValidateSolutions_reveals unit pd st
           (snd (tumbler.ValidateSolutions unit pd st)) ss).
  vm_compute. reflexivity.
Defined.

Lemma RevealSolution_reveals_witness :
  let po := {| tumbler.po_Amount := contract.contractValue;
               tumbler.po_PublicKey := "TsPayerPubKey";
               tumbler.po_EscrowHash := ["001"%byte];
               tumbler.po_EscrowScript := ["002"%byte];
               tumbler.po_EscrowTx := ["003"%byte];
               tumbler.po_Puzzle := puzzle.Bytes 82;
               tumbler.po_RealPuzzleList := ["000"; "000"]%byte;
               tumbler.po_RealFactors := [puzzle.Bytes 2] |} in
  let st := {| tumbler.sess :=
                 tumbler.set_realPuzzleList [0]
                   (sample.session tumbler.StateOfferReceived
                      [puzzle.Bytes 104] [["001"; "003"]%byte]);
               tumbler.tum := sample.tb1; tumbler.wld := tt |} in
  snd (tumbler.RevealSolution po st) = st /\
  exists pk,
    tumbler.getPuzzleKey (tumbler.tum st) (tumbler.epoch (tumbler.sess st))
    = Ok pk /\
    Forall2 (fun idx x => index (tumbler.secrets (tumbler.sess st)) idx = Ok x)
      (tumbler.realPuzzleList (tumbler.sess st)) [["001"; "003"]%byte] /\
    forall j idx,
      nth_error (tumbler.realPuzzleList (tumbler.sess st)) j = Some idx ->
      exists z f,
        index (tumbler.puzzles (tumbler.sess st)) idx = Ok z /\
        index (tumbler.po_RealFactors po) (Z.of_nat j) = Ok f /\
        puzzle.ValidateBlindedPuzzle (puzzle.PublicKey pk) z
          (tumbler.po_Puzzle po) f = true.
Proof.
  intros po st.
  apply (RevealSolution_reveals unit po st
           (snd (tumbler.RevealSolution po st))
           [["001"; "003"]%byte]).
  vm_compute. reflexivity.
Defined.

Lemma handlers_advance_witness :
  let pd := {| tumbler.FakePuzzleList := ["000"; "000"]%byte;
               tumbler.FakeFactors := [puzzle.Bytes 52] |} in
  let st := {| tumbler.sess :=
                 sample.session tumbler.StateSolutionsPromised
                   [puzzle.Bytes 82] [["001"; "003"]%byte];
               tumbler.tum := sample.tb1; tumbler.wld := tt |} in
  tumbler.state (tumbler.sess st) = tumbler.StateSolutionsPromised /\
  tumbler.state (tumbler.sess (snd (tumbler.ValidateSolutions unit pd st)))
  = tumbler.StateSolutionsValidated.
Proof.
  intros pd st.
  apply (proj2 (proj2 (proj2 (proj2 (proj2
           (handlers_advance unit sample.wallet_ok sample.wallet_ok
              sample.address_ok
              (fun w _ _ => (Err "no randomness", w))
              (fun w _ _ => (Err "no randomness", w))
              (fun _ => Ok []) (fun _ buf => Ok buf) (fun b => b)
              sample.GCD))))) pd st
           {| tumbler.ss_Secrets := [["001"; "003"]%byte] |}).
  vm_compute. reflexivity.
Defined.

Lemma PaymentOffer_accepted_witness :
  let st := {| tumbler.sess :=
                 sample.session tumbler.StateSolutionsValidated
                   [["004"%byte]] [["001"; "003"]%byte];
               tumbler.tum := sample.tb1; tumbler.wld := tt |} in
  let st' := snd (tumbler.PaymentOffer unit sample.wallet_ok
                    (sample.wallet_offer_ok true) sample.wallet_publish_ok
                    sample.wallet_address sample.address_ok (fun _ => 0)
                    sample.offer st) in
  tumbler.state (tumbler.sess st) = tumbler.StateSolutionsValidated /\
  spec.offer_settled sample.offer (tumbler.sess st') (tumbler.tum st').
Proof.
  intros st st'.
  apply (PaymentOffer_accepted unit sample.wallet_ok
           (sample.wallet_offer_ok true) sample.wallet_publish_ok
           sample.wallet_address sample.address_ok sample.GCD (fun _ => 0)
           sample.offer st st' tt).
  vm_compute. reflexivity.
Defined.

(** ** What [ValidatePuzzles] checks before it discloses *)

Section Disclosure.

Variable World : Type.
Variable blake2s_256 : list byte -> list byte -> result (list byte).
Variable HashB : list byte -> list byte.
Variable GCD : Z -> Z -> Z * Z * Z.

Import tumbler.

Lemma verify_fake_txs_Ok s cd l :
  forall i, verify_fake_txs HashB s cd i l = Ok tt ->
  forall j idx, nth_error l j = Some idx ->
    exists pad,
      index (RandomPads cd) (i + Z.of_nat j) = Ok pad /\
      len pad = 32 /\
      index (txHashes s) idx = Ok (FakeTxFormat HashB pad).
Proof.
  induction l as [|x l IH]; intros i H j idx Hj.
  - destruct j; discriminate.
  - cbn [verify_fake_txs] in H.
    destruct (x >? len (txHashes s)); [discriminate|].
    destruct (index (RandomPads cd) i) as [pad| |] eqn:Hp; try discriminate.
    cbn [bind] in H.
    destruct (Z.eqb_spec (len pad) 32) as [Hl|Hl]; [|discriminate].
    cbn [negb] in H. cbv zeta in H.
    destruct (index (txHashes s) x) as [h| |] eqn:Hh; try discriminate.
    cbn [bind] in H.
    destruct (puzzle.bytes_eqb (FakeTxFormat HashB pad) h) eqn:Hb;
      [|discriminate].
    cbn [negb] in H. apply bytes_eqb_eq in Hb. subst h.
    destruct j as [|j].
    + injection Hj as <-. exists pad. rewrite Z.add_0_r. auto.
    + destruct (IH (i + 1) H j idx Hj) as (pad' & H1 & H2 & H3).
      exists pad'. repeat split; try assumption.
      now replace (i + Z.of_nat (S j)) with (i + 1 + Z.of_nat j) by lia.
Qed.

Lemma reveal_fake_secrets_Ok s l xs :
  reveal_fake_secrets s l = Ok xs ->
  Forall2 (fun idx x => index (secrets s) idx = Ok x) l xs.
Proof.
  revert xs. induction l as [|idx l IH]; intros xs H; simpl in H.
  - injection H as <-. constructor.
  - destruct (index (secrets s) idx) as [x| |] eqn:Hx; try discriminate.
    cbn [bind] in H.
    destruct (reveal_fake_secrets s l) as [rest| |]; try discriminate.
    cbn [bind] in H. injection H as <-. constructor; auto.
Qed.

(** X23. [ValidatePuzzles] discloses only after the client has opened
    both commitments.  When it succeeds, the disclosed fake and real
    index lists hash, under the disclosed salt, to the two set hashes
    that the session stored; every fake index refers to a stored
    transaction hash that is [FakeTxFormat] of the 32-byte pad
    disclosed at that position; the secrets returned are the stored
    secrets at the fake indexes, in order; the quotients returned are
    [Quotients] of the stored secrets at the real indexes; and the
    session is left in [PuzzlesValidated] with its cached puzzles,
    transaction hashes and set hashes emptied and nothing else
    changed. *)
Theorem ValidatePuzzles_reveals (cd : TransactionDisclosure)
  (st st' : Sys World) (ts : TransactionSecrets) :
  ValidatePuzzles World blake2s_256 HashB GCD cd st = (Ok ts, st') ->
  exists fake real pk realSecrets,
    puzzle_list.DecodeIndexList (FakeTxList cd) = Ok fake /\
    puzzle_list.DecodeIndexList (RealTxList cd) = Ok real /\
    getPuzzleKey (tum st) (epoch (sess st)) = Ok pk /\
    HashIndexList blake2s_256 (Salt cd) fake = Ok (fakeSetHash (sess st)) /\
    HashIndexList blake2s_256 (Salt cd) real = Ok (realSetHash (sess st)) /\
    (forall j idx, nth_error fake j = Some idx ->
       exists pad,
         index (RandomPads cd) (Z.of_nat j) = Ok pad /\
         len pad = 32 /\
         index (txHashes (sess st)) idx = Ok (FakeTxFormat HashB pad)) /\
    Forall2 (fun idx x => index (secrets (sess st)) idx = Ok x)
      fake (ts_Secrets ts) /\
    Forall2 (fun idx x => index (secrets (sess st)) idx = Ok x)
      real realSecrets /\
    puzzle.Quotients GCD (puzzle.PublicKey pk) realSecrets
    = Ok (ts_Quotients ts) /\
    st' = {| sess :=
               set_state StatePuzzlesValidated
                 (set_fakeSetHash []
                    (set_realSetHash []
                       (set_txHashes [] (set_puzzles [] (sess st)))));
             tum := tum st; wld := wld st |}.
Proof.
  intros H. unfold ValidatePuzzles in H.
  apply mbind_Ok in H. destruct H as (s & st1 & Hs & H).
  apply getS_Ok in Hs. destruct Hs as [-> ->].
  apply mbind_Ok in H. destruct H as (u & st1 & Hr & H).
  apply lift_Ok in Hr. destruct Hr as [Hr ->].
  apply mbind_Ok in H. destruct H as (fake & st1 & Hd & H).
  apply lift_Ok in Hd. destruct Hd as [Hd ->]. apply wrap_Ok in Hd.
  apply mbind_Ok in H. destruct H as (real & st1 & Hd' & H).
  apply lift_Ok in Hd'. destruct Hd' as [Hd' ->]. apply wrap_Ok in Hd'.
  match type of H with
  | (if ?b then _ else _) _ = _ => destruct b; [discriminate|]
  end.
  apply mbind_Ok in H. destruct H as (tb & st1 & Ht & H).
  apply getT_Ok in Ht. destruct Ht as [-> ->].
  apply mbind_Ok in H. destruct H as (pk & st1 & Hk & H).
  apply lift_Ok in Hk. destruct Hk as [Hk ->]. apply wrap_Ok in Hk.
  apply mbind_Ok in H. destruct H as (fh & st1 & Hf & H).
  apply lift_Ok in Hf. destruct Hf as [Hf ->]. apply wrap_Ok in Hf.
  destruct (puzzle.bytes_eqb fh (fakeSetHash (sess st))) eqn:Hfe;
    [|discriminate].
  cbn [negb] in H. apply bytes_eqb_eq in Hfe. subst fh.
  apply mbind_Ok in H. destruct H as (u1 & st1 & Hv & H).
  apply lift_Ok in Hv. destruct Hv as [Hv ->]. destruct u1.
  apply mbind_Ok in H. destruct H as (rh & st1 & Hrh & H).
  apply lift_Ok in Hrh. destruct Hrh as [Hrh ->]. apply wrap_Ok in Hrh.
  destruct (puzzle.bytes_eqb rh (realSetHash (sess st))) eqn:Hre;
    [|discriminate].
  cbn [negb] in H. apply bytes_eqb_eq in Hre. subst rh.
  apply mbind_Ok in H. destruct H as (fs & st1 & Hfs & H).
  apply lift_Ok in Hfs. destruct Hfs as [Hfs ->].
  apply mbind_Ok in H. destruct H as (rs & st1 & Hrs & H).
  apply lift_Ok in Hrs. destruct Hrs as [Hrs ->].
  apply mbind_Ok in H. destruct H as (qs & st1 & Hq & H).
  apply lift_Ok in Hq. destruct Hq as [Hq ->]. apply wrap_Ok in Hq.
  apply mbind_Ok in H. destruct H as (? & st1 & Hm & H).
  apply modS_Ok in Hm. subst st1.
  apply mbind_Ok in H. destruct H as (? & st1 & Hm & H).
  apply modS_Ok in Hm. subst st1.
  apply mbind_Ok in H. destruct H as (? & st1 & Hm & H).
  apply modS_Ok in Hm. subst st1.
  apply mbind_Ok in H. destruct H as (? & st1 & Hm & H).
  apply modS_Ok in Hm. subst st1.
  apply mbind_Ok in H. destruct H as (? & st1 & Hm & H).
  apply modS_Ok in Hm. subst st1.
  unfold ret in H. injection H as <- <-.
  exists fake, real, pk, rs. cbn [ts_Secrets ts_Quotients sess tum wld].
  repeat match goal with |- _ /\ _ => split end; try assumption;
    try reflexivity.
  - intros j idx Hj.
    destruct (verify_fake_txs_Ok _ _ _ 0 Hv j idx Hj) as (pad & H1 & H2 & H3).
    exists pad. auto.
  - now apply reveal_fake_secrets_Ok.
  - now apply (collect_secrets_Ok _ _ _ _ Hrs).
Qed.

End Disclosure.

Lemma ValidatePuzzles_reveals_witness :
  let pad := repeat "000"%byte 32 in
  let hash := fun (salt buf : list byte) => Ok buf in
  let cd := {| tumbler.FakeTxList := ["000"; "000"]%byte;
               tumbler.RealTxList := ["001"; "000"; "002"; "000"]%byte;
               tumbler.RandomPads := [pad];
               tumbler.Salt := pad |} in
  let st := {| tumbler.sess :=
                 tumbler.set_realSetHash ["001"; "000"; "002"; "000"]%byte
                   (tumbler.set_fakeSetHash ["000"; "000"]%byte
                      (tumbler.set_txHashes
                         [tumbler.FakeTxFormat (fun b => b) pad;
                          ["007"%byte]; ["008"%byte]]
                         (sample.session tumbler.StatePuzzlesPromised
                            [puzzle.Bytes 82; puzzle.Bytes 32;
                             puzzle.Bytes 89]
                            [puzzle.Bytes 52; puzzle.Bytes 2;
                             puzzle.Bytes 4])));
               tumbler.tum := sample.tb1; tumbler.wld := tt |} in
  let st' := snd (tumbler.ValidatePuzzles unit hash (fun b => b) sample.GCD
                    cd st) in
  exists fake real pk realSecrets,
    puzzle_list.DecodeIndexList (tumbler.FakeTxList cd) = Ok fake /\
    puzzle_list.DecodeIndexList (tumbler.RealTxList cd) = Ok real /\
    tumbler.getPuzzleKey (tumbler.tum st) (tumbler.epoch (tumbler.sess st))
    = Ok pk /\
    tumbler.HashIndexList hash (tumbler.Salt cd) fake
    = Ok (tumbler.fakeSetHash (tumbler.sess st)) /\
    tumbler.HashIndexList hash (tumbler.Salt cd) real
    = Ok (tumbler.realSetHash (tumbler.sess st)) /\
    (forall j idx, nth_error fake j = Some idx ->
       exists pad,
         index (tumbler.RandomPads cd) (Z.of_nat j) = Ok pad /\
         len pad = 32 /\
         index (tumbler.txHashes (tumbler.sess st)) idx
         = Ok (tumbler.FakeTxFormat (fun b => b) pad)) /\
    Forall2 (fun idx x => index (tumbler.secrets (tumbler.sess st)) idx = Ok x)
      fake [puzzle.Bytes 52] /\
    Forall2 (fun idx x => index (tumbler.secrets (tumbler.sess st)) idx = Ok x)
      real realSecrets /\
    puzzle.Quotients sample.GCD (puzzle.PublicKey pk) realSecrets
    = Ok [puzzle.Bytes 1; puzzle.Bytes 2] /\
    st' = {| tumbler.sess :=
               tumbler.set_state tumbler.StatePuzzlesValidated
                 (tumbler.set_fakeSetHash []
                    (tumbler.set_realSetHash []
                       (tumbler.set_txHashes []
                          (tumbler.set_puzzles [] (tumbler.sess st)))));
             tumbler.tum := tumbler.tum st; tumbler.wld := tumbler.wld st |}.
Proof.
  intros pad hash cd st st'.
  apply (ValidatePuzzles_reveals unit hash (fun b => b) sample.GCD cd st st'
           {| tumbler.ts_Secrets := [puzzle.Bytes 52];
              tumbler.ts_Quotients := [puzzle.Bytes 1; puzzle.Bytes 2] |}).
  vm_compute. reflexivity.
Defined.

(** ** The hashes that commit the tumbler to its secrets *)

Section Commitments.

Variable World : Type.
Variable NewSolutionPromise :
  World -> puzzle.PuzzleKey -> list byte ->
  result (list byte * list byte * list byte) * World.
Variable HashB : list byte -> list byte.

Import tumbler.

Lemma solution_promises_Ok pk ps :
  forall (st st' : Sys World) solutions promises secrets,
    solution_promises NewSolutionPromise pk ps st
    = (Ok (solutions, promises, secrets), st') ->
    sess st' = sess st /\ tum st' = tum st /\
    len solutions = len ps /\ len promises = len ps /\
    len secrets = len ps.
Proof.
  induction ps as [|p rest IH]; intros st st' sols proms secs H;
    cbn [solution_promises] in H.
  - unfold ret in H. injection H as <- <- <- <-. auto.
  - apply mbind_Ok in H. destruct H as ([[sol prom] sec] & st1 & Hw & H).
    apply mbind_Ok in H. destruct H as ([[sols' proms'] secs'] & st2 & Hr & H).
    unfold ret in H. injection H as <- <- <- <-.
    destruct (IH _ _ _ _ _ Hr) as (Hs & Ht & H1 & H2 & H3).
    unfold world in Hw.
    destruct (NewSolutionPromise (wld st) pk p) as [r0 w] eqn:E.
    injection Hw as _ <-. cbn [sess tum] in Hs, Ht.
    rewrite !len_cons. repeat split; try assumption; lia.
Qed.

Lemma GetSolutionPromises_Ok sc (st st' : Sys World) sp :
  GetSolutionPromises World NewSolutionPromise HashB sc st = (Ok sp, st') ->
  puzzles (sess st') = sc_Puzzles sc /\
  epoch (sess st') = sc_Epoch sc /\
  KeyHashes sp = map HashB (secrets (sess st')) /\
  len (Promises sp) = len (sc_Puzzles sc) /\
  len (secrets (sess st')) = len (sc_Puzzles sc).
Proof.
  intros H. unfold GetSolutionPromises in H.
  apply mbind_Ok in H. destruct H as (s & st1 & Hs & H).
  apply getS_Ok in Hs. destruct Hs as [-> ->].
  apply mbind_Ok in H. destruct H as (u & st1 & Hr & H).
  apply lift_Ok in Hr. destruct Hr as [Hr ->].
  apply mbind_Ok in H. destruct H as (tb & st1 & Ht & H).
  apply getT_Ok in Ht. destruct Ht as [-> ->].
  apply mbind_Ok in H. destruct H as (pk & st1 & Hk & H).
  apply lift_Ok in Hk. destruct Hk as [Hk ->].
  apply mbind_Ok in H. destruct H as ([[sols proms] secs] & st1 & Hp & H).
  apply solution_promises_Ok in Hp. destruct Hp as (_ & _ & _ & Hl2 & Hl3).
  apply mbind_Ok in H. destruct H as (? & st2 & Hm & H).
  apply modS_Ok in Hm. subst st2.
  apply mbind_Ok in H. destruct H as (? & st2 & Hm & H).
  apply modS_Ok in Hm. subst st2.
  apply mbind_Ok in H. destruct H as (? & st2 & Hm & H).
  apply modS_Ok in Hm. subst st2.
  apply mbind_Ok in H. destruct H as (? & st2 & Hm & H).
  apply modS_Ok in Hm. subst st2.
  cbv zeta in H.
  apply mbind_Ok in H. destruct H as (? & st2 & Hm & H).
  apply modS_Ok in Hm. subst st2.
  unfold ret in H. injection H as <- <-.
  cbn. auto.
Qed.

Lemma ValidateSolutions_secrets pd (st st' : Sys World) ss :
  ValidateSolutions World pd st = (Ok ss, st') ->
  exists fake,
    puzzle_list.DecodeIndexList (FakePuzzleList pd) = Ok fake /\
    collect_secrets "bad puzzle reference" (sess st) fake
    = Ok (ss_Secrets ss).
Proof.
  intros H. unfold ValidateSolutions in H.
  apply mbind_Ok in H. destruct H as (s & st1 & Hs & H).
  apply getS_Ok in Hs. destruct Hs as [-> ->].
  apply mbind_Ok in H. destruct H as (u & st1 & Hr & H).
  apply lift_Ok in Hr. destruct Hr as [Hr ->].
  apply mbind_Ok in H. destruct H as (fake & st1 & Hd & H).
  apply lift_Ok in Hd. destruct Hd as [Hd ->]. apply wrap_Ok in Hd.
  destruct (len fake >? len (puzzles (sess st))); [discriminate|].
  apply mbind_Ok in H. destruct H as (tb & st1 & Ht & H).
  apply getT_Ok in Ht. destruct Ht as [-> ->].
  apply mbind_Ok in H. destruct H as (pk & st1 & Hk & H).
  apply lift_Ok in Hk. destruct Hk as [Hk ->].
  apply mbind_Ok in H. destruct H as (u1 & st1 & Hv & H).
  apply lift_Ok in Hv. destruct Hv as [Hv ->].
  apply mbind_Ok in H. destruct H as (xs & st1 & Hc & H).
  apply lift_Ok in Hc. destruct Hc as [Hc ->].
  apply mbind_Ok in H. destruct H as (u2 & st1 & Hm & H).
  unfold ret in H. injection H as <- _.
  exists fake. auto.
Qed.

(** X24. The key hashes of [GetSolutionPromises] bind the tumbler to
    the secrets that [ValidateSolutions] reveals afterwards.  After a
    successful [GetSolutionPromises] the response carries one promise
    and one key hash for each submitted puzzle; and when
    [ValidateSolutions] then succeeds on that session, each secret it
    returns hashes, with [HashB], to the key hash at the index that the
    client's list names at that position.  This is the comparison that
    the client makes in [validatePuzzleSolverResponse]. *)
Theorem revealed_secrets_match_hashes (sc : SolutionChallenges)
  (pd : PuzzleDisclosure) (st st1 st2 st3 : Sys World)
  (sp : SolutionPromises) (ss : SolutionSecrets) :
  GetSolutionPromises World NewSolutionPromise HashB sc st = (Ok sp, st1) ->
  sess st2 = sess st1 ->
  ValidateSolutions World pd st2 = (Ok ss, st3) ->
  len (Promises sp) = len (sc_Puzzles sc) /\
  len (KeyHashes sp) = len (sc_Puzzles sc) /\
  exists fake,
    puzzle_list.DecodeIndexList (FakePuzzleList pd) = Ok fake /\
    Forall2 (fun idx x => index (KeyHashes sp) idx = Ok (HashB x))
      fake (ss_Secrets ss).
Proof.
  intros H1 Heq H2.
  apply GetSolutionPromises_Ok in H1.
  destruct H1 as (_ & _ & Hh & Hl1 & Hl2).
  apply ValidateSolutions_secrets in H2. destruct H2 as (fake & Hd & Hc).
  split; [exact Hl1|]. split.
  - rewrite Hh. unfold len in *. now rewrite length_map.
  - exists fake. split; [exact Hd|].
    apply collect_secrets_Ok in Hc. rewrite Heq in Hc. rewrite Hh.
    clear Hd. induction Hc as [|idx x l xs Hx _ IH]; [constructor|].
    constructor; [now apply index_map | exact IH].
Qed.

End Commitments.

Lemma revealed_secrets_match_hashes_witness :
  let promise := fun (w : unit) pk p =>
    (puzzle.NewSolutionPromise (list byte) sample.xof_new sample.xof_write
       sample.xof_read pk p (Ok ["001"; "003"]%byte), w) in
  let sc := {| tumbler.sc_Epoch := 1234;
               tumbler.sc_Puzzles := [puzzle.Bytes 82] |} in
  let pd := {| tumbler.FakePuzzleList := ["000"; "000"]%byte;
               tumbler.FakeFactors := [puzzle.Bytes 52] |} in
  let st := {| tumbler.sess := sample.session tumbler.StateInitial [] [];
               tumbler.tum := sample.tb1; tumbler.wld := tt |} in
  let sp := {| tumbler.Promises := [["053"%byte]];
               tumbler.KeyHashes := [["001"; "003"]%byte] |} in
  len (tumbler.Promises sp) = len (tumbler.sc_Puzzles sc) /\
  len (tumbler.KeyHashes sp) = len (tumbler.sc_Puzzles sc) /\
  exists fake,
    puzzle_list.DecodeIndexList (tumbler.FakePuzzleList pd) = Ok fake /\
    Forall2 (fun idx x => index (tumbler.KeyHashes sp) idx = Ok x)
      fake [["001"; "003"]%byte].
Proof.
  intros promise sc pd st sp.
  pose (st1 := snd (tumbler.GetSolutionPromises unit promise (fun b => b)
                      sc st)).
  apply (revealed_secrets_match_hashes unit promise (fun b => b) sc pd st
           st1 st1 (snd (tumbler.ValidateSolutions unit pd st1)) sp
           {| tumbler.ss_Secrets := [["001"; "003"]%byte] |}).
  - vm_compute. reflexivity.
  - reflexivity.
  - vm_compute. reflexivity.
Defined.

(** ** A disconnected session leaves nothing behind *)

Lemma cookie_eqb_neq (a b : tumbler.Cookie) :
  negb (tumbler.cookie_eqb a b) = true <-> a <> b.
Proof.
  unfold tumbler.cookie_eqb.
  destruct (puzzle.bytes_eqb a b) eqn:E; cbn [negb].
  - apply bytes_eqb_eq in E. split; [discriminate | contradiction].
  - split; [|reflexivity]. intros _ Heq. apply bytes_eqb_eq in Heq.
    congruence.
Qed.

(** X25. [Disconnect] cancels what was deferred for the session and
    nothing else.  When a validation of an offer was deferred for a
    session with [DeferAction] and the session is then disconnected,
    the tumbler's list of deferred actions is what disconnecting
    without the deferral leaves: it holds exactly the former actions
    of the other sessions; the lookup table holds exactly the other
    sessions' cookies; and the epochs are untouched. *)
Theorem Disconnect_cancels_deferred (tb : tumbler.Tumbler)
  (s : tumbler.Session) (po : tumbler.PaymentOfferT) (u : Z) :
  let tb' := fst (tumbler.Disconnect (tumbler.DeferAction tb s po u) s) in
  tumbler.actions tb' = tumbler.actions (fst (tumbler.Disconnect tb s)) /\
  (forall a, In a (tumbler.actions tb') <->
             In a (tumbler.actions tb) /\
             tumbler.da_session a <> tumbler.cookie s) /\
  (forall c, In c (tumbler.sessions tb') <->
             In c (tumbler.sessions tb) /\ c <> tumbler.cookie s) /\
  tumbler.epochs tb' = tumbler.epochs tb /\
  tumbler.lastEpoch tb' = tumbler.lastEpoch tb.
Proof.
  unfold tumbler.Disconnect, tumbler.DeferAction,
    tumbler.removeDeferredActions, tumbler.set_actions.
  cbn [fst tumbler.actions tumbler.sessions tumbler.epochs
       tumbler.lastEpoch tumbler.pending].
  rewrite filter_app. cbn [filter tumbler.da_session].
  replace (negb (tumbler.cookie_eqb (tumbler.cookie s) (tumbler.cookie s)))
    with false
    by (unfold tumbler.cookie_eqb; now rewrite bytes_eqb_refl).
  rewrite app_nil_r.
  repeat match goal with |- _ /\ _ => split end; try reflexivity.
  - intros a. rewrite filter_In, cookie_eqb_neq. reflexivity.
  - intros c. rewrite filter_In, cookie_eqb_neq. reflexivity.
Qed.
